(** * Clinical Codes Finder: a shallow embedding of the front-end stores,
      the result-card parser and the confidence scorer, with the properties
      the specification states about them.

    Embedded from the sources:
    - [frontend/src/components/CodeResultCard.tsx]  ([parseCodeResults], [hasCodeResults],
                                                     [ConfidenceBar], [handleAddToBundle])
    - [frontend/src/components/InputArea.tsx]       ([handleSubmit], [handleKeyDown])
    - [frontend/src/components/Message.tsx]         ([isThinkingBlock], [extractResultCount],
                                                     the choice of the view, [filteredActions])
    - [HistoricalMessage.tsx]                       (the choice of the view)
    - [MessageList.tsx]                             ([flattenSteps], [isWelcomeMessage],
                                                     the filter of the live messages)
    - [ActionButton.tsx]                            ([handleClick], [isInBundle])
    - [frontend/src/components/ChatHistorySidebar.tsx]
                                                    ([handleSubmitRename], [canCreateNewChat],
                                                     the order of the groups)
    - [useChatHistorySync]                          (the effect and its refs)
    - [frontend/src/stores/bundleStore.ts]          (the store, [exportBundleToCSV])
    - [frontend/src/stores/chatHistoryStore.ts]     (the store, [generateThreadName],
                                                     [migrate], [groupThreadsByTime])
    - the PRD, section 3.6                          ([compute_confidence])

    Modelled from the specification, the Python agent not being among the
    sources:
    - the consolidator (section 4.6)
    - the orchestrator with its gateway (sections 4.3, 4.5 and 4.7)

    JavaScript strings are sequences of UTF-16 code units, and JavaScript
    Numbers are IEEE 754 binary64 values.

    The first part of the file holds the definitions, module by module; the
    second part, from "Properties" on, the lemmas about them. *)

From Stdlib Require Import String Ascii.
From Stdlib Require Import List Bool Arith NArith ZArith QArith Qminmax Qcanon Lia Lqa.
From Stdlib Require Import Permutation Sorted SpecFloat.
Import ListNotations.

Close Scope Qc_scope.
Close Scope Q_scope.
Set Implicit Arguments.

(** ** JavaScript strings

    A JavaScript string is a sequence of UTF-16 code units; regular expressions
    without the [u] flag, [split], [trim] and [startsWith] all work on code
    units.  Equality [===] on strings is equality of these sequences. *)

Module JS.

Definition jstring := list N.

Definition of_string (s : String.string) : jstring :=
  List.map N_of_ascii (list_ascii_of_string s).

Definition jstring_eq_dec : forall a b : jstring, {a = b} + {a <> b} :=
  list_eq_dec N.eq_dec.

Definition jeqb (a b : jstring) : bool :=
  if jstring_eq_dec a b then true else false.

(** Truthiness of a string: the empty string is the only falsy one. *)
Definition truthy (s : jstring) : bool :=
  match s with [] => false | _ :: _ => true end.

(** [LineTerminator]: LF, CR, LS, PS. *)
Definition is_line_terminator (c : N) : bool :=
  ((c =? 10) || (c =? 13) || (c =? 8232) || (c =? 8233))%N.

(** [WhiteSpace] and [LineTerminator], the class of [\s] and of [trim]. *)
Definition is_space (c : N) : bool :=
  ((c =? 9) || (c =? 10) || (c =? 11) || (c =? 12) || (c =? 13) || (c =? 32)
   || (c =? 160) || (c =? 5760) || ((8192 <=? c) && (c <=? 8202))
   || (c =? 8232) || (c =? 8233) || (c =? 8239) || (c =? 8287)
   || (c =? 12288) || (c =? 65279))%N.

(** [\d] *)
Definition is_digit (c : N) : bool := ((48 <=? c) && (c <=? 57))%N.

(** [.] without the [s] flag. *)
Definition is_dot (c : N) : bool := negb (is_line_terminator c).

Definition is_char (x : N) (c : N) : bool := (c =? x)%N.
Definition is_not_char (x : N) (c : N) : bool := negb (c =? x)%N.

(** [s.split('\n')] *)
Fixpoint split_lines (s : jstring) : list jstring :=
  match s with
  | [] => [[]]
  | c :: t =>
      if (c =? 10)%N then [] :: split_lines t
      else match split_lines t with
           | l :: ls => (c :: l) :: ls
           | [] => [[c]]
           end
  end.

Fixpoint drop_space (s : jstring) : jstring :=
  match s with
  | [] => []
  | c :: t => if is_space c then drop_space t else s
  end.

(** [s.trim()] *)
Definition trim (s : jstring) : jstring :=
  rev (drop_space (rev (drop_space s))).

(** [s.startsWith(p)] *)
Fixpoint startsWith (s p : jstring) : bool :=
  match p, s with
  | [], _ => true
  | _ :: _, [] => false
  | x :: p', c :: s' => (c =? x)%N && startsWith s' p'
  end.

(** The integer that a run of decimal digits writes. *)
Definition digit_value (c : N) : N := (c - 48)%N.

Definition decimal (ds : jstring) : N :=
  fold_left (fun acc c => (10 * acc + digit_value c)%N) ds 0%N.

End JS.

(** ** JavaScript numbers

    A Number is an IEEE 754 binary64 value, and arithmetic on Numbers rounds
    to nearest, ties to even.  The values and the operations are those of
    the standard library's specification of floating-point arithmetic, at
    precision 53 with exponents below 1024. *)

Module Number.
Import JS.

Definition double : Type := spec_float.

Definition prec : Z := 53.
Definition emax : Z := 1024.

(** The Number for an integer: the integer itself when it is representable,
    the nearest Number otherwise, an infinity beyond the largest one. *)
Definition of_Z (z : Z) : double := binary_normalize prec emax z 0 false.

(** [x / y], [x * y] and [x <= y] *)
Definition div (x y : double) : double := SFdiv prec emax x y.
Definition mul (x y : double) : double := SFmul prec emax x y.
Definition leb (x y : double) : bool := SFleb x y.

(** The literals [0], [1], [100] and [0.5]. *)
Definition zero : double := of_Z 0.
Definition one : double := of_Z 1.
Definition hundred : double := of_Z 100.
Definition half : double := S754_finite false 4503599627370496 (-53).

(** [parseInt(digits, 10)] on a run of decimal digits: the Number for the
    integer the digits write.  (Past the twentieth significant digit the
    language lets an implementation read the digits as zeros; this is the
    reading that does not.) *)
Definition parseInt10 (ds : jstring) : double := of_Z (Z.of_N (decimal ds)).

(** [Math.round]: the integral Number closest to [x], a half going towards
    plus infinity; NaN, the infinities, the zeros and the integral Numbers
    are returned as they are, and a result of zero keeps the sign of [x].
    A finite [x] is [m * 2^e], with the sign [s]; for [e < 0] the result is
    the floor of [x + 1/2], computed on integers. *)
Definition Math_round (x : double) : double :=
  match x with
  | S754_finite s m e =>
      if (0 <=? e)%Z then x
      else
        let z := ((2 * cond_Zopp s (Zpos m) + 2 ^ (- e)) / 2 ^ (1 - e))%Z in
        if (z =? 0)%Z then S754_zero s else of_Z z
  | _ => x
  end.

(** The same value ([Object.is]): equal fields, with the two zeros apart and
    NaN the same as itself. *)
Definition same (x y : double) : bool :=
  match x, y with
  | S754_zero s, S754_zero s' => Bool.eqb s s'
  | S754_infinity s, S754_infinity s' => Bool.eqb s s'
  | S754_nan, S754_nan => true
  | S754_finite s m e, S754_finite s' m' e' =>
      Bool.eqb s s' && Pos.eqb m m' && Z.eqb e e'
  | _, _ => false
  end.

(** A Number that is not NaN and has the sign [s]. *)
Definition signed (s : bool) (x : double) : Prop :=
  match x with
  | S754_zero s' | S754_infinity s' | S754_finite s' _ _ => s' = s
  | S754_nan => False
  end.

(** [P / 100] for an integer [P], as the parser computes it. *)
Definition percent (p : N) : double := div (of_Z (Z.of_N p)) hundred.

End Number.

(** ** Regular expressions

    The fragment of ECMAScript regular expressions the front end uses:
    literal characters and character classes, concatenation, the greedy
    optional [x?], greedy and lazy repetition of a class ([\s+], [.+?], ...),
    capture groups and the two anchors.  The matcher is the backtracking
    matcher of the language definition, written with continuations: a
    repetition tries its alternatives in priority order and falls back when
    the rest of the pattern fails. *)

Module Regex.
Import JS.

Inductive regex : Type :=
| Eps : regex
| Chr : (N -> bool) -> regex
| Seq : regex -> regex -> regex
| Alt : regex -> regex -> regex
| Star : bool -> (N -> bool) -> regex        (* [true]: greedy, [false]: lazy *)
| Group : nat -> regex -> regex
| Bol : regex                                (* [^] *)
| Eol : regex.                               (* [$] *)

Definition captures := list (nat * jstring).

Record mstate := MState { pos : nat; rest : jstring; caps : captures }.

Definition cont := mstate -> option mstate.

Fixpoint lookup_cap (i : nat) (c : captures) : option jstring :=
  match c with
  | [] => None
  | (j, w) :: c' => if Nat.eqb i j then Some w else lookup_cap i c'
  end.

Definition group (i : nat) (m : mstate) : option jstring := lookup_cap i (caps m).

Fixpoint star_match (greedy : bool) (cls : N -> bool)
         (w : jstring) (p : nat) (c : captures) (k : cont) : option mstate :=
  match w with
  | [] => k (MState p [] c)
  | x :: t =>
      if cls x then
        if greedy then
          match star_match greedy cls t (S p) c k with
          | Some r => Some r
          | None => k (MState p w c)
          end
        else
          match k (MState p w c) with
          | Some r => Some r
          | None => star_match greedy cls t (S p) c k
          end
      else k (MState p w c)
  end.

(** The text consumed between two states of the same run. *)
Definition consumed (before after : jstring) : jstring :=
  firstn (length before - length after) before.

Fixpoint rmatch (r : regex) (st : mstate) (k : cont) : option mstate :=
  match r with
  | Eps => k st
  | Chr cls =>
      match rest st with
      | x :: t => if cls x then k (MState (S (pos st)) t (caps st)) else None
      | [] => None
      end
  | Seq a b => rmatch a st (fun st' => rmatch b st' k)
  | Alt a b =>
      match rmatch a st k with
      | Some m => Some m
      | None => rmatch b st k
      end
  | Star g cls => star_match g cls (rest st) (pos st) (caps st) k
  | Group i a =>
      rmatch a st (fun st' =>
        k (MState (pos st') (rest st')
                  ((i, consumed (rest st) (rest st')) :: caps st')))
  | Bol => if Nat.eqb (pos st) 0 then k st else None
  | Eol => match rest st with [] => k st | _ :: _ => None end
  end.

(** Leftmost match: the pattern is tried at every start index in turn. *)
Fixpoint search_from (r : regex) (p : nat) (w : jstring) : option mstate :=
  match rmatch r (MState p w []) Some with
  | Some m => Some m
  | None =>
      match w with
      | [] => None
      | _ :: t => search_from r (S p) t
      end
  end.

(** [s.match(r)] and [r.exec(s)] for a pattern without the [g] flag. *)
Definition exec (r : regex) (s : jstring) : option mstate := search_from r 0 s.

(** [r.test(s)] *)
Definition test (r : regex) (s : jstring) : bool :=
  match exec r s with Some _ => true | None => false end.

(** Pattern builders. *)
Definition rlit (s : String.string) : regex :=
  fold_right (fun c r => Seq (Chr (is_char c)) r) Eps (of_string s).

Definition rplus (greedy : bool) (cls : N -> bool) : regex :=
  Seq (Chr cls) (Star greedy cls).

Definition ropt (r : regex) : regex := Alt r Eps.

Definition rseq (rs : list regex) : regex := fold_right Seq Eps rs.

(** What a pattern can do, without the priorities of the matcher: [sem r st st']
    holds when [r] can take the run from [st] to [st'].  The matcher returns
    one of these runs (soundness) and finds one whenever the continuation
    accepts it (completeness). *)
Inductive sem : regex -> mstate -> mstate -> Prop :=
| sem_eps : forall st, sem Eps st st
| sem_chr : forall cls p x t c,
    cls x = true ->
    sem (Chr cls) (MState p (x :: t) c) (MState (S p) t c)
| sem_seq : forall a b st1 st2 st3,
    sem a st1 st2 -> sem b st2 st3 -> sem (Seq a b) st1 st3
| sem_alt_l : forall a b st st', sem a st st' -> sem (Alt a b) st st'
| sem_alt_r : forall a b st st', sem b st st' -> sem (Alt a b) st st'
| sem_star : forall g cls p w t c,
    Forall (fun x => cls x = true) w ->
    sem (Star g cls) (MState p (w ++ t) c) (MState (p + length w) t c)
| sem_group : forall i a st st',
    sem a st st' ->
    sem (Group i a) st
        (MState (pos st') (rest st') ((i, consumed (rest st) (rest st')) :: caps st'))
| sem_bol : forall st, pos st = 0 -> sem Bol st st
| sem_eol : forall st, rest st = [] -> sem Eol st st.

(** A pattern with its anchors at the start and its groups removed. *)
Fixpoint strip (r : regex) : regex :=
  match r with
  | Seq a b => Seq (strip a) (strip b)
  | Alt a b => Alt (strip a) (strip b)
  | Group _ a => strip a
  | Bol => Eps
  | _ => r
  end.

Fixpoint no_eol (r : regex) : bool :=
  match r with
  | Seq a b | Alt a b => no_eol a && no_eol b
  | Group _ a => no_eol a
  | Eol => false
  | _ => true
  end.

(** [u] occurs in [s] as a contiguous piece. *)
Definition infix (u s : jstring) : Prop := exists a b, s = a ++ u ++ b.

(** [w] starts with a percentage: one or more digits and a percent sign. *)
Definition percent_at (w : jstring) : Prop :=
  exists ds t, ds <> [] /\ Forall (fun x => is_digit x = true) ds
               /\ w = ds ++ [37%N] ++ t.

(** The line holds no percentage. *)
Definition no_percent (l : jstring) : Prop :=
  forall a b, l = a ++ b -> ~ percent_at b.

(** The first percentage of the line [l] is [ds%], after [a] and before
    [b]: no percentage starts within [a]. *)
Definition first_percent (l a ds b : jstring) : Prop :=
  l = a ++ ds ++ [37%N] ++ b
  /\ ds <> [] /\ Forall (fun x => is_digit x = true) ds
  /\ (forall a1 a2, a = a1 ++ a2 -> a2 <> [] -> ~ percent_at (a2 ++ ds ++ [37%N] ++ b)).

End Regex.

(** ** The result-card parser ([CodeResultCard.tsx]) *)

Module Parser.
Import JS Regex.

(** [/^###\s+(.+?)\s+\(\d+\s+results?\)/] *)
Definition systemRe : regex :=
  rseq [ Bol; rlit "###"; rplus true is_space;
         Group 1 (rplus false is_dot);
         rplus true is_space; rlit "("; rplus true is_digit;
         rplus true is_space; rlit "result"; ropt (rlit "s"); rlit ")" ].

(** [/^\s*-\s*>\s*Parent:\s*`([^`]+)`\s*(.+)$/] *)
Definition parentRe : regex :=
  rseq [ Bol; Star true is_space; rlit "-"; Star true is_space; rlit ">";
         Star true is_space; rlit "Parent:"; Star true is_space; rlit "`";
         Group 1 (rplus true (is_not_char 96)); rlit "`";
         Star true is_space; Group 2 (rplus true is_dot); Eol ].

(** [/`([^`]+)`/] *)
Definition codeRe : regex :=
  rseq [ rlit "`"; Group 1 (rplus true (is_not_char 96)); rlit "`" ].

(** [/\*\*(.+?)\*\*/] *)
Definition displayRe : regex :=
  rseq [ rlit "**"; Group 1 (rplus false is_dot); rlit "**" ].

(** [/(\d+)%/] *)
Definition pctRe : regex :=
  rseq [ Group 1 (rplus true is_digit); rlit "%" ].

(** [/###\s+.+?\s+\(\d+\s+results?\)/] *)
Definition hasRe : regex :=
  rseq [ rlit "###"; rplus true is_space;
         rplus false is_dot;
         rplus true is_space; rlit "("; rplus true is_digit;
         rplus true is_space; rlit "result"; ropt (rlit "s"); rlit ")" ].

(** [interface CodeResult].  The parser never fills [metadata]; the two
    parent fields are absent until a hierarchy line sets them.  The
    confidence is a JavaScript number; it is kept here as the exact quotient
    that [parseInt(..) / 100] denotes. *)
Record CodeResult := mkCodeResult {
  code : jstring;
  display : jstring;
  confidence : Number.double;
  system : jstring;
  parentCode : option jstring;
  parentDisplay : option jstring
}.

(** The loop works on objects: [lastResult] is a second reference to the
    object last pushed on an array of [systems], and the hierarchy branch
    writes through it.  Objects live in [heap], addressed by their index;
    the arrays of [systems] and [lastResult] hold addresses.  [systems] is a
    [Map]: insertion-ordered, a [set] on a present key keeps its place. *)
Record pstate := mkPState {
  heap : list CodeResult;
  systems : list (jstring * list nat);
  currentSystem : jstring;
  summary : jstring;
  inResults : bool;
  lastResult : option nat
}.

Definition init : pstate :=
  mkPState [] [] [] [] false None.

(** [Map.prototype.set] *)
Fixpoint map_set {V} (k : jstring) (v : V) (m : list (jstring * V)) : list (jstring * V) :=
  match m with
  | [] => [(k, v)]
  | (k', v') :: m' =>
      if jeqb k' k then (k', v) :: m' else (k', v') :: map_set k v m'
  end.

(** [Map.prototype.get] *)
Fixpoint map_get {V} (k : jstring) (m : list (jstring * V)) : option V :=
  match m with
  | [] => None
  | (k', v') :: m' => if jeqb k' k then Some v' else map_get k m'
  end.

(** [Map.prototype.has] *)
Definition map_has {V} (k : jstring) (m : list (jstring * V)) : bool :=
  match map_get k m with Some _ => true | None => false end.

(** [systems.get(k)!.push(a)]: the array stored under [k] grows in place. *)
Fixpoint map_push (k : jstring) (a : nat) (m : list (jstring * list nat))
  : list (jstring * list nat) :=
  match m with
  | [] => []
  | (k', v') :: m' =>
      if jeqb k' k then (k', v' ++ [a]) :: m' else (k', v') :: map_push k a m'
  end.

(** Writing the two parent fields of the object at an address. *)
Definition set_parent (pc pd : jstring) (r : CodeResult) : CodeResult :=
  mkCodeResult (code r) (display r) (confidence r) (system r) (Some pc) (Some pd).

Fixpoint heap_update (a : nat) (f : CodeResult -> CodeResult) (h : list CodeResult)
  : list CodeResult :=
  match h, a with
  | [], _ => []
  | r :: h', O => f r :: h'
  | r :: h', S a' => r :: heap_update a' f h'
  end.

(** [pctMatch ? parseInt(pctMatch[1], 10) / 100 : 0.5] *)
Definition confidence_of (line : jstring) : Number.double :=
  match exec pctRe line with
  | Some m =>
      match group 1 m with
      | Some ds => Number.div (Number.parseInt10 ds) Number.hundred
      | None => Number.half
      end
  | None => Number.half
  end.

(** The captures of the header pattern, of the hierarchy pattern and of a
    result line, as the loop body reads them. *)
Definition systemMatch (line : jstring) : option jstring :=
  match exec systemRe line with
  | Some m => group 1 m
  | None => None
  end.

Definition parentMatch (line : jstring) : option (jstring * jstring) :=
  match exec parentRe line with
  | Some m =>
      match group 1 m, group 2 m with
      | Some a, Some b => Some (a, b)
      | _, _ => None
      end
  | None => None
  end.

Definition codeMatch (line : jstring) : option jstring :=
  match exec codeRe line with
  | Some m => group 1 m
  | None => None
  end.

Definition displayMatch (line : jstring) : option jstring :=
  match exec displayRe line with
  | Some m => group 1 m
  | None => None
  end.

(** The last statement of the loop body: a line before the first header
    that is not blank, not a rule and not the [*Searched:] footer is added to
    the summary. *)
Definition add_summary (st : pstate) (line : jstring) : pstate :=
  if negb (inResults st) && truthy (trim line)
     && negb (startsWith line (of_string "---"))
     && negb (startsWith line (of_string "*Searched:"))
  then mkPState (heap st) (systems st) (currentSystem st)
                (summary st ++ (if truthy (summary st) then [10%N] else []) ++ line)
                (inResults st) (lastResult st)
  else st.

(** The result branch of the loop body; when it does not [continue] the
    line falls through to the summary statement. *)
Definition result_line (st : pstate) (line : jstring) : pstate :=
  if truthy (currentSystem st) && map_has (currentSystem st) (systems st)
     && startsWith (trim line) (of_string "-")
  then
    match codeMatch line, displayMatch line with
    | Some c, Some d =>
        let a := length (heap st) in
        let result := mkCodeResult c d (confidence_of line) (currentSystem st) None None in
        mkPState (heap st ++ [result])
                 (map_push (currentSystem st) a (systems st))
                 (currentSystem st) (summary st) (inResults st) (Some a)
    | _, _ => add_summary st line
    end
  else add_summary st line.

(** One iteration of [for (const line of lines)]. *)
Definition step (st : pstate) (line : jstring) : pstate :=
  match systemMatch line with
  | Some name =>
      mkPState (heap st) (map_set name [] (systems st)) name
               (summary st) true None
  | None =>
      match parentMatch line, lastResult st with
      | Some (pc, pd), Some a =>
          mkPState (heap_update a (set_parent pc (trim pd)) (heap st))
                   (systems st) (currentSystem st) (summary st)
                   (inResults st) (lastResult st)
      | _, _ => result_line st line
      end
  end.

Definition run (lines : list jstring) (st : pstate) : pstate :=
  fold_left step lines st.

(** The returned [systems] map, with every address replaced by the object
    it denotes. *)
Definition deref (h : list CodeResult) (refs : list nat) : list CodeResult :=
  flat_map (fun a => match nth_error h a with Some r => [r] | None => [] end) refs.

Record parsed := mkParsed {
  p_summary : jstring;
  p_systems : list (jstring * list CodeResult)
}.

Definition parseCodeResults (markdown : jstring) : parsed :=
  let st := run (split_lines markdown) init in
  mkParsed (summary st)
           (List.map (fun kv => (fst kv, deref (heap st) (snd kv))) (systems st)).

Definition hasCodeResults (content : jstring) : bool := test hasRe content.

(** A message as the assistant writes it, to try the parser on. *)
Definition sample : jstring :=
  of_string
"Found codes for diabetes.
---
### ICD-10-CM (2 results)
- `E11.9` **Type 2 diabetes mellitus** - 92%
  - > Parent: `E11` Type 2 diabetes
- `E10` **Type 1 diabetes** (no score)
### LOINC (1 result)
- `4548-4` **Hemoglobin A1c** 150%
*Searched: ICD-10-CM, LOINC*".

(** A message whose only result line carries [150%]. *)
Definition over_unit : jstring :=
  of_string
"### LOINC (1 result)
- `4548-4` **Hemoglobin A1c** 150%".

(** A header in the middle of a line. *)
Definition inline_header : jstring := of_string "x### A (1 result)".

(** Where a result comes from.  [quoted c] is the code between its two
    backticks; [from_line sys l r] says that [r] is the object the result
    branch builds from line [l] while [sys] is the current system;
    [under_header ls sys l] says that [l] is a line of [ls] whose nearest
    header line above it names [sys]. *)
Definition quoted (c : jstring) : jstring := [96%N] ++ c ++ [96%N].

Definition from_line (sys l : jstring) (r : CodeResult) : Prop :=
  system r = sys /\ codeMatch l = Some (code r)
  /\ displayMatch l = Some (display r) /\ confidence r = confidence_of l.

Definition no_header (l : jstring) : Prop := systemMatch l = None.

Definition under_header (ls : list jstring) (sys l : jstring) : Prop :=
  exists pre h mid post,
    ls = pre ++ h :: mid ++ l :: post
    /\ systemMatch h = Some sys /\ Forall no_header mid.

Definition listed (ls : list jstring) (sys : jstring) (r : CodeResult) : Prop :=
  exists l, under_header ls sys l /\ from_line sys l r.

Definition open_header (ls : list jstring) (sys : jstring) : Prop :=
  exists pre h mid,
    ls = pre ++ h :: mid /\ systemMatch h = Some sys /\ Forall no_header mid.

(** The loop invariant after the lines [ls]. *)
Record Inv (ls : list jstring) (st : pstate) : Prop := mkInv {
  inv_refs : forall k refs a,
      In (k, refs) (systems st) -> In a refs ->
      exists r, nth_error (heap st) a = Some r /\ listed ls k r;
  inv_cur : currentSystem st <> [] -> open_header ls (currentSystem st);
  inv_keys : forall k refs,
      In (k, refs) (systems st) -> exists h, In h ls /\ systemMatch h = Some k
}.

End Parser.

(** ** The input area ([InputArea.tsx]) *)

Module InputArea.
Import JS.

(** The argument of [sendMessage]. *)
Record UserMessage := mkUserMessage {
  m_name : jstring;
  m_type : jstring;
  m_output : jstring
}.

(** What [handleSubmit] reads and writes: the [input] state of the
    component, the [loading] flag of the chat data, and the messages handed
    to [sendMessage], the only way this component reaches the backend. *)
Record component := mkComponent {
  input : jstring;
  loading : bool;
  sent : list UserMessage
}.

(** [handleSubmit]; [e.preventDefault()] acts on the event only. *)
Definition handleSubmit (st : component) : component :=
  if negb (truthy (trim (input st))) || loading st then st
  else mkComponent []
                   (loading st)
                   (sent st ++ [mkUserMessage (of_string "User")
                                              (of_string "user_message")
                                              (trim (input st))]).

End InputArea.

(** ** The bundle store ([bundleStore.ts]) *)

Module BundleStore.
Import JS.

Record BundleItem := mkBundleItem {
  system : jstring;
  code : jstring;
  display : jstring
}.

Record BundleState := mkBundleState {
  items : list BundleItem;
  isOpen : bool
}.

Definition initial : BundleState := mkBundleState [] false.

(** [i.code === code && i.system === system] *)
Definition matches (c sy : jstring) (i : BundleItem) : bool :=
  jeqb (code i) c && jeqb (system i) sy.

Definition addItem (item : BundleItem) (st : BundleState) : BundleState :=
  if existsb (matches (code item) (system item)) (items st) then st
  else mkBundleState (items st ++ [item]) true.

Definition removeItem (c sy : jstring) (st : BundleState) : BundleState :=
  mkBundleState (filter (fun i => negb (matches c sy i)) (items st)) (isOpen st).

Definition clear (st : BundleState) : BundleState := mkBundleState [] false.

Definition hasItem (c sy : jstring) (st : BundleState) : bool :=
  existsb (matches c sy) (items st).

Definition toggleOpen (st : BundleState) : BundleState :=
  mkBundleState (items st) (negb (isOpen st)).

Definition setOpen (open : bool) (st : BundleState) : BundleState :=
  mkBundleState (items st) open.

(** The actions of the store and the states they reach from the initial one. *)
Inductive action : Type :=
| AddItem (item : BundleItem)
| RemoveItem (c sy : jstring)
| Clear
| ToggleOpen
| SetOpen (open : bool).

Definition apply (st : BundleState) (a : action) : BundleState :=
  match a with
  | AddItem item => addItem item st
  | RemoveItem c sy => removeItem c sy st
  | Clear => clear st
  | ToggleOpen => toggleOpen st
  | SetOpen open => setOpen open st
  end.

Definition run (acts : list action) : BundleState := fold_left apply acts initial.

Definition key (i : BundleItem) : jstring * jstring := (code i, system i).

(** No two items of the list share their (code, system) pair. *)
Definition unique (st : BundleState) : Prop := NoDup (List.map key (items st)).

End BundleStore.

(** ** The chat history store ([chatHistoryStore.ts]) *)

Module ChatHistory.
Import JS.

Inductive Role : Type := user | assistant.

Record ChatMessage := mkChatMessage {
  msg_id : jstring;
  role : Role;
  content : jstring;
  timestamp : jstring
}.

Record ChatThread := mkChatThread {
  id : jstring;
  name : jstring;
  createdAt : jstring;
  updatedAt : jstring;
  messages : list ChatMessage
}.

Record ChatHistoryState := mkState {
  threads : list ChatThread;
  currentThreadId : option jstring;
  liveThreadId : option jstring;
  isOpen : bool
}.

Definition initial : ChatHistoryState := mkState [] None None false.

(** [a === b] between a string and a [string | null]. *)
Definition is_id (i : jstring) (o : option jstring) : bool :=
  match o with
  | Some j => jeqb i j
  | None => false
  end.

(** [createThread]; the identifier from [generateId()] and the time from
    [new Date().toISOString()] are inputs of the model. *)
Definition createThread (new_id now : jstring) (st : ChatHistoryState) : ChatHistoryState :=
  let newThread := mkChatThread new_id (of_string "New conversation") now now [] in
  mkState (newThread :: threads st) (Some new_id) (Some new_id) (isOpen st).

(** [state.liveThreadId || (filtered.length > 0 ? filtered[0].id : null)] *)
Definition live_or_first (live : option jstring) (filtered : list ChatThread) : option jstring :=
  let first := match filtered with t :: _ => Some (id t) | [] => None end in
  match live with
  | Some l => if truthy l then Some l else first
  | None => first
  end.

Definition deleteThread (i : jstring) (st : ChatHistoryState) : ChatHistoryState :=
  let filtered := filter (fun t => negb (jeqb (id t) i)) (threads st) in
  if is_id i (liveThreadId st) then st
  else
    let newCurrentId :=
      if is_id i (currentThreadId st) then live_or_first (liveThreadId st) filtered
      else currentThreadId st in
    mkState filtered newCurrentId (liveThreadId st) (isOpen st).

Inductive action : Type :=
| CreateThread (new_id now : jstring)
| DeleteThread (i : jstring).

Definition apply (st : ChatHistoryState) (a : action) : ChatHistoryState :=
  match a with
  | CreateThread new_id now => createThread new_id now st
  | DeleteThread i => deleteThread i st
  end.

Definition run (acts : list action) (st : ChatHistoryState) : ChatHistoryState :=
  fold_left apply acts st.

(** [liveThreadId] is the identifier of a thread of the list. *)
Definition live_exists (st : ChatHistoryState) : Prop :=
  exists l t, liveThreadId st = Some l /\ In t (threads st) /\ id t = l.

(** [liveThreadId] is [null] or the identifier of a thread of the list. *)
Definition live_ok (st : ChatHistoryState) : Prop :=
  liveThreadId st = None \/ live_exists st.

Definition is_create (a : action) : bool :=
  match a with CreateThread _ _ => true | DeleteThread _ => false end.

End ChatHistory.


(** ** The confidence scorer (PRD, FR-6: [compute_confidence]) *)

Module Scoring.
Import JS.

Local Open Scope Q_scope.

(** The [result] dictionary, with the keys the scorer reads.  [rank] is the
    position in the API response and may be absent.  Python floats are
    modelled by the exact rationals they stand for. *)
Record result := mkResult {
  display : jstring;
  code : jstring;
  rank : option N
}.

(** [result.get("rank", 0)] *)
Definition get_rank (r : result) : N :=
  match rank r with Some n => n | None => 0%N end.

Definition of_N (n : N) : Q := inject_Z (Z.of_N n).
Definition len (s : jstring) : Q := inject_Z (Z.of_nat (length s)).

Section Scorer.

(** The two similarity functions the snippet calls and does not define. *)
Variable jaccard_similarity : jstring -> jstring -> Q.
Variable embedding_similarity : jstring -> jstring -> Q.

Definition scores (query : jstring) (r : result) : list (Q * Q) :=
  [ (jaccard_similarity query (display r), 30 # 100);      (* lexical *)
    (1 / (1 + of_N (get_rank r) * (1 # 10)), 20 # 100);    (* API position *)
    (Qmin (len (code r) / 10) 1, 20 # 100);                (* specificity *)
    (embedding_similarity query (display r), 30 # 100) ].  (* semantic *)

(** [sum(score * weight for score, weight in scores)] *)
Definition compute_confidence (query : jstring) (r : result) : Q :=
  fold_left (fun acc sw => acc + fst sw * snd sw) (scores query r) 0.

Definition weights (query : jstring) (r : result) : list Q :=
  List.map snd (scores query r).

(** The score as the specification words it: four named factors and their
    fixed weights. *)
Definition lexical_overlap := jaccard_similarity.
Definition semantic_similarity := embedding_similarity.
Definition rank_decay (n : N) : Q := 1 / (1 + of_N n * (1 # 10)).
Definition code_specificity (c : jstring) : Q := len c / 10.

Definition spec_score (query : jstring) (r : result) : Q :=
  (30 # 100) * lexical_overlap query (display r)
  + (20 # 100) * rank_decay (get_rank r)
  + (20 # 100) * Qmin (code_specificity (code r)) 1
  + (30 # 100) * semantic_similarity query (display r).

End Scorer.

End Scoring.

(** ** The consolidator (specification, section 4.6)

    The consolidation node of the agent ([scoring/dedup.py],
    [nodes/consolidate.py]) is not among the sources; this module follows
    the wording of the specification. *)

Module Consolidator.
Import JS.

(** Modelled from the spec: the coding systems, listed in the priority
    order of the final ranking (diagnosis > medication > lab > supply >
    unit > phenotype); the backends themselves are missing. *)
Inductive System : Type :=
| Diagnosis | Medication | Lab | Supply | Unit | Phenotype.

Definition priority (s : System) : nat :=
  match s with
  | Diagnosis => 0 | Medication => 1 | Lab => 2
  | Supply => 3 | Unit => 4 | Phenotype => 5
  end.

Definition system_eqb (a b : System) : bool := Nat.eqb (priority a) (priority b).

(** Modelled from the spec: a [ScoredResult] (the scorer's output record is
    missing), with the fields that reach a [ConsolidatedResult].  The
    confidence is a rational in lowest terms, so that equal numbers are
    equal values. *)
Record ScoredResult := mkScored {
  system : System;
  code : jstring;
  display : jstring;
  confidence : Qc
}.

(** Modelled from the spec: the confidence tiers of a reported result (the
    labelling code is missing). *)
Inductive Tier : Type := high | medium | possible.

(** Modelled from the spec: a [ConsolidatedResult] (the consolidation node
    is missing). *)
Record ConsolidatedResult := mkConsolidated {
  c_system : System;
  c_code : jstring;
  c_display : jstring;
  c_confidence : Qc;
  tier : Tier;
  relatedCodes : list (System * jstring)
}.

(** Modelled from the spec: ties are broken by the next criterion (the
    ranking code is missing); comparisons are combined lexicographically. *)
Definition lex (c d : comparison) : comparison :=
  match c with Eq => d | _ => c end.

(** Modelled from the spec: code lexical order (the ranking code is
    missing), here code unit by code unit. *)
Fixpoint compare_string (a b : jstring) : comparison :=
  match a, b with
  | [], [] => Eq
  | [], _ :: _ => Lt
  | _ :: _, [] => Gt
  | x :: a', y :: b' => lex (N.compare x y) (compare_string a' b')
  end.

Definition compare_confidence (a b : ScoredResult) : comparison :=
  Qccompare (confidence b) (confidence a).

Definition compare_system (a b : ScoredResult) : comparison :=
  Nat.compare (priority (system a)) (priority (system b)).

Definition compare_code (a b : ScoredResult) : comparison :=
  compare_string (code a) (code b).

(** Modelled from the spec: the ranking order (the ranking code is
    missing): confidence descending, then system priority, then code in
    lexical order.  Two results that agree on all three compare [Eq]. *)
Definition rank_compare (a b : ScoredResult) : comparison :=
  lex (compare_confidence a b) (lex (compare_system a b) (compare_code a b)).

Definition ranks_before (a b : ScoredResult) : bool :=
  match rank_compare a b with Gt => false | _ => true end.

Fixpoint insert (x : ScoredResult) (l : list ScoredResult) : list ScoredResult :=
  match l with
  | [] => [x]
  | y :: t => if ranks_before x y then x :: l else y :: insert x t
  end.

(** Modelled from the spec: the final ranking (the ranking code is
    missing), by insertion into the ranking order. *)
Definition rank_sort (l : list ScoredResult) : list ScoredResult :=
  fold_right insert [] l.

Definition Qcleb (a b : Qc) : bool :=
  match Qccompare a b with Gt => false | _ => true end.

Definition Qcltb (a b : Qc) : bool :=
  match Qccompare a b with Lt => true | _ => false end.

(** Modelled from the spec: the fixed thresholds and the default cap (the
    configuration module is missing). *)
Definition REPORT_THRESHOLD : Qc := Q2Qc (3 # 10).
Definition MEDIUM_THRESHOLD : Qc := Q2Qc (5 # 10).
Definition HIGH_THRESHOLD : Qc := Q2Qc (8 # 10).
Definition CLUSTER_THRESHOLD : Qc := Q2Qc (92 # 100).
Definition TOP_N : nat := 3.

(** Modelled from the spec: the tiers high (> 0.8), medium (0.5 - 0.8) and
    possible (0.3 - 0.5) (the labelling code is missing). *)
Definition tier_of (c : Qc) : Tier :=
  if Qcltb HIGH_THRESHOLD c then high
  else if Qcleb MEDIUM_THRESHOLD c then medium
  else possible.

Definition same_key (a b : ScoredResult) : bool :=
  system_eqb (system a) (system b) && jeqb (code a) (code b).

(** Modelled from the spec: phase (a), exact dedup (the dedup code is
    missing).  On a list in ranking order the first result of each
    (system, code) pair is one of maximum confidence; the later ones
    collapse onto it.  The specification names no rule for choosing among
    results of one pair that share the maximum confidence, and none is added
    here: the one met first is kept. *)
Fixpoint exact_dedup (l : list ScoredResult) : list ScoredResult :=
  match l with
  | [] => []
  | x :: t => x :: filter (fun y => negb (same_key x y)) (exact_dedup t)
  end.

(** Modelled from the spec: results below 0.3 are excluded entirely (the
    filter is missing). *)
Definition reportable (r : ScoredResult) : bool :=
  Qcleb REPORT_THRESHOLD (confidence r).

(** Modelled from the spec: a [Cluster], its representative and the other
    members (the clustering code is missing). *)
Record Cluster := mkCluster {
  representative : ScoredResult;
  members : list ScoredResult
}.

Section Consolidate.

(** Modelled from the spec: the embedding similarity service (missing); [None]
    is a failed call, which counts as similarity 0. *)
Variable similarity : jstring -> jstring -> option Qc.

(** The per-system cap of the configuration. *)
Variable top_n : nat.

Definition sim (a b : ScoredResult) : Qc :=
  match similarity (display a) (display b) with
  | Some q => q
  | None => Q2Qc 0
  end.

(** Modelled from the spec: phase (b), the pairs that join a cluster (the
    clustering code is missing): two results of different systems whose
    similarity is at or above 0.92.  A pair is judged once, the
    higher-ranked result first. *)
Definition linked (a b : ScoredResult) : bool :=
  negb (system_eqb (system a) (system b)) && Qcleb CLUSTER_THRESHOLD (sim a b).

Definition joined (a b : ScoredResult) : bool :=
  if ranks_before a b then linked a b else linked b a.

(** Modelled from the spec: the cluster of [comp] within [pool] (the
    clustering code is missing): results joined to a member are added until
    none is left to add. *)
Fixpoint grow (fuel : nat) (comp pool : list ScoredResult)
  : list ScoredResult * list ScoredResult :=
  match fuel with
  | O => (comp, pool)
  | S fuel' =>
      match partition (fun y => existsb (fun x => joined x y) comp) pool with
      | ([], _) => (comp, pool)
      | (new, others) => grow fuel' (comp ++ new) others
      end
  end.

(** Modelled from the spec: the clusters and their representatives (the
    clustering code is missing).  On a list in ranking order the first
    result not yet in a cluster is the highest-confidence member of its own,
    hence its representative. *)
Fixpoint clusters (fuel : nat) (nodes : list ScoredResult) : list Cluster :=
  match fuel, nodes with
  | S fuel', x :: t =>
      let (comp, others) := grow (length t) [x] t in
      mkCluster x (tl comp) :: clusters fuel' others
  | _, _ => []
  end.

Definition to_consolidated (c : Cluster) : ConsolidatedResult :=
  let r := representative c in
  mkConsolidated (system r) (code r) (display r) (confidence r)
                 (tier_of (confidence r))
                 (List.map (fun m => (system m, code m)) (rank_sort (members c))).

(** Modelled from the spec: the output cap (the ranking code is missing): a
    result is kept while fewer than [top_n] results of its system were kept
    before it. *)
Definition cap_step (kept : list ConsolidatedResult) (r : ConsolidatedResult)
  : list ConsolidatedResult :=
  if Nat.ltb (length (filter (fun k => system_eqb (c_system k) (c_system r)) kept)) top_n
  then kept ++ [r] else kept.

Definition cap_per_system (l : list ConsolidatedResult) : list ConsolidatedResult :=
  fold_left cap_step l [].

(** Modelled from the spec: [consolidate] (the consolidation node is
    missing): exact dedup, exclusion below 0.3, cross-system clustering
    with the representative and its related codes, ranking, and the cap per
    system. *)
Definition consolidate (results : list ScoredResult) : list ConsolidatedResult :=
  let ranked := rank_sort results in
  let survivors := filter reportable (exact_dedup ranked) in
  cap_per_system (List.map to_consolidated (clusters (length survivors) survivors)).

End Consolidate.

(** The scored result a consolidated result reports. *)
Definition as_scored (c : ConsolidatedResult) : ScoredResult :=
  mkScored (c_system c) (c_code c) (c_display c) (c_confidence c).

(** Sample results: a drug found twice by one backend, a lab code whose
    display the similarity service judges the same as the drug's, a
    diagnosis, and a result below the reporting threshold. *)
Definition sample_results : list ScoredResult :=
  [ mkScored Lab (of_string "4548-4") (of_string "metformin 500 MG") (Q2Qc (50 # 100));
    mkScored Medication (of_string "861004")
             (of_string "metformin 500 MG Oral Tablet") (Q2Qc (60 # 100));
    mkScored Diagnosis (of_string "E11.9") (of_string "Type 2 diabetes mellitus")
             (Q2Qc (70 # 100));
    mkScored Medication (of_string "861004")
             (of_string "metformin 500 MG Oral Tablet") (Q2Qc (95 # 100));
    mkScored Unit (of_string "mg/dL") (of_string "milligram per deciliter")
             (Q2Qc (20 # 100)) ].

Definition sample_similarity (a b : jstring) : option Qc :=
  if jeqb a (of_string "metformin 500 MG Oral Tablet")
     && jeqb b (of_string "metformin 500 MG")
  then Some (Q2Qc (93 # 100)) else None.

(** A well-behaved comparison: a total preorder given by a three-way test. *)
Class Comparison {A : Type} (cmp : A -> A -> comparison) : Prop := {
  cmp_sym : forall x y, cmp y x = CompOpp (cmp x y);
  cmp_eq_l : forall x y z, cmp x y = Eq -> cmp x z = cmp y z;
  cmp_lt_trans : forall x y z, cmp x y = Lt -> cmp y z = Lt -> cmp x z = Lt
}.

(** A list in ranking order. *)
Inductive ranked : list ScoredResult -> Prop :=
| ranked_nil : ranked []
| ranked_cons : forall x l,
    Forall (fun y => ranks_before x y = true) l -> ranked l -> ranked (x :: l).

(** Results that the three ranking keys tell apart: no two distinct results
    of the list agree on system, code and confidence. *)
Definition told_apart (l : list ScoredResult) : Prop :=
  forall a b, In a l -> In b l ->
    system a = system b -> code a = code b -> confidence a = confidence b -> a = b.

(** Two scored results for one drug code, with the same confidence and two
    spellings of the display. *)
Definition tablet : ScoredResult :=
  mkScored Medication (of_string "861004")
           (of_string "metformin 500 MG Oral Tablet") (Q2Qc (90 # 100)).

Definition tablet' : ScoredResult :=
  mkScored Medication (of_string "861004")
           (of_string "Metformin Hydrochloride 500 MG Oral Tablet") (Q2Qc (90 # 100)).

End Consolidator.

(** ** The orchestrator (specification, sections 4.2, 4.3, 4.5 and 4.7)

    The agent graph ([agent/graph.py] and its nodes) is not among the
    sources; this module follows the wording of the specification.  The
    classifier, the planner, the backends, the scorer, the reflector and the
    summary service are parameters: the guards below hold for any of them.
    Calls are made one after the other and take no time: the concurrency
    limit and the deadlines of section 4.3 are not modelled. *)

Module Orchestrator.
Import JS Consolidator.

(** Modelled from the spec: the hard budgets (the configuration module is
    missing). *)
Definition MAX_ITERATIONS : nat := 3.
Definition MAX_CALLS : nat := 12.
Definition MAX_RETRIES : nat := 2.

(** Modelled from the spec: the fixed summary of a rejected empty query (the
    agent entry point is missing). *)
Definition NO_QUERY_PROVIDED : jstring := of_string "no query provided".

(** Modelled from the spec: [SearchTask] and [RawResult] (the state schema
    is missing). *)
Record SearchTask := mkTask {
  backendId : System;
  searchTerm : jstring;
  iterationIndex : nat
}.

Record RawResult := mkRaw {
  raw_system : System;
  raw_code : jstring;
  raw_display : jstring;
  backendRank : N;
  sourceTerm : jstring
}.

(** Modelled from the spec: the failures of a [CodeLookupService] (the tool
    adapters are missing). *)
Inductive BackendFailure : Type := Timeout | Unavailable | MalformedResponse.

(** Modelled from the spec: timeouts and unavailability are transient and
    retried; a malformed response is not (the HTTP client is missing). *)
Definition transient (f : BackendFailure) : bool :=
  match f with
  | Timeout | Unavailable => true
  | MalformedResponse => false
  end.

Inductive Response : Type :=
| Success (found : list RawResult)
| Failure (f : BackendFailure).

(** Modelled from the spec: what the gateway records for one task (the
    execute node is missing). *)
Inductive Outcome : Type :=
| Completed (found : list RawResult)
| Failed (f : BackendFailure).

(** Modelled from the spec: the reflector's refinement strategy and answer
    (the reflect node is missing). *)
Inductive Strategy : Type :=
| Broaden
| Narrow
| Synonyms (terms : list jstring).

Record Reflection := mkReflection {
  stop : bool;
  strategy : option Strategy
}.

(** Modelled from the spec: the states of the machine (the graph definition
    is missing). *)
Inductive Phase : Type :=
| CLASSIFY | PLAN | EXECUTE | REFLECT | CONSOLIDATE | SUMMARIZE | DONE.

Definition IntentScore := System -> Q.

(** Modelled from the spec: [AgentState], the context of one run (the state
    schema [agent/state.py] is missing). *)
Record AgentState := mkAgent {
  query : jstring;
  phase : Phase;
  intent : IntentScore;
  tasks : list SearchTask;
  raw : list RawResult;
  iteration : nat;
  calls : nat;
  feedback : option Strategy;
  results : list ConsolidatedResult;
  summary : jstring;
  trace : list jstring
}.

Section Run.

Variable classify : jstring -> IntentScore.
Variable plan : IntentScore -> option Strategy -> nat -> list SearchTask.
(** The answer of a backend to a task; the second argument is the number of
    calls made before this one, so that a backend may answer a retry
    differently. *)
Variable search : SearchTask -> nat -> Response.
Variable score : jstring -> RawResult -> Qc.
Variable reflect : list RawResult -> nat -> nat -> Reflection.
Variable similarity : jstring -> jstring -> option Qc.
Variable summarize : list ConsolidatedResult -> list jstring -> jstring.

(** Modelled from the spec: one task through the gateway (the execute node
    is missing).  Every attempt, retries included, increments the call
    counter by one; a transient failure is retried while retries are left,
    and the failure of the last attempt is the one recorded; any other
    failure is recorded at once. *)
Fixpoint call_backend (retries : nat) (task : SearchTask) (made : nat) : nat * Outcome :=
  match search task made with
  | Success found => (S made, Completed found)
  | Failure f =>
      if transient f then
        match retries with
        | S retries' => call_backend retries' task (S made)
        | O => (S made, Failed f)
        end
      else (S made, Failed f)
  end.

(** Modelled from the spec: a batch through the gateway; the batch result
    is what the completed calls found, with one outcome per task. *)
Fixpoint execute (batch : list SearchTask) (made : nat) : nat * list Outcome :=
  match batch with
  | [] => (made, [])
  | task :: batch' =>
      let (made1, o) := call_backend MAX_RETRIES task made in
      let (made2, os) := execute batch' made1 in
      (made2, o :: os)
  end.

Definition found_by (o : Outcome) : list RawResult :=
  match o with Completed found => found | _ => [] end.

Definition budget_left (st : AgentState) : bool :=
  Nat.ltb (iteration st) MAX_ITERATIONS && Nat.ltb (calls st) MAX_CALLS.

Definition to_scored (q : jstring) (r : RawResult) : ScoredResult :=
  mkScored (raw_system r) (raw_code r) (raw_display r) (score q r).

Definition note (s : String.string) (st : AgentState) : list jstring :=
  trace st ++ [of_string s].

(** Modelled from the spec: one transition of the state machine (the graph
    definition is missing).  PLAN truncates the planner's tasks to the
    calls that remain in the budget; PLAN and REFLECT both fall through to
    CONSOLIDATE once a budget is spent, whatever the reflector says.  These
    are the guards the specification names; EXECUTE hands the tasks to the
    gateway, which counts its attempts. *)
Definition step (st : AgentState) : AgentState :=
  match phase st with
  | CLASSIFY =>
      mkAgent (query st) PLAN (classify (query st)) (tasks st) (raw st)
              (iteration st) (calls st) (feedback st) (results st) (summary st)
              (note "classified" st)
  | PLAN =>
      if budget_left st then
        let planned := plan (intent st) (feedback st) (iteration st) in
        mkAgent (query st) EXECUTE (intent st)
                (firstn (MAX_CALLS - calls st) planned) (raw st)
                (iteration st) (calls st) (feedback st) (results st) (summary st)
                (note "planned" st)
      else
        mkAgent (query st) CONSOLIDATE (intent st) [] (raw st)
                (iteration st) (calls st) (feedback st) (results st) (summary st)
                (note "budget exhausted" st)
  | EXECUTE =>
      let (made, outcomes) := execute (tasks st) (calls st) in
      mkAgent (query st) REFLECT (intent st) [] (raw st ++ flat_map found_by outcomes)
              (S (iteration st)) made (feedback st) (results st) (summary st)
              (note "executed" st)
  | REFLECT =>
      let r := reflect (raw st) (iteration st) (calls st) in
      if stop r || negb (budget_left st) then
        mkAgent (query st) CONSOLIDATE (intent st) [] (raw st)
                (iteration st) (calls st) (strategy r) (results st) (summary st)
                (note "stopping" st)
      else
        mkAgent (query st) PLAN (intent st) [] (raw st)
                (iteration st) (calls st) (strategy r) (results st) (summary st)
                (note "refining" st)
  | CONSOLIDATE =>
      mkAgent (query st) SUMMARIZE (intent st) [] (raw st)
              (iteration st) (calls st) (feedback st)
              (consolidate similarity TOP_N (List.map (to_scored (query st)) (raw st)))
              (summary st) (note "consolidated" st)
  | SUMMARIZE =>
      mkAgent (query st) DONE (intent st) [] (raw st)
              (iteration st) (calls st) (feedback st) (results st)
              (summarize (results st) (trace st)) (note "summarized" st)
  | DONE => st
  end.

Fixpoint steps (n : nat) (st : AgentState) : AgentState :=
  match n with
  | O => st
  | S n' => steps n' (step st)
  end.

Definition start (q : jstring) : AgentState :=
  mkAgent q CLASSIFY (fun _ => 0%Q) [] [] 0 0 None [] [] [].

(** Modelled from the spec: the state a rejected empty query ends in (the
    agent entry point is missing): no transition was taken. *)
Definition rejected (q : jstring) : AgentState :=
  mkAgent q DONE (fun _ => 0%Q) [] [] 0 0 None [] NO_QUERY_PROVIDED
          [of_string "empty query rejected"].

(** Modelled from the spec: the bounded transition counter of the machine
    (the graph definition is missing): one CLASSIFY, three transitions for
    each iteration, CONSOLIDATE and SUMMARIZE. *)
Definition MAX_TRANSITIONS : nat := 1 + 3 * MAX_ITERATIONS + 2.

(** Modelled from the spec: [runSearch] (the agent entry point is missing):
    an empty query is rejected before CLASSIFY, any other runs the machine. *)
Definition runSearch (q : jstring) : AgentState :=
  if truthy q then steps MAX_TRANSITIONS (start q) else rejected q.

(** Transitions left before DONE, at most. *)
Definition distance (st : AgentState) : nat :=
  let left := MAX_ITERATIONS - iteration st in
  match phase st with
  | CLASSIFY => 1 + Nat.max (3 * left + 2) 3
  | PLAN => Nat.max (3 * left + 2) 3
  | EXECUTE => 3 * left + 1
  | REFLECT => 3 * left + 3
  | CONSOLIDATE => 2
  | SUMMARIZE => 1
  | DONE => 0
  end.

(** The iteration budget, with what the machine knows in EXECUTE: it got
    there through the guard of PLAN. *)
Definition within_iterations (st : AgentState) : Prop :=
  iteration st <= MAX_ITERATIONS
  /\ (phase st = EXECUTE -> iteration st < MAX_ITERATIONS).

(** The tasks of a batch fit the calls that remain in the budget. *)
Definition planned_within (st : AgentState) : Prop :=
  phase st = EXECUTE -> calls st + length (tasks st) <= MAX_CALLS.

(** The call counter of a machine whose gateway makes at most [k] attempts
    for a task. *)
Definition calls_within (k : nat) (st : AgentState) : Prop :=
  planned_within st /\ calls st <= k * MAX_CALLS.

(** No backend call fails with a transient failure. *)
Definition never_transient : Prop :=
  forall task made f, search task made = Failure f -> transient f = false.

(** A raw result that a backend call returned. *)
Definition returned_by_backend (r : RawResult) : Prop :=
  exists task made found, search task made = Success found /\ In r found.

(** Every raw result of the state was returned by a backend, and every
    consolidated result has the (system, code) pair of one of them. *)
Definition traced (st : AgentState) : Prop :=
  (forall r, In r (raw st) -> returned_by_backend r)
  /\ (forall c, In c (results st) ->
        exists r, In r (raw st)
                  /\ raw_system r = c_system c /\ raw_code r = c_code c).

End Run.

(** Runs to try the machine on: five or twelve tasks are planned at every
    iteration, the reflector never stops, and the backends either all
    answer or are all unavailable (an unavailable backend fails at once, so
    that no deadline is involved). *)
Definition five_tasks (i : nat) : list SearchTask :=
  List.map (fun b => mkTask b (of_string "ataxia") i)
           [Diagnosis; Medication; Lab; Supply; Unit].

Definition twelve_tasks (i : nat) : list SearchTask :=
  List.map (fun b => mkTask b (of_string "ataxia") i)
           [Diagnosis; Medication; Lab; Supply; Unit; Phenotype]
  ++ List.map (fun b => mkTask b (of_string "gait ataxia") i)
              [Diagnosis; Medication; Lab; Supply; Unit; Phenotype].

Definition answering (t : SearchTask) (made : nat) : Response :=
  Success [mkRaw (backendId t) (of_string "HP:0001251") (of_string "Ataxia")
                 0%N (searchTerm t)].

Definition unavailable (t : SearchTask) (made : nat) : Response := Failure Unavailable.

Definition demo_run (tasks_of : nat -> list SearchTask)
           (search : SearchTask -> nat -> Response) : AgentState :=
  runSearch (fun _ _ => 1%Q) (fun _ _ i => tasks_of i) search
            (fun _ _ => Q2Qc (9 # 10))
            (fun _ _ _ => mkReflection false (Some Broaden))
            (fun _ _ => None) (fun _ _ => of_string "summary")
            (of_string "ataxia").

End Orchestrator.

(** ** Further string and number operations of the front end *)

Module JSMore.
Import JS.

(** [s.includes(p)] *)
Fixpoint includes (s p : jstring) : bool :=
  startsWith s p
  || match s with
     | [] => false
     | _ :: t => includes t p
     end.

(** [lines.join(sep)] *)
Fixpoint join (sep : jstring) (l : list jstring) : jstring :=
  match l with
  | [] => []
  | [x] => x
  | x :: t => x ++ sep ++ join sep t
  end.

(** A string that neither starts nor ends with white space. *)
Definition head_ok (s : jstring) : Prop :=
  match s with
  | [] => True
  | c :: _ => is_space c = false
  end.

Definition trimmed (s : jstring) : Prop := head_ok s /\ head_ok (rev s).

(** A value that may be [undefined]. *)
Definition optional := option jstring.

(** [a || b] where both may be [undefined]: [undefined] and the empty string
    are falsy. *)
Definition or_else (a b : optional) : optional :=
  match a with
  | Some s => if truthy s then a else b
  | None => b
  end.

(** [a || ''] *)
Definition or_empty (a : optional) : jstring :=
  match a with
  | Some s => s
  | None => []
  end.

(** [`${a}`]: an [undefined] value prints as the word. *)
Definition template (a : optional) : jstring :=
  match a with
  | Some s => s
  | None => of_string "undefined"
  end.

End JSMore.

(** ** The rest of the result card ([CodeResultCard.tsx]) *)

Module ResultCard.
Import JS JSMore Regex Parser.

(** [ConfidenceBar]: [pct = Math.round(confidence * 100)] *)
Definition pct (confidence : Number.double) : Number.double :=
  Number.Math_round (Number.mul confidence Number.hundred).

(** The test of the last statement of the loop body of [parseCodeResults],
    without its [!inResults] conjunct. *)
Definition summary_line (line : jstring) : bool :=
  truthy (trim line)
  && negb (startsWith line (of_string "---"))
  && negb (startsWith line (of_string "*Searched:")).

(** The state of the loop before the first header: only the summary has
    been written. *)
Definition before_headers (sm : jstring) : pstate :=
  mkPState [] [] [] sm false None.

(** The names of the header lines of a text, in order. *)
Definition header_names (lines : list jstring) : list jstring :=
  flat_map (fun l => match systemMatch l with Some n => [n] | None => [] end) lines.

(** What the hierarchy branch may have written on a result: nothing, or the
    two captures of a hierarchy line of the text, the second one trimmed. *)
Definition parent_from (ls : list jstring) (r : CodeResult) : Prop :=
  (parentCode r = None /\ parentDisplay r = None)
  \/ exists l pc pd, In l ls /\ parentMatch l = Some (pc, pd)
                     /\ parentCode r = Some pc /\ parentDisplay r = Some (trim pd).

(** The map holds, under [k], a result with this code, display and
    confidence. *)
Definition holds (k c d : jstring) (q : Number.double) (st : pstate) : Prop :=
  exists refs a r,
    map_get k (systems st) = Some refs /\ In a refs
    /\ nth_error (heap st) a = Some r
    /\ code r = c /\ display r = d /\ confidence r = q /\ system r = k.

(** [l] is a line under the last header that names [sys]: like
    [under_header], and no later line is a header of that name. *)
Definition under_last (ls : list jstring) (sys l : jstring) : Prop :=
  exists pre h mid post,
    ls = pre ++ h :: mid ++ l :: post
    /\ systemMatch h = Some sys /\ Forall no_header mid
    /\ Forall (fun x => systemMatch x <> Some sys) post.

Definition listed_last (ls : list jstring) (sys : jstring) (r : CodeResult) : Prop :=
  exists l, under_last ls sys l /\ from_line sys l r.

(** Every address the map holds under a name denotes a result listed under
    the last header of that name. *)
Definition last_refs (ls : list jstring) (st : pstate) : Prop :=
  forall k refs a,
    map_get k (systems st) = Some refs -> In a refs ->
    exists r, nth_error (heap st) a = Some r /\ listed_last ls k r.

End ResultCard.

(** ** The message views ([Message.tsx], [HistoricalMessage.tsx]) *)

Module MessageView.
Import JS JSMore Regex Parser.

(** The leftmost match together with its start index, for [match[0]]. *)
Fixpoint find_from (r : regex) (p : nat) (w : jstring) : option (nat * mstate) :=
  match rmatch r (MState p w []) Some with
  | Some m => Some (p, m)
  | None =>
      match w with
      | [] => None
      | _ :: t => find_from r (S p) t
      end
  end.

(** [s.match(r)[0]], or [null] *)
Definition match0 (r : regex) (s : jstring) : option jstring :=
  match find_from r 0 s with
  | Some (i, m) => Some (firstn (pos m - i) (skipn i s))
  | None => None
  end.

(** [isThinkingBlock] *)
Definition isThinkingBlock (content : jstring) : bool :=
  startsWith content (of_string "Found")
  && includes content (of_string "How we found these:").

(** [/^Found (\d+) results?/] *)
Definition foundRe : regex :=
  rseq [ Bol; rlit "Found "; Group 1 (rplus true is_digit);
         rlit " result"; ropt (rlit "s") ].

(** [extractResultCount] *)
Definition extractResultCount (content : jstring) : option jstring :=
  match0 foundRe content.

(** The four branches of the two components. *)
Inductive View : Type := UserView | ResultsView | ThinkingView | MarkdownView.

(** [Message]: [containsResults = !isUser && hasCodeResults(content)]; the
    results branch comes before the thinking branch. *)
Definition message_view (isUser : bool) (content : jstring) : View :=
  let isThinking := negb isUser && isThinkingBlock content in
  let containsResults := negb isUser && hasCodeResults content in
  if isUser then UserView
  else if containsResults then ResultsView
  else if isThinking then ThinkingView
  else MarkdownView.

(** [HistoricalMessage]:
    [containsResults = !isUser && !isThinking && hasCodeResults(content)]. *)
Definition historical_view (isUser : bool) (content : jstring) : View :=
  let isThinking := negb isUser && isThinkingBlock content in
  let containsResults := negb isUser && negb isThinking && hasCodeResults content in
  if isUser then UserView
  else if containsResults then ResultsView
  else if isThinking then ThinkingView
  else MarkdownView.

End MessageView.

(** ** The steps of a conversation ([MessageList.tsx], [useChatHistorySync]) *)

Module Steps.
Import JS JSMore Regex Parser.

(** An [IStep] of the chat client, with the fields the front end reads;
    [output] and [steps] may be absent. *)
#[warnings="-register-all"]
Inductive IStep : Type :=
| Step (id name type : jstring) (output : optional) (steps : option (list IStep)).

Definition step_id (s : IStep) : jstring := match s with Step i _ _ _ _ => i end.
Definition step_name (s : IStep) : jstring := match s with Step _ n _ _ _ => n end.
Definition step_type (s : IStep) : jstring := match s with Step _ _ t _ _ => t end.
Definition step_output (s : IStep) : optional := match s with Step _ _ _ o _ => o end.
Definition step_steps (s : IStep) : option (list IStep) :=
  match s with Step _ _ _ _ l => l end.

(** [step.output && step.output.trim()] *)
Definition has_output (s : IStep) : bool :=
  match step_output s with
  | Some o => truthy o && truthy (trim o)
  | None => false
  end.

(** [flattenSteps] and [flattenAllSteps], one step of the loop: the step
    itself when it has output, then its nested steps flattened. *)
Fixpoint flatten_step (s : IStep) : list IStep :=
  match s with
  | Step _ _ _ _ sub =>
      (if has_output s then [s] else [])
      ++ match sub with
         | Some l => if Nat.ltb 0 (length l) then flat_map flatten_step l else []
         | None => []
         end
  end.

Definition flattenSteps (steps : list IStep) : list IStep :=
  flat_map flatten_step steps.

(** All the steps of a tree, the root first. *)
Fixpoint nodes (s : IStep) : list IStep :=
  match s with
  | Step _ _ _ _ sub =>
      s :: match sub with
           | Some l => flat_map nodes l
           | None => []
           end
  end.

(** [isWelcomeMessage] *)
Definition isWelcomeMessage (content : jstring) : bool :=
  includes content (of_string "What clinical code are you looking for?")
  || (includes content (of_string "Search across")
      && includes content (of_string "ICD-10-CM")).

(** [step.output?.trim() || ''] *)
Definition content_of (s : IStep) : jstring :=
  match step_output s with
  | Some o => trim o
  | None => []
  end.

(** The filter of [liveMessages] in [MessageList]. *)
Definition shown (m : IStep) : bool :=
  let content := content_of m in
  if isWelcomeMessage content then false
  else if jeqb (step_type m) (of_string "user_message") then true
  else if jeqb (step_type m) (of_string "assistant_message") && truthy content then true
  else if jeqb (step_type m) (of_string "run") && Nat.ltb 50 (length content) then true
  else if Nat.ltb 20 (length content) then true
  else false.

End Steps.

(** ** The history sync ([useChatHistorySync]) *)

Module Sync.
Import JS JSMore Regex Parser Steps.

(** The four refs of the hook: the [Set] of processed ids, the [Map] from a
    step id to the thread it was synced to, and the two flags. *)
Record refs := mkRefs {
  processedIds : list jstring;
  messageThreadMap : list (jstring * jstring);
  isSwitching : bool;
  prevThreadId : option jstring
}.

(** What the effect reads from the chat client and from the store. *)
Record inputs := mkInputs {
  messages : list IStep;
  liveThreadId : option jstring;
  threads_length : nat
}.

(** What the effect does to the outside: the timer that ends the pause,
    [createThread()], and [addMessage(thread, {role, content})]. *)
Inductive action : Type :=
| SetTimer
| CreateThread
| AddMessage (thread : jstring) (role : ChatHistory.Role) (content : jstring).

Definition initial : refs := mkRefs [] [] false None.

(** [processedIds.current.has(id)] *)
Definition processed (r : refs) (id : jstring) : bool :=
  existsb (fun x => jeqb x id) (processedIds r).

(** The role under which the loop stores a step, if it stores it: a user
    message with content, or a step of more than 20 characters that is not
    the welcome message. *)
Definition sync_role (s : IStep) : option ChatHistory.Role :=
  let content := content_of s in
  if jeqb (step_type s) (of_string "user_message") && truthy content
  then Some ChatHistory.user
  else if isWelcomeMessage content then None
  else if Nat.ltb 20 (length content) then Some ChatHistory.assistant
  else None.

(** One iteration of [for (const step of allSteps)]. *)
Definition sync_step (live : jstring) (st : refs * list action) (s : IStep)
  : refs * list action :=
  let (r, acts) := st in
  if processed r (step_id s) then st
  else
    let assigned := map_get (step_id s) (messageThreadMap r) in
    if match assigned with
       | Some t => truthy t && negb (jeqb t live)
       | None => false
       end
    then st
    else
      let content := content_of s in
      if jeqb (step_type s) (of_string "user_message") && truthy content then
        (mkRefs (processedIds r ++ [step_id s])
                (map_set (step_id s) live (messageThreadMap r))
                (isSwitching r) (prevThreadId r),
         acts ++ [AddMessage live ChatHistory.user content])
      else if isWelcomeMessage content then
        (mkRefs (processedIds r ++ [step_id s]) (messageThreadMap r)
                (isSwitching r) (prevThreadId r),
         acts)
      else if Nat.ltb 20 (length content) then
        (mkRefs (processedIds r ++ [step_id s])
                (map_set (step_id s) live (messageThreadMap r))
                (isSwitching r) (prevThreadId r),
         acts ++ [AddMessage live ChatHistory.assistant content])
      else st.

(** [prevThreadId.current !== null && prevThreadId.current !== liveThreadId] *)
Definition switched (r : refs) (live : option jstring) : bool :=
  match prevThreadId r, live with
  | None, _ => false
  | Some p, Some l => negb (jeqb p l)
  | Some _, None => true
  end.

(** The body of the effect. *)
Definition effect (r : refs) (i : inputs) : refs * list action :=
  if switched r (liveThreadId i) then
    (mkRefs (processedIds r) (messageThreadMap r) true (liveThreadId i), [SetTimer])
  else
    let r1 := mkRefs (processedIds r) (messageThreadMap r) (isSwitching r)
                     (liveThreadId i) in
    if isSwitching r1 then (r1, [])
    else
      match liveThreadId i with
      | Some live =>
          if truthy live then
            fold_left (sync_step live) (flattenSteps (messages i)) (r1, [])
          else if Nat.eqb (threads_length i) 0 then (r1, [CreateThread])
          else (r1, [])
      | None =>
          if Nat.eqb (threads_length i) 0 then (r1, [CreateThread]) else (r1, [])
      end.

(** The callback of the timer, [resetTracking] and [pauseSync]. *)
Definition timer_fired (r : refs) : refs :=
  mkRefs (processedIds r) (messageThreadMap r) false (prevThreadId r).

Definition resetTracking (r : refs) : refs := mkRefs [] [] false None.

Definition pauseSync (r : refs) : refs :=
  mkRefs (processedIds r) (messageThreadMap r) true (prevThreadId r).

(** A step the loop passes over without touching the refs: it was processed
    before, or it was synced to another thread, or it is neither a user
    message with content, nor the welcome message, nor longer than 20. *)
Definition settled (live : jstring) (r : refs) (s : IStep) : Prop :=
  processed r (step_id s) = true
  \/ (exists t, map_get (step_id s) (messageThreadMap r) = Some t
                /\ truthy t = true /\ jeqb t live = false)
  \/ (sync_role s = None /\ isWelcomeMessage (content_of s) = false).

(** The thread a step is assigned to, if any, does not stand in the way of
    syncing it to [live]. *)
Definition assignable (live : jstring) (r : refs) (s : IStep) : Prop :=
  forall t, map_get (step_id s) (messageThreadMap r) = Some t -> t = [] \/ t = live.

(** What a run of the loop from [r] to [r'] has done for a call of
    [addMessage]: the call stores the content of one of the [steps] under the
    live thread, the step was not processed before and is processed now, and
    the map remembers the live thread for it. *)
Definition synced_by (live : jstring) (r r' : refs) (steps : list IStep)
           (act : action) : Prop :=
  exists s role,
    In s steps
    /\ act = AddMessage live role (content_of s)
    /\ sync_role s = Some role
    /\ processed r (step_id s) = false
    /\ assignable live r s
    /\ processed r' (step_id s) = true
    /\ map_get (step_id s) (messageThreadMap r') = Some live.

End Sync.

(** ** The rest of the chat history store ([chatHistoryStore.ts]) *)

Module ChatHistoryMore.
Import JS JSMore ChatHistory.

(** The class [[*#`]]. *)
Definition is_markup (c : N) : bool := ((c =? 42) || (c =? 35) || (c =? 96))%N.

(** [generateThreadName] *)
Definition generateThreadName (content : jstring) : jstring :=
  let cleaned := trim (filter (fun c => negb (is_markup c)) content) in
  if Nat.leb (length cleaned) 30 then cleaned
  else firstn 27 cleaned ++ of_string "...".

(** [===] between two values of type [string | null]. *)
Definition same_id (a b : option jstring) : bool :=
  match a, b with
  | Some x, Some y => jeqb x y
  | None, None => true
  | _, _ => false
  end.

Definition role_eqb (a b : Role) : bool :=
  match a, b with
  | user, user | assistant, assistant => true
  | _, _ => false
  end.

(** [threads.find((t) => t.id === i)] *)
Definition find_thread (i : jstring) (ts : list ChatThread) : option ChatThread :=
  find (fun t => jeqb (id t) i) ts.

Definition selectThread (i : jstring) (st : ChatHistoryState) : ChatHistoryState :=
  mkState (threads st) (Some i) (Some i) (isOpen st).

Definition selectLiveThread (st : ChatHistoryState) : ChatHistoryState :=
  match liveThreadId st with
  | Some l =>
      if truthy l then mkState (threads st) (Some l) (liveThreadId st) (isOpen st)
      else st
  | None => st
  end.

(** [renameThread]; the time from [new Date().toISOString()] is an input. *)
Definition renameThread (i new_name now : jstring) (st : ChatHistoryState)
  : ChatHistoryState :=
  mkState
    (List.map (fun t => if jeqb (id t) i
                        then mkChatThread (id t) new_name (createdAt t) now (messages t)
                        else t)
              (threads st))
    (currentThreadId st) (liveThreadId st) (isOpen st).

Definition getCurrentThread (st : ChatHistoryState) : option ChatThread :=
  match currentThreadId st with
  | Some c => if truthy c then find_thread c (threads st) else None
  | None => None
  end.

Definition getLiveThread (st : ChatHistoryState) : option ChatThread :=
  match liveThreadId st with
  | Some l => if truthy l then find_thread l (threads st) else None
  | None => None
  end.

Definition isViewingLive (st : ChatHistoryState) : bool :=
  same_id (currentThreadId st) (liveThreadId st).

(** [!id && threads.length > 0 ? threads[0].id : id] *)
Definition or_first (o : option jstring) (ts : list ChatThread) : option jstring :=
  let falsy := match o with Some i => negb (truthy i) | None => true end in
  match ts with
  | t :: _ => if falsy then Some (id t) else o
  | [] => o
  end.

(** [migrate] *)
Definition migrate (version : nat) (st : ChatHistoryState) : ChatHistoryState :=
  if Nat.eqb version 0 then
    mkState (threads st)
            (or_first (currentThreadId st) (threads st))
            (or_first (liveThreadId st) (threads st))
            (isOpen st)
  else st.

(** [canCreateNewChat] of the sidebar. *)
Definition canCreateNewChat (st : ChatHistoryState) : bool :=
  match getCurrentThread st with
  | Some t => Nat.ltb 0 (length (messages t))
  | None => true
  end.

(** [handleSubmitRename] of a thread item of the sidebar: the store is
    called with the trimmed name, and only when that is not empty. *)
Definition handleSubmitRename (i editName now : jstring) (st : ChatHistoryState)
  : ChatHistoryState :=
  if truthy (trim editName) then renameThread i (trim editName) now st else st.

Section Clock.

(** [new Date(s).getTime()]: the time value of a date string, [None] when it
    is not a date ([NaN]). *)
Variable time_of : jstring -> option Z.

(** [new Date(now).getTime() - new Date(m.timestamp).getTime() < 2000];
    a comparison with [NaN] is false. *)
Definition recent (now : jstring) (m : ChatMessage) : bool :=
  match time_of now, time_of (timestamp m) with
  | Some a, Some b => (a - b <? 2000)%Z
  | _, _ => false
  end.

(** [addMessage]; the identifier from [generateMessageId()] and the time
    from [new Date().toISOString()] are inputs. *)
Definition addMessage (threadId : jstring) (r : Role) (c : jstring)
           (new_id now : jstring) (st : ChatHistoryState) : ChatHistoryState :=
  match find_thread threadId (threads st) with
  | None => st
  | Some thread =>
      let recentMessages :=
        filter (fun m => role_eqb (role m) r && jeqb (content m) c && recent now m)
               (messages thread) in
      if Nat.ltb 0 (length recentMessages) then st
      else
        let fullMessage := mkChatMessage new_id r c now in
        let hasUserMessage :=
          existsb (fun m => role_eqb (role m) user) (messages thread) in
        let updatedName :=
          if negb hasUserMessage && role_eqb r user
             && jeqb (name thread) (of_string "New conversation")
          then generateThreadName c
          else name thread in
        let updatedThread :=
          mkChatThread (id thread) updatedName (createdAt thread) now
                       (messages thread ++ [fullMessage]) in
        mkState (List.map (fun t => if jeqb (id t) threadId then updatedThread else t)
                          (threads st))
                (currentThreadId st) (liveThreadId st) (isOpen st)
  end.

(** The group of a thread in [groupThreadsByTime]; [today] is the time value
    of the local midnight.  A comparison with an invalid date is false. *)
Definition group_of (today : Z) (t : ChatThread) : jstring :=
  match time_of (updatedAt t) with
  | Some d =>
      if (today <=? d)%Z then of_string "Today"
      else if (today - 24 * 60 * 60 * 1000 <=? d)%Z then of_string "Yesterday"
      else if (today - 7 * 24 * 60 * 60 * 1000 <=? d)%Z then of_string "Previous 7 Days"
      else of_string "Older"
  | None => of_string "Older"
  end.

(** [groups.get(group) || []] *)
Definition group_get (g : jstring) (groups : list (jstring * list ChatThread))
  : list ChatThread :=
  match Parser.map_get g groups with
  | Some ts => ts
  | None => []
  end.

(** [groupThreadsByTime] *)
Definition groupThreadsByTime (today : Z) (ts : list ChatThread)
  : list (jstring * list ChatThread) :=
  fold_left (fun groups t =>
               let g := group_of today t in
               Parser.map_set g (group_get g groups ++ [t]) groups)
            ts [].

(** [groupOrder] and the threads the sidebar lists, group by group. *)
Definition groupOrder : list jstring :=
  [of_string "Today"; of_string "Yesterday"; of_string "Previous 7 Days";
   of_string "Older"].

Definition sidebar_threads (today : Z) (ts : list ChatThread) : list ChatThread :=
  flat_map (fun g => group_get g (groupThreadsByTime today ts)) groupOrder.

End Clock.

(** [selection] points at nothing or at a thread of the list. *)
Definition points_at (ts : list ChatThread) (o : option jstring) : Prop :=
  o = None \/ exists t, In t ts /\ o = Some (id t).

Definition toggleOpen (st : ChatHistoryState) : ChatHistoryState :=
  mkState (threads st) (currentThreadId st) (liveThreadId st) (negb (isOpen st)).

Definition setOpen (open : bool) (st : ChatHistoryState) : ChatHistoryState :=
  mkState (threads st) (currentThreadId st) (liveThreadId st) open.

(** All the actions of the store, with the identifiers and times they draw
    as arguments, and the states they reach. *)
Inductive store_action : Type :=
| DoCreate (new_id now : jstring)
| DoSelect (i : jstring)
| DoSelectLive
| DoDelete (i : jstring)
| DoRename (i new_name now : jstring)
| DoAddMessage (threadId : jstring) (r : Role) (c : jstring) (new_id now : jstring)
| DoToggleOpen
| DoSetOpen (open : bool).

Section Store.

Variable time_of : jstring -> option Z.

Definition store_apply (st : ChatHistoryState) (a : store_action) : ChatHistoryState :=
  match a with
  | DoCreate new_id now => createThread new_id now st
  | DoSelect i => selectThread i st
  | DoSelectLive => selectLiveThread st
  | DoDelete i => deleteThread i st
  | DoRename i new_name now => renameThread i new_name now st
  | DoAddMessage threadId r c new_id now => addMessage time_of threadId r c new_id now st
  | DoToggleOpen => toggleOpen st
  | DoSetOpen open => setOpen open st
  end.

Definition store_run (acts : list store_action) : ChatHistoryState :=
  fold_left store_apply acts initial.

End Store.

End ChatHistoryMore.

(** ** The bundle: export and the buttons that fill it
    ([bundleStore.ts], [CodeResultCard.tsx], [ActionButton.tsx]) *)

Module BundleMore.
Import JS JSMore BundleStore.

(** The [replace] of [exportBundleToCSV]: every double quote of the
    display (code 34) is doubled. *)
Definition escape_quotes (s : jstring) : jstring :=
  flat_map (fun c => if (c =? 34)%N then [34%N; 34%N] else [c]) s.

(** The third field of a row: the escaped display between double quotes. *)
Definition quote_field (s : jstring) : jstring :=
  [34%N] ++ escape_quotes s ++ [34%N].

Definition csv_header : jstring :=
  join [44%N] [of_string "System"; of_string "Code"; of_string "Display"].

Definition csv_row (item : BundleItem) : jstring :=
  join [44%N] [system item; code item; quote_field (display item)].

(** [exportBundleToCSV]: the text handed to the [Blob], [None] when the
    function returns before it builds one.  The name of the file, which
    depends on the clock only, is left out. *)
Definition exportBundleToCSV (items : list BundleItem) : option jstring :=
  if Nat.eqb (length items) 0 then None
  else Some (join [10%N] (csv_header :: List.map csv_row items)).

Definition no_line_feed (s : jstring) : Prop := Forall (fun c => c <> 10%N) s.

(** What the card reads and writes: the bundle store and the messages
    handed to [addToast]. *)
Record card_env := mkCardEnv {
  bundle : BundleState;
  toasts : list (jstring * jstring)
}.

(** [handleAddToBundle] of [CodeResultCard] *)
Definition handleAddToBundle (r : Parser.CodeResult) (e : card_env) : card_env :=
  let isInBundle := hasItem (Parser.code r) (Parser.system r) (bundle e) in
  if negb isInBundle then
    mkCardEnv
      (addItem (mkBundleItem (Parser.system r) (Parser.code r) (Parser.display r))
               (bundle e))
      (toasts e ++ [(of_string "Added " ++ Parser.code r ++ of_string " to bundle",
                     of_string "success")])
  else e.

(** [handleRemove] of [BundleItem] *)
Definition handleRemove (item : BundleItem) (st : BundleState) : BundleState :=
  removeItem (code item) (system item) st.

End BundleMore.

(** ** The action button ([ActionButton.tsx]) *)

Module ActionButton.
Import JS JSMore BundleStore InputArea.

(** [interface ActionPayload]: every field may be missing. *)
Record ActionPayload := mkPayload {
  p_type : optional;
  p_system : optional;
  p_code : optional;
  p_display : optional;
  p_query : optional
}.

(** [action.payload || {}] *)
Definition empty_payload : ActionPayload := mkPayload None None None None None.

Record IAction := mkAction {
  a_name : jstring;
  a_payload : option ActionPayload
}.

(** What a click can reach: the bundle store, [sendMessage] and the
    console. *)
Record client := mkClient {
  bundle : BundleState;
  sent : list UserMessage;
  unhandled : nat
}.

(** [followupType === s] *)
Definition is_type (t : optional) (s : String.string) : bool :=
  match t with
  | Some x => jeqb x (of_string s)
  | None => false
  end.

(** The [query] of a followup. *)
Definition followup_query (p : ActionPayload) : jstring :=
  if is_type (p_type p) "meds_for_diagnosis" then
    of_string "medications to treat " ++ template (or_else (p_display p) (p_code p))
  else if is_type (p_type p) "other_strengths" then
    of_string "other dosages and forms of "
    ++ template (or_else (p_display p) (p_query p))
  else if is_type (p_type p) "diagnosis_for_drug" then
    of_string "diagnosis codes for patients on "
    ++ template (or_else (p_display p) (p_query p))
  else if is_type (p_type p) "loinc_unit" then
    of_string "measurement unit for " ++ template (or_else (p_display p) (p_query p))
  else if is_type (p_type p) "hcpcs_diagnosis" then
    of_string "ICD-10 diagnosis codes related to " ++ template (p_code p)
  else [].

Definition known_types : list jstring :=
  [of_string "meds_for_diagnosis"; of_string "other_strengths";
   of_string "diagnosis_for_drug"; of_string "loinc_unit";
   of_string "hcpcs_diagnosis"].

Definition is_known (t : optional) : bool :=
  match t with
  | Some x => existsb (jeqb x) known_types
  | None => false
  end.

(** [handleClick] *)
Definition handleClick (a : IAction) (st : client) : client :=
  let payload := match a_payload a with Some p => p | None => empty_payload end in
  if jeqb (a_name a) (of_string "add_to_bundle") then
    mkClient (addItem (mkBundleItem (or_empty (p_system payload))
                                    (or_empty (p_code payload))
                                    (or_empty (p_display payload)))
                      (bundle st))
             (sent st) (unhandled st)
  else if jeqb (a_name a) (of_string "followup")
          && truthy (followup_query payload) then
    mkClient (bundle st)
             (sent st ++ [mkUserMessage (of_string "User") (of_string "user_message")
                                        (followup_query payload)])
             (unhandled st)
  else mkClient (bundle st) (sent st) (S (unhandled st)).

(** [isInBundle], which disables the button. *)
Definition isInBundle (a : IAction) (st : client) : bool :=
  let payload := match a_payload a with Some p => p | None => empty_payload end in
  jeqb (a_name a) (of_string "add_to_bundle")
  && hasItem (or_empty (p_code payload)) (or_empty (p_system payload)) (bundle st).

End ActionButton.

(** ** The actions under a message ([Message.tsx]) *)

Module MessageActions.
Import JS JSMore ActionButton.

(** [payload?.type === s] for a payload that may be missing. *)
Definition payload_type_is (a : IAction) (s : String.string) : bool :=
  match a_payload a with
  | Some p => is_type (p_type p) s
  | None => false
  end.

(** The predicate of [filteredActions]. *)
Definition shown_action (a : IAction) : bool :=
  if jeqb (a_name a) (of_string "add_to_bundle") then false
  else if jeqb (a_name a) (of_string "export_csv") then false
  else if jeqb (a_name a) (of_string "followup")
          && payload_type_is a "check_billable" then false
  else true.

(** [filteredActions]: the actions that get an [ActionButton]. *)
Definition filteredActions (actions : list IAction) : list IAction :=
  filter shown_action actions.

End MessageActions.

(** ** The events of the input area ([InputArea.tsx]) *)

Module InputEvents.
Import JS JSMore InputArea.

(** [handleKeyDown] *)
Definition handleKeyDown (key : jstring) (shiftKey : bool) (st : component)
  : component :=
  if jeqb key (of_string "Enter") && negb shiftKey then handleSubmit st else st.

(** What happens to the component: typing ([setInput]), the two handlers,
    and the [loading] flag changing under it. *)
Inductive event : Type :=
| SetInput (s : jstring)
| Submit
| KeyDown (key : jstring) (shiftKey : bool)
| SetLoading (b : bool).

Definition handle (st : component) (e : event) : component :=
  match e with
  | SetInput s => mkComponent s (loading st) (sent st)
  | Submit => handleSubmit st
  | KeyDown key shiftKey => handleKeyDown key shiftKey st
  | SetLoading b => mkComponent (input st) b (sent st)
  end.

Definition mounted : component := mkComponent [] false [].

Definition run_events (es : list event) : component := fold_left handle es mounted.

(** A message as the input area sends it. *)
Definition well_formed (m : UserMessage) : Prop :=
  m_name m = of_string "User" /\ m_type m = of_string "user_message"
  /\ m_output m <> [] /\ trimmed (m_output m).

End InputEvents.

(** * Properties *)

(** ** The matcher against the declarative reading of a pattern *)

Module RegexFacts.
Import JS Regex.

Lemma star_match_sound g cls w p c k res :
  star_match g cls w p c k = Some res ->
  exists u t, w = u ++ t /\ Forall (fun x => cls x = true) u
              /\ k (MState (p + length u) t c) = Some res.
Proof.
  revert p. induction w as [|x w IH]; intros p H; simpl in H.
  - exists [], []. rewrite Nat.add_0_r. auto.
  - destruct (cls x) eqn:Hx.
    + assert (Hrec :
        star_match g cls w (S p) c k = Some res ->
        exists u t, x :: w = u ++ t /\ Forall (fun y => cls y = true) u
                    /\ k (MState (p + length u) t c) = Some res).
      { intros Hr. destruct (IH _ Hr) as (u & t & -> & Hu & Hk).
        exists (x :: u), t. simpl. rewrite Nat.add_succ_r.
        repeat split; auto. }
      assert (Hhere :
        k (MState p (x :: w) c) = Some res ->
        exists u t, x :: w = u ++ t /\ Forall (fun y => cls y = true) u
                    /\ k (MState (p + length u) t c) = Some res).
      { intros Hk. exists [], (x :: w). rewrite Nat.add_0_r. auto. }
      destruct g.
      * destruct (star_match true cls w (S p) c k) eqn:Hr.
        -- apply Hrec. congruence.
        -- auto.
      * destruct (k (MState p (x :: w) c)) eqn:Hk.
        -- apply Hhere. congruence.
        -- auto.
    + exists [], (x :: w). rewrite Nat.add_0_r. auto.
Qed.

Lemma star_match_complete g cls u : forall t p c k res,
  Forall (fun x => cls x = true) u ->
  k (MState (p + length u) t c) = Some res ->
  exists res', star_match g cls (u ++ t) p c k = Some res'.
Proof.
  induction u as [|x u IH]; intros t p c k res Hu Hk; simpl in *.
  - rewrite Nat.add_0_r in Hk. destruct t as [|y t]; simpl.
    + eauto.
    + destruct (cls y); [|eauto]. destruct g.
      * destruct (star_match true cls t (S p) c k); eauto.
      * rewrite Hk. eauto.
  - inversion Hu as [|? ? Hx Hu']; subst. rewrite Hx.
    rewrite Nat.add_succ_r in Hk.
    destruct (IH t (S p) c k res Hu' Hk) as (res' & Hres').
    destruct g.
    + rewrite Hres'. eauto.
    + destruct (k (MState p (x :: u ++ t) c)); eauto.
Qed.

Lemma rmatch_sound r : forall st k res,
  rmatch r st k = Some res ->
  exists st', sem r st st' /\ k st' = Some res.
Proof.
  induction r as [|cls|a IHa b IHb|a IHa b IHb|g cls|i a IHa| |];
    intros st k res H; simpl in H.
  - exists st. split; [constructor|assumption].
  - destruct st as [p w c]; simpl in H. destruct w as [|x t]; [discriminate|].
    destruct (cls x) eqn:Hx; [|discriminate].
    eexists. split; [constructor; exact Hx|exact H].
  - destruct (IHa _ _ _ H) as (st1 & H1 & Hk1).
    destruct (IHb _ _ _ Hk1) as (st2 & H2 & Hk2).
    exists st2. split; [econstructor; eassumption|assumption].
  - destruct (rmatch a st k) eqn:Ha.
    + inversion H; subst. destruct (IHa _ _ _ Ha) as (st1 & H1 & Hk1).
      exists st1. split; [apply sem_alt_l|]; assumption.
    + destruct (IHb _ _ _ H) as (st1 & H1 & Hk1).
      exists st1. split; [apply sem_alt_r|]; assumption.
  - destruct st as [p w c]; simpl in H.
    destruct (star_match_sound _ _ _ _ _ _ H) as (u & t & -> & Hu & Hk).
    eexists. split; [apply sem_star; exact Hu|exact Hk].
  - destruct (IHa _ _ _ H) as (st1 & H1 & Hk1).
    eexists. split; [apply sem_group; exact H1|exact Hk1].
  - destruct (Nat.eqb (pos st) 0) eqn:Hp; [|discriminate].
    exists st. split; [constructor; apply Nat.eqb_eq; exact Hp|assumption].
  - destruct (rest st) eqn:Hr; [|discriminate].
    exists st. split; [constructor; exact Hr|assumption].
Qed.

Lemma rmatch_complete r st st' :
  sem r st st' ->
  forall k res, k st' = Some res -> exists res', rmatch r st k = Some res'.
Proof.
  induction 1 as [st|cls p x t c Hx|a b st1 st2 st3 _ IHa _ IHb
                 |a b st st' _ IH|a b st st' _ IH|g cls p w t c Hw
                 |i a st st' _ IH|st Hp|st Hr];
    intros k res Hk; simpl.
  - eauto.
  - rewrite Hx. eauto.
  - destruct (IHb _ _ Hk) as (r1 & Hr1).
    exact (IHa (fun s => rmatch b s k) _ Hr1).
  - destruct (IH _ _ Hk) as (r1 & ->). eauto.
  - destruct (rmatch a st k); [eauto|]. exact (IH _ _ Hk).
  - eapply star_match_complete; eassumption.
  - exact (IH (fun s => k (MState (pos s) (rest s)
                  ((i, consumed (rest st) (rest s)) :: caps s))) _ Hk).
  - rewrite Hp. simpl. eauto.
  - rewrite Hr. eauto.
Qed.

(** A run consumes a prefix of what was left and advances by its length. *)
Lemma sem_consumes r st st' :
  sem r st st' ->
  exists w, rest st = w ++ rest st' /\ pos st' = pos st + length w.
Proof.
  induction 1; simpl.
  - exists []. simpl. auto.
  - exists [x]. simpl. split; [reflexivity|lia].
  - destruct IHsem1 as (w1 & E1 & P1). destruct IHsem2 as (w2 & E2 & P2).
    exists (w1 ++ w2). rewrite E1, E2, P2, P1, length_app, <- app_assoc.
    split; [reflexivity|lia].
  - assumption.
  - assumption.
  - exists w. auto.
  - assumption.
  - exists []. simpl. auto.
  - exists []. simpl. auto.
Qed.

Lemma consumed_app w t : consumed (w ++ t) t = w.
Proof.
  unfold consumed. rewrite length_app, Nat.add_sub.
  rewrite firstn_app, Nat.sub_diag, firstn_all. simpl. apply app_nil_r.
Qed.

(** The leftmost search returns a run of the pattern from some start index,
    and finds one as soon as one exists anywhere. *)
Lemma search_from_sound r : forall w p m,
  search_from r p w = Some m ->
  exists a b, w = a ++ b /\ sem r (MState (p + length a) b []) m.
Proof.
  induction w as [|x w IH]; intros p m H; simpl in H.
  - destruct (rmatch r (MState p [] []) Some) eqn:E; [|discriminate].
    inversion H; subst. destruct (rmatch_sound _ _ _ E) as (st' & Hs & Hk).
    inversion Hk; subst. exists [], []. simpl. rewrite Nat.add_0_r. auto.
  - destruct (rmatch r (MState p (x :: w) []) Some) eqn:E.
    + inversion H; subst. destruct (rmatch_sound _ _ _ E) as (st' & Hs & Hk).
      inversion Hk; subst. exists [], (x :: w). simpl. rewrite Nat.add_0_r. auto.
    + destruct (IH _ _ H) as (a & b & -> & Hs).
      exists (x :: a), b. simpl. rewrite Nat.add_succ_r. auto.
Qed.

Lemma search_from_complete r a : forall b p m,
  sem r (MState (p + length a) b []) m ->
  exists m', search_from r p (a ++ b) = Some m'.
Proof.
  induction a as [|x a IH]; intros b p m Hs; simpl in *.
  - rewrite Nat.add_0_r in Hs.
    destruct (rmatch_complete Hs Some eq_refl) as (m' & Hm').
    destruct b; simpl; rewrite Hm'; eauto.
  - destruct (rmatch r (MState p (x :: a ++ b) []) Some); [eauto|].
    apply (IH b (S p) m). rewrite Nat.add_succ_r in Hs. exact Hs.
Qed.

(** More precisely, it returns what the matcher finds at the first start
    index where it finds anything. *)
Lemma search_from_leftmost r : forall w p m,
  search_from r p w = Some m ->
  exists a b, w = a ++ b
    /\ rmatch r (MState (p + length a) b []) Some = Some m
    /\ (forall a1 a2, a = a1 ++ a2 -> a2 <> [] ->
          rmatch r (MState (p + length a1) (a2 ++ b) []) Some = None).
Proof.
  induction w as [|x w IH]; intros p m H; simpl in H.
  - destruct (rmatch r (MState p [] []) Some) eqn:E; [|discriminate].
    exists [], []. simpl. rewrite Nat.add_0_r. split; [reflexivity|].
    split; [congruence|].
    intros a1 a2 Ea Hne. symmetry in Ea. apply app_eq_nil in Ea.
    destruct Ea as (_ & Ea). contradiction.
  - destruct (rmatch r (MState p (x :: w) []) Some) eqn:E.
    + exists [], (x :: w). simpl. rewrite Nat.add_0_r. split; [reflexivity|].
      split; [congruence|].
      intros a1 a2 Ea Hne. symmetry in Ea. apply app_eq_nil in Ea.
      destruct Ea as (_ & Ea). contradiction.
    + destruct (IH _ _ H) as (a & b & -> & Hm & Hleft).
      exists (x :: a), b. simpl. rewrite Nat.add_succ_r.
      split; [reflexivity|]. split; [exact Hm|].
      intros [|y a1] a2 Ea Hne; simpl in Ea.
      * subst a2. simpl. rewrite Nat.add_0_r. exact E.
      * inversion Ea; subst. simpl. rewrite Nat.add_succ_r.
        apply Hleft; [reflexivity|exact Hne].
Qed.

Lemma search_from_none r : forall w p,
  search_from r p w = None ->
  forall a b, w = a ++ b -> rmatch r (MState (p + length a) b []) Some = None.
Proof.
  induction w as [|x w IH]; intros p H a b E; simpl in H.
  - symmetry in E. apply app_eq_nil in E. destruct E as (-> & ->).
    simpl. rewrite Nat.add_0_r.
    destruct (rmatch r (MState p [] []) Some); [discriminate|reflexivity].
  - destruct (rmatch r (MState p (x :: w) []) Some) eqn:Em; [discriminate|].
    destruct a as [|y a]; simpl in E.
    + subst b. simpl. rewrite Nat.add_0_r. exact Em.
    + inversion E; subst. simpl. rewrite Nat.add_succ_r.
      apply (IH (S p) H a b eq_refl).
Qed.

(** Dropping the start anchor and the groups, a run can be replayed at any
    offset and in front of any further text. *)
Lemma sem_strip r st st' :
  sem r st st' -> no_eol r = true ->
  forall n x d, exists d',
    sem (strip r) (MState (pos st + n) (rest st ++ x) d)
                  (MState (pos st' + n) (rest st' ++ x) d').
Proof.
  induction 1 as [st|cls p y t c Hy|a b st1 st2 st3 _ IHa _ IHb
                 |a b st st' _ IH|a b st st' _ IH|g cls p w t c Hw
                 |i a st st' _ IH|st Hp|st Hr];
    intros Hne n x d; simpl in *.
  - exists d. constructor.
  - exists d. constructor. exact Hy.
  - apply andb_prop in Hne. destruct Hne as [Ha Hb].
    destruct (IHa Ha n x d) as (d1 & H1).
    destruct (IHb Hb n x d1) as (d2 & H2).
    exists d2. econstructor; eassumption.
  - apply andb_prop in Hne. destruct Hne as [Ha Hb].
    destruct (IH Ha n x d) as (d1 & H1). exists d1. apply sem_alt_l. exact H1.
  - apply andb_prop in Hne. destruct Hne as [Ha Hb].
    destruct (IH Hb n x d) as (d1 & H1). exists d1. apply sem_alt_r. exact H1.
  - exists d. rewrite <- app_assoc.
    replace (p + length w + n) with (p + n + length w) by lia.
    constructor. exact Hw.
  - exact (IH Hne n x d).
  - exists d. constructor.
  - discriminate.
Qed.

End RegexFacts.

(** ** Numbers *)

Module NumberFacts.
Import JS Number.

Lemma same_eq x y : same x y = true -> x = y.
Proof.
  destruct x as [s|s| |s m e], y as [s'|s'| |s' m' e']; simpl; try discriminate;
    try (intros H; apply eqb_prop in H; congruence); [reflexivity|].
  intros H. apply andb_prop in H. destruct H as (H & He).
  apply andb_prop in H. destruct H as (Hs & Hm).
  apply eqb_prop in Hs. apply Pos.eqb_eq in Hm. apply Z.eqb_eq in He. congruence.
Qed.

(** The literal [0.5] is the quotient of 1 by 2. *)
Example half_quotient : half = div one (of_Z 2).
Proof. vm_compute. reflexivity. Qed.

(** *** Rounding keeps the sign *)

Lemma shr_1_nonneg mrs : (0 <= shr_m mrs)%Z -> (0 <= shr_m (shr_1 mrs))%Z.
Proof.
  destruct mrs as [m r s]. simpl.
  destruct m as [|p|p]; simpl; try lia; destruct p; simpl; lia.
Qed.

Lemma iter_pos_inv (A : Type) (P : A -> Prop) (f : A -> A) :
  (forall x, P x -> P (f x)) -> forall n x, P x -> P (iter_pos f n x).
Proof.
  intros Hf. induction n as [n IH|n IH|]; intros x Hx; simpl; auto.
Qed.

Lemma shr_nonneg mrs e n : (0 <= shr_m mrs)%Z -> (0 <= shr_m (fst (shr mrs e n)))%Z.
Proof.
  intros H. destruct n; simpl; auto.
  apply (iter_pos_inv (fun x => (0 <= shr_m x)%Z)); [apply shr_1_nonneg|exact H].
Qed.

Lemma shr_fexp_nonneg m e l :
  (0 <= m)%Z -> (0 <= shr_m (fst (shr_fexp prec emax m e l)))%Z.
Proof.
  intros H. unfold shr_fexp. apply shr_nonneg.
  destruct l as [|[| |]]; simpl; exact H.
Qed.

Lemma round_nearest_even_nonneg m l : (0 <= m)%Z -> (0 <= round_nearest_even m l)%Z.
Proof.
  intros H. destruct l as [|[| |]]; simpl; try lia.
  destruct (Z.even m); lia.
Qed.

(** Rounding a non-negative mantissa gives a zero, a finite Number or an
    infinity of the sign it was given, never NaN. *)
Lemma binary_round_aux_signed s m e l :
  (0 <= m)%Z -> signed s (binary_round_aux prec emax s m e l).
Proof.
  intros H. unfold binary_round_aux.
  pose proof (shr_fexp_nonneg e l H) as H1.
  destruct (shr_fexp prec emax m e l) as [mrs' e'].
  simpl in H1.
  pose proof (@shr_fexp_nonneg (round_nearest_even (shr_m mrs') (loc_of_shr_record mrs'))
                e' loc_Exact (round_nearest_even_nonneg _ H1)) as H2.
  destruct (shr_fexp prec emax _ e' loc_Exact) as [mrs'' e''].
  simpl in H2.
  destruct (shr_m mrs'') as [|p|p]; [exact eq_refl| |lia].
  destruct (e'' <=? emax - prec)%Z; exact eq_refl.
Qed.

Lemma of_Z_signed z : (0 <= z)%Z -> signed false (of_Z z).
Proof.
  intros H. unfold of_Z, binary_normalize. destruct z as [|p|p]; [exact eq_refl| |lia].
  unfold binary_round.
  destruct (shl_align p 0 _) as [mz ez]. apply binary_round_aux_signed. lia.
Qed.

Lemma div_hundred_signed x : signed false x -> signed false (div x hundred).
Proof.
  intros H. change hundred with (S754_finite false 7036874417766400 (-46)).
  destruct x as [s|s| |s m e]; simpl in H; try contradiction; subst; try exact eq_refl.
  unfold div, SFdiv.
  set (my := 7036874417766400%positive). set (ey := (-46)%Z).
  unfold SFdiv_core_binary.
  set (m' := match (e - ey - _)%Z with Zpos _ => _ | Z0 => _ | Zneg _ => _ end).
  assert (Hm : (0 <= m')%Z).
  { unfold m'. destruct (e - ey - _)%Z; try lia. apply Z.shiftl_nonneg. lia. }
  pose proof (Z.div_pos m' (Zpos my) Hm ltac:(lia)) as Hq.
  unfold Z.div in Hq.
  destruct (Z.div_eucl m' (Z.pos my)) as [q r].
  apply binary_round_aux_signed. exact Hq.
Qed.

Lemma signed_leb_zero x : signed false x -> leb zero x = true.
Proof.
  destruct x as [s|s| |s m e]; simpl; intros H; try contradiction; subst; reflexivity.
Qed.

(** The quotient by 100 of what [parseInt] reads is not NaN and not
    negative, however long the run of digits. *)
Lemma percent_signed ds : signed false (div (parseInt10 ds) hundred).
Proof. apply div_hundred_signed, of_Z_signed. lia. Qed.

(** *** Percentages up to 1000, by evaluation *)

Lemma table_lookup (f : nat -> bool) (n : nat) (p : N) :
  forallb f (seq 0 (S n)) = true -> (p <= N.of_nat n)%N -> f (N.to_nat p) = true.
Proof.
  intros H Hp. rewrite forallb_forall in H. apply H, in_seq. lia.
Qed.

Lemma percent_le_one_table :
  forallb (fun p => Bool.eqb (leb (percent (N.of_nat p)) one) (Nat.leb p 100))
          (seq 0 1001) = true.
Proof. vm_compute. reflexivity. Qed.

Lemma percent_round_table :
  forallb (fun p => same (Math_round (mul (percent (N.of_nat p)) hundred))
                         (of_Z (Z.of_nat p)))
          (seq 0 1001) = true.
Proof. vm_compute. reflexivity. Qed.

(** [P / 100 <= 1] exactly when [P <= 100]. *)
Lemma percent_le_one p :
  (p <= 1000)%N -> leb (percent p) one = (p <=? 100)%N.
Proof.
  intros Hp.
  pose proof (@table_lookup _ 1000 p percent_le_one_table Hp) as H.
  cbv beta in H. rewrite N2Nat.id in H. apply eqb_prop in H. rewrite H.
  destruct (N.leb_spec p 100) as [Hle|Hgt].
  - apply Nat.leb_le. lia.
  - apply Nat.leb_gt. lia.
Qed.

(** [Math.round(P / 100 * 100)] is [P]. *)
Lemma percent_round p :
  (p <= 1000)%N -> Math_round (mul (percent p) hundred) = of_Z (Z.of_N p).
Proof.
  intros Hp.
  pose proof (@table_lookup _ 1000 p percent_round_table Hp) as H.
  cbv beta in H. rewrite N2Nat.id, N_nat_Z in H. apply same_eq, H.
Qed.

(** Past 2^53 not every integer is a Number: [parseInt] reads
    9007199254740993 as 9007199254740992. *)
Example parseInt10_rounds :
  parseInt10 (of_string "9007199254740993") = of_Z 9007199254740992.
Proof. vm_compute. reflexivity. Qed.

End NumberFacts.

(** ** The parser *)

Module ParserFacts.
Import JS Regex RegexFacts Parser.

(** *** Inversion of runs, pattern by pattern *)

Lemma sem_seq_inv a b st st' :
  sem (Seq a b) st st' -> exists st1, sem a st st1 /\ sem b st1 st'.
Proof. inversion 1; subst; eauto. Qed.

Lemma sem_eps_inv st st' : sem Eps st st' -> st' = st.
Proof. inversion 1; subst; auto. Qed.

Lemma sem_chr_inv cls st st' :
  sem (Chr cls) st st' ->
  exists x, cls x = true /\ rest st = x :: rest st'
            /\ pos st' = S (pos st) /\ caps st' = caps st.
Proof. inversion 1; subst; simpl; eauto. Qed.

Lemma sem_star_inv g cls st st' :
  sem (Star g cls) st st' ->
  exists w, Forall (fun x => cls x = true) w /\ rest st = w ++ rest st'
            /\ pos st' = pos st + length w /\ caps st' = caps st.
Proof. inversion 1; subst; simpl; eauto. Qed.

Lemma sem_group_inv i a st st' :
  sem (Group i a) st st' ->
  exists st1, sem a st st1 /\ rest st' = rest st1 /\ pos st' = pos st1
              /\ caps st' = (i, consumed (rest st) (rest st1)) :: caps st1.
Proof. inversion 1; subst; simpl; eauto. Qed.

Lemma sem_rplus_inv g cls st st' :
  sem (rplus g cls) st st' ->
  exists x w, cls x = true /\ Forall (fun y => cls y = true) w
              /\ rest st = (x :: w) ++ rest st' /\ caps st' = caps st.
Proof.
  unfold rplus. intros H.
  apply sem_seq_inv in H. destruct H as (st1 & H1 & H2).
  apply sem_chr_inv in H1. destruct H1 as (x & Hx & E1 & _ & C1).
  apply sem_star_inv in H2. destruct H2 as (w & Hw & E2 & _ & C2).
  exists x, w. simpl. rewrite E1, E2, C2, C1. auto.
Qed.

Lemma sem_lit_inv l : forall st st',
  sem (fold_right (fun c r => Seq (Chr (is_char c)) r) Eps l) st st' ->
  rest st = l ++ rest st' /\ caps st' = caps st.
Proof.
  induction l as [|c l IH]; intros st st' H; simpl in H.
  - apply sem_eps_inv in H. subst. auto.
  - apply sem_seq_inv in H. destruct H as (st1 & H1 & H2).
    apply sem_chr_inv in H1. destruct H1 as (x & Hx & E1 & _ & C1).
    apply IH in H2. destruct H2 as (E2 & C2).
    unfold is_char in Hx. apply N.eqb_eq in Hx. subst x.
    simpl. rewrite E1, E2, C2, C1. auto.
Qed.

Lemma sem_rlit_inv s st st' :
  sem (rlit s) st st' -> rest st = of_string s ++ rest st' /\ caps st' = caps st.
Proof. apply sem_lit_inv. Qed.

(** Splitting the run of a sequence, and the runs of its parts. *)
Ltac split_seq H s H1 :=
  apply sem_seq_inv in H; destruct H as (s & H1 & H).

Ltac end_seq H s :=
  apply sem_eps_inv in H; subst s.

(** *** The code of a result line stands between backticks in that line *)

Lemma is_not_char_spec x c : is_not_char x c = true -> c <> x.
Proof.
  unfold is_not_char. intros H E. subst.
  rewrite N.eqb_refl in H. discriminate.
Qed.

Lemma codeMatch_quoted l c :
  codeMatch l = Some c ->
  infix (quoted c) l /\ c <> [] /\ Forall (fun x => x <> 96%N) c.
Proof.
  unfold codeMatch, exec. intros H.
  destruct (search_from codeRe 0 l) as [m|] eqn:E; [|discriminate].
  apply search_from_sound in E. destruct E as (a & b & -> & Hs).
  unfold codeRe in Hs. cbn [rseq fold_right] in Hs.
  split_seq Hs s1 H1. split_seq Hs s2 H2. split_seq Hs s3 H3. end_seq Hs s3.
  apply sem_rlit_inv in H1. destruct H1 as (E1 & C1).
  apply sem_group_inv in H2. destruct H2 as (s2' & H2 & E2 & _ & C2).
  apply sem_rplus_inv in H2. destruct H2 as (x & w & Hx & Hw & E2' & _).
  apply sem_rlit_inv in H3. destruct H3 as (E3 & C3).
  simpl in E1. change (of_string "`") with [96%N] in *.
  unfold group in H. rewrite C3, C2 in H. simpl in H.
  rewrite E2', consumed_app in H. inversion H; subst c; clear H.
  split; [|split].
  - exists a, (rest m). unfold quoted.
    rewrite E1, E2', <- E2, E3. simpl. rewrite <- !app_assoc. reflexivity.
  - discriminate.
  - constructor.
    + apply is_not_char_spec. exact Hx.
    + eapply Forall_impl; [|exact Hw]. intros y. apply is_not_char_spec.
Qed.

(** *** Lines of a text are pieces of the text *)

Lemma split_lines_head s l ls :
  split_lines s = l :: ls -> exists b, s = l ++ b.
Proof.
  revert l ls. induction s as [|c t IH]; intros l ls H; simpl in H.
  - inversion H; subst. exists []. reflexivity.
  - destruct (c =? 10)%N.
    + inversion H; subst. exists (c :: t). reflexivity.
    + destruct (split_lines t) as [|l0 ls0] eqn:E.
      * inversion H; subst. exists t. reflexivity.
      * inversion H; subst. destruct (IH _ _ eq_refl) as (b & ->).
        exists b. reflexivity.
Qed.

Lemma split_lines_infix s l : In l (split_lines s) -> infix l s.
Proof.
  revert l. induction s as [|c t IH]; intros l H; simpl in H.
  - destruct H as [<-|[]]. exists [], []. reflexivity.
  - assert (Hlater : In l (split_lines t) -> infix l (c :: t)).
    { intros Hin. destruct (IH _ Hin) as (a & b & ->).
      exists (c :: a), b. reflexivity. }
    destruct (c =? 10)%N.
    + destruct H as [<-|H]; [exists [], (c :: t); reflexivity|auto].
    + destruct (split_lines t) as [|l0 ls0] eqn:E.
      * destruct H as [<-|[]]. exists [], t. reflexivity.
      * destruct H as [<-|H].
        -- destruct (split_lines_head _ E) as (b & ->).
           exists [], b. reflexivity.
        -- apply Hlater. right. exact H.
Qed.

Lemma infix_trans u v s : infix u v -> infix v s -> infix u s.
Proof.
  intros (a & b & ->) (a' & b' & ->).
  exists (a' ++ a), (b ++ b'). rewrite <- !app_assoc. reflexivity.
Qed.

(** *** The [Map] and the heap *)

Lemma jeqb_true a b : jeqb a b = true -> a = b.
Proof. unfold jeqb. destruct (jstring_eq_dec a b); [auto|discriminate]. Qed.

Lemma map_set_in V (k name : jstring) (v v0 : V) m :
  In (k, v) (map_set name v0 m) -> In (k, v) m \/ (k = name /\ v = v0).
Proof.
  induction m as [|[k' v'] m IH]; simpl.
  - intros [E|[]]. inversion E; auto.
  - destruct (jeqb k' name) eqn:Ek; simpl.
    + intros [E|H]; [|auto]. inversion E; subst. apply jeqb_true in Ek. auto.
    + intros [E|H]; [auto|]. destruct (IH H) as [H'|H']; auto.
Qed.

Lemma map_push_in k cs a refs m :
  In (k, refs) (map_push cs a m) ->
  In (k, refs) m \/ (k = cs /\ exists refs0, In (k, refs0) m /\ refs = refs0 ++ [a]).
Proof.
  induction m as [|[k' v'] m IH]; simpl.
  - intros [].
  - destruct (jeqb k' cs) eqn:Ek; simpl.
    + intros [E|H]; [|auto]. inversion E; subst. apply jeqb_true in Ek.
      right. split; [auto|]. exists v'. auto.
    + intros [E|H]; [auto|]. destruct (IH H) as [H'|(-> & v0 & Hin & ->)]; [auto|].
      right. split; [auto|]. exists v0. auto.
Qed.

Lemma heap_update_nth f h : forall a b,
  nth_error (heap_update a f h) b =
  if Nat.eqb b a then option_map f (nth_error h b) else nth_error h b.
Proof.
  induction h as [|r h IH]; intros a b; simpl.
  - destruct a, b; simpl; try reflexivity. destruct (Nat.eqb b a); reflexivity.
  - destruct a, b; simpl; try reflexivity. apply IH.
Qed.


(** *** The loop invariant *)

Lemma listed_more ls line k r : listed ls k r -> listed (ls ++ [line]) k r.
Proof.
  intros (l & (pre & h & mid & post & -> & Hh & Hmid) & Hl).
  exists l. split; [|exact Hl].
  exists pre, h, mid, (post ++ [line]). repeat split; auto.
  rewrite <- !app_assoc. simpl. rewrite <- !app_assoc. reflexivity.
Qed.

Lemma open_header_more ls line k :
  open_header ls k -> no_header line -> open_header (ls ++ [line]) k.
Proof.
  intros (pre & h & mid & -> & Hh & Hmid) Hline.
  exists pre, h, (mid ++ [line]). repeat split; auto.
  - rewrite <- app_assoc. reflexivity.
  - apply Forall_app. auto.
Qed.

Lemma open_header_line ls line k :
  open_header ls k -> under_header (ls ++ [line]) k line.
Proof.
  intros (pre & h & mid & -> & Hh & Hmid).
  exists pre, h, mid, []. repeat split; auto.
  rewrite <- app_assoc. reflexivity.
Qed.

Lemma listed_set_parent ls k pc pd r :
  listed ls k r -> listed ls k (set_parent pc pd r).
Proof. intros (l & Hu & Hl). exists l. split; [exact Hu|exact Hl]. Qed.

(** A state with the same heap, map and current system keeps the invariant
    when a line that is no header is added. *)
Lemma Inv_frame ls line st st' :
  Inv ls st -> no_header line ->
  heap st' = heap st -> systems st' = systems st ->
  currentSystem st' = currentSystem st ->
  Inv (ls ++ [line]) st'.
Proof.
  intros [Hrefs Hcur Hkeys] Hline Eh Es Ec. constructor.
  - rewrite Eh, Es. intros k refs a Hin Ha.
    destruct (Hrefs _ _ _ Hin Ha) as (r & Hn & Hl).
    exists r. split; [exact Hn|apply listed_more; exact Hl].
  - rewrite Ec. intros Hne. apply open_header_more; auto.
  - rewrite Es. intros k refs Hin. destruct (Hkeys _ _ Hin) as (h & Hh & Hm).
    exists h. split; [apply in_or_app; auto|exact Hm].
Qed.

Lemma add_summary_frame st line :
  heap (add_summary st line) = heap st
  /\ systems (add_summary st line) = systems st
  /\ currentSystem (add_summary st line) = currentSystem st.
Proof. unfold add_summary. destruct (_ && _); simpl; auto. Qed.

Lemma Inv_add_summary ls line st :
  Inv ls st -> no_header line -> Inv (ls ++ [line]) (add_summary st line).
Proof.
  intros HI Hline. destruct (add_summary_frame st line) as (Eh & Es & Ec).
  eapply Inv_frame; eauto.
Qed.

Lemma Inv_result_line ls line st :
  Inv ls st -> no_header line -> Inv (ls ++ [line]) (result_line st line).
Proof.
  intros HI Hline. unfold result_line.
  destruct (truthy (currentSystem st) && map_has (currentSystem st) (systems st)
            && startsWith (trim line) (of_string "-")) eqn:Hc;
    [|apply Inv_add_summary; assumption].
  destruct (codeMatch line) as [c|] eqn:Hcode; [|apply Inv_add_summary; assumption].
  destruct (displayMatch line) as [d|] eqn:Hdisp; [|apply Inv_add_summary; assumption].
  apply andb_prop in Hc. destruct Hc as [Hc _].
  apply andb_prop in Hc. destruct Hc as [Hcs _].
  assert (Hne : currentSystem st <> []).
  { destruct (currentSystem st); [discriminate|discriminate]. }
  destruct HI as [Hrefs Hcur Hkeys].
  assert (Hold : forall k refs a, In (k, refs) (systems st) -> In a refs ->
            exists r, nth_error (heap st ++
                        [mkCodeResult c d (confidence_of line) (currentSystem st) None None]) a
                      = Some r /\ listed (ls ++ [line]) k r).
  { intros k refs a Hin Ha. destruct (Hrefs _ _ _ Hin Ha) as (r & Hn & Hl).
    exists r. split; [|apply listed_more; exact Hl].
    rewrite nth_error_app1; [exact Hn|].
    apply nth_error_Some. congruence. }
  constructor; simpl.
  - intros k refs a Hin Ha.
    apply map_push_in in Hin. destruct Hin as [Hin|(-> & refs0 & Hin & ->)].
    + eapply Hold; eauto.
    + apply in_app_or in Ha. destruct Ha as [Ha|[<-|[]]].
      * eapply Hold; eauto.
      * eexists. split.
        -- rewrite nth_error_app2, Nat.sub_diag; [reflexivity|lia].
        -- exists line. split; [apply open_header_line; auto|].
           repeat split; auto.
  - intros _. apply open_header_more; auto.
  - intros k refs Hin.
    assert (Hk : exists refs0, In (k, refs0) (systems st)).
    { apply map_push_in in Hin. destruct Hin as [Hin|(_ & refs0 & Hin & _)]; eauto. }
    destruct Hk as (refs0 & Hin0). destruct (Hkeys _ _ Hin0) as (h & Hh & Hm).
    exists h. split; [apply in_or_app; auto|exact Hm].
Qed.

Lemma Inv_step ls line st : Inv ls st -> Inv (ls ++ [line]) (step st line).
Proof.
  intros HI. unfold step.
  destruct (systemMatch line) as [name|] eqn:Hsys.
  - destruct HI as [Hrefs Hcur Hkeys]. constructor; simpl.
    + intros k refs a Hin Ha.
      apply map_set_in in Hin. destruct Hin as [Hin|(-> & ->)]; [|destruct Ha].
      destruct (Hrefs _ _ _ Hin Ha) as (r & Hn & Hl).
      exists r. split; [exact Hn|apply listed_more; exact Hl].
    + intros _. exists ls, line, []. repeat split; auto.
    + intros k refs Hin.
      apply map_set_in in Hin. destruct Hin as [Hin|(-> & _)].
      * destruct (Hkeys _ _ Hin) as (h & Hh & Hm).
        exists h. split; [apply in_or_app; auto|exact Hm].
      * exists line. split; [apply in_or_app; simpl; auto|exact Hsys].
  - destruct (parentMatch line) as [[pc pd]|]; [|apply Inv_result_line; assumption].
    destruct (lastResult st) as [a|]; [|apply Inv_result_line; assumption].
    destruct HI as [Hrefs Hcur Hkeys]. constructor; simpl.
    + intros k refs b Hin Hb. destruct (Hrefs _ _ _ Hin Hb) as (r & Hn & Hl).
      rewrite heap_update_nth, Hn. destruct (Nat.eqb b a); simpl.
      * eexists. split; [reflexivity|].
        apply listed_set_parent, listed_more. exact Hl.
      * exists r. split; [reflexivity|apply listed_more; exact Hl].
    + intros Hne. apply open_header_more; auto.
    + intros k refs Hin. destruct (Hkeys _ _ Hin) as (h & Hh & Hm).
      exists h. split; [apply in_or_app; auto|exact Hm].
Qed.

Lemma Inv_run lines : forall ls st, Inv ls st -> Inv (ls ++ lines) (run lines st).
Proof.
  induction lines as [|line lines IH]; intros ls st HI; simpl.
  - rewrite app_nil_r. exact HI.
  - replace (ls ++ line :: lines) with ((ls ++ [line]) ++ lines)
      by (rewrite <- app_assoc; reflexivity).
    apply IH, Inv_step, HI.
Qed.

Lemma Inv_init : Inv [] init.
Proof.
  constructor; simpl.
  - intros k refs a [].
  - intros H. destruct H. reflexivity.
  - intros k refs [].
Qed.

(** Every object of the returned map is listed in the text. *)
Lemma parse_listed s sys rs r :
  In (sys, rs) (p_systems (parseCodeResults s)) -> In r rs ->
  listed (split_lines s) sys r.
Proof.
  unfold parseCodeResults. simpl. intros Hin Hr.
  pose proof (Inv_run (split_lines s) Inv_init) as HI. simpl in HI.
  apply in_map_iff in Hin. destruct Hin as ([k refs] & E & Hin).
  simpl in E. inversion E; subst; clear E.
  unfold deref in Hr. apply in_flat_map in Hr. destruct Hr as (a & Ha & Hr).
  destruct (inv_refs HI _ _ _ Hin Ha) as (r' & Hn & Hl).
  rewrite Hn in Hr. destruct Hr as [<-|[]]. exact Hl.
Qed.

Lemma parse_keys s sys rs :
  In (sys, rs) (p_systems (parseCodeResults s)) ->
  exists h, In h (split_lines s) /\ systemMatch h = Some sys.
Proof.
  unfold parseCodeResults. simpl. intros Hin.
  pose proof (Inv_run (split_lines s) Inv_init) as HI. simpl in HI.
  apply in_map_iff in Hin. destruct Hin as ([k refs] & E & Hin).
  simpl in E. inversion E; subst; clear E.
  exact (inv_keys HI _ _ Hin).
Qed.

(** *** The parser on a sample message *)

Example parse_sample_systems :
  List.map (fun kv => (fst kv, List.map code (snd kv)))
           (p_systems (parseCodeResults sample))
  = [ (of_string "ICD-10-CM", [of_string "E11.9"; of_string "E10"]);
      (of_string "LOINC", [of_string "4548-4"]) ].
Proof. vm_compute. reflexivity. Qed.

Example parse_sample_parent :
  List.map (fun kv => List.map parentCode (snd kv))
           (p_systems (parseCodeResults sample))
  = [ [Some (of_string "E11"); None]; [None] ].
Proof. vm_compute. reflexivity. Qed.

Example parse_sample_summary :
  p_summary (parseCodeResults sample) = of_string "Found codes for diabetes.".
Proof. vm_compute. reflexivity. Qed.

(** *** No fabricated codes *)

(** C1.  Every code the parser returns is in the text it was given: a
    [CodeResult] filed under the key [sys] carries [sys] as its system, and
    its code stands between two backticks on a line of the input whose
    nearest header line above, [### sys (N results)], names that same
    system; so the code, with its backticks, is a piece of the input. *)
Theorem parse_no_fabricated_codes (s sys : jstring) (rs : list CodeResult) (r : CodeResult) :
  In (sys, rs) (p_systems (parseCodeResults s)) -> In r rs ->
  system r = sys
  /\ code r <> []
  /\ infix (quoted (code r)) s
  /\ exists l, under_header (split_lines s) sys l
               /\ codeMatch l = Some (code r)
               /\ infix (quoted (code r)) l.
Proof.
  intros Hin Hr.
  destruct (parse_listed _ _ _ _ Hin Hr) as (l & Hu & Hsys & Hcode & _ & _).
  destruct (codeMatch_quoted _ Hcode) as (Hq & Hne & _).
  assert (Hl : In l (split_lines s)).
  { destruct Hu as (pre & h & mid & post & E & _). rewrite E.
    apply in_or_app. right. right. apply in_or_app. right. left. reflexivity. }
  repeat split; auto.
  - eapply infix_trans; [exact Hq|apply split_lines_infix; exact Hl].
  - exists l. auto.
Qed.

Lemma parse_no_fabricated_codes_witness :
  let r := mkCodeResult (of_string "4548-4") (of_string "Hemoglobin A1c")
                        (Number.percent 150) (of_string "LOINC") None None in
  system r = of_string "LOINC"
  /\ code r <> []
  /\ infix (quoted (code r)) sample
  /\ exists l, under_header (split_lines sample) (of_string "LOINC") l
               /\ codeMatch l = Some (code r)
               /\ infix (quoted (code r)) l.
Proof.
  intro r.
  apply (@parse_no_fabricated_codes sample (of_string "LOINC") [r] r).
  - vm_compute. right. left. reflexivity.
  - left. reflexivity.
Defined.

(** *** Confidence of a parsed result *)

Lemma pctRe_sem st m :
  sem pctRe st m ->
  exists ds t, ds <> [] /\ Forall (fun x => is_digit x = true) ds
               /\ rest st = ds ++ [37%N] ++ t
               /\ group 1 m = Some ds.
Proof.
  unfold pctRe. cbn [rseq fold_right]. intros Hs.
  split_seq Hs s1 H1. split_seq Hs s2 H2. end_seq Hs s2.
  apply sem_group_inv in H1. destruct H1 as (s1' & H1 & E1 & _ & C1).
  apply sem_rplus_inv in H1. destruct H1 as (x & w & Hx & Hw & E1' & _).
  apply sem_rlit_inv in H2. destruct H2 as (E2 & C2).
  change (of_string "%") with [37%N] in *.
  exists (x :: w), (rest m). unfold group. rewrite C2, C1. cbn [lookup_cap Nat.eqb].
  rewrite E1', consumed_app, <- E1, E2.
  repeat split; auto. discriminate.
Qed.

Lemma pctRe_run p ds t :
  ds <> [] -> Forall (fun x => is_digit x = true) ds ->
  exists m, sem pctRe (MState p (ds ++ [37%N] ++ t) []) m.
Proof.
  intros Hne Hd. destruct ds as [|x w]; [contradiction|].
  inversion Hd as [|? ? Hx Hw]; subst.
  eexists. unfold pctRe. cbn [rseq fold_right].
  eapply sem_seq.
  - apply sem_group. unfold rplus. eapply sem_seq.
    + simpl. apply sem_chr. exact Hx.
    + apply sem_star. exact Hw.
  - cbn [pos rest caps]. eapply sem_seq; [|apply sem_eps].
    change (rlit "%") with (Seq (Chr (is_char 37%N)) Eps).
    eapply sem_seq; [|apply sem_eps]. simpl. apply sem_chr. reflexivity.
Qed.

(** The matcher succeeds on [/(\d+)%/] at a start index exactly when a
    percentage starts there. *)
Lemma percent_at_matched p w m :
  rmatch pctRe (MState p w []) Some = Some m ->
  percent_at w /\ exists ds t, ds <> [] /\ Forall (fun x => is_digit x = true) ds
                               /\ w = ds ++ [37%N] ++ t /\ group 1 m = Some ds.
Proof.
  intros H. apply rmatch_sound in H. destruct H as (st' & Hs & Hk).
  inversion Hk; subst st'.
  destruct (pctRe_sem Hs) as (ds & t & Hne & Hd & E & Hg). simpl in E.
  split; [exists ds, t; auto|exists ds, t; auto].
Qed.

Lemma percent_at_matches p w :
  percent_at w -> exists m, rmatch pctRe (MState p w []) Some = Some m.
Proof.
  intros (ds & t & Hne & Hd & ->).
  destruct (pctRe_run p t Hne Hd) as (m & Hs).
  exact (rmatch_complete Hs Some eq_refl).
Qed.

(** A run of digits before a percent sign is read in one way only. *)
Lemma digits_split ds : forall ds' t t',
  Forall (fun x => is_digit x = true) ds ->
  Forall (fun x => is_digit x = true) ds' ->
  ds ++ [37%N] ++ t = ds' ++ [37%N] ++ t' -> ds = ds' /\ t = t'.
Proof.
  induction ds as [|x ds IH]; intros [|y ds'] t t' Hd Hd' E; simpl in E.
  - inversion E. auto.
  - inversion E; subst. inversion Hd' as [|? ? Hy _]. discriminate Hy.
  - inversion E; subst. inversion Hd as [|? ? Hx _]. discriminate Hx.
  - inversion E; subst. inversion Hd; subst. inversion Hd'; subst.
    destruct (IH ds' t t') as (-> & ->); auto.
Qed.

(** Every line either holds no percentage or has a first one. *)
Lemma percent_cases l :
  (no_percent l /\ exec pctRe l = None)
  \/ (exists a ds b m, first_percent l a ds b
                       /\ exec pctRe l = Some m /\ group 1 m = Some ds).
Proof.
  destruct (exec pctRe l) as [m|] eqn:E; unfold exec in E.
  - right. apply search_from_leftmost in E.
    destruct E as (a & w & -> & Hm & Hleft). simpl in Hm.
    destruct (percent_at_matched _ _ Hm) as (_ & ds & b & Hne & Hd & -> & Hg).
    exists a, ds, b, m. split; [|auto].
    split; [reflexivity|]. split; [exact Hne|]. split; [exact Hd|].
    intros a1 a2 Ea Hne2 Hp.
    destruct (percent_at_matches (0 + length a1) Hp) as (m' & Hm').
    rewrite (Hleft a1 a2 Ea Hne2) in Hm'. discriminate.
  - left. split; [|reflexivity]. intros a b El Hp.
    destruct (percent_at_matches (0 + length a) Hp) as (m' & Hm').
    rewrite (@search_from_none _ _ _ E a b El) in Hm'. discriminate.
Qed.

(** The first percentage of a line is the only first one. *)
Lemma first_percent_unique l a ds b a' ds' b' :
  first_percent l a ds b -> first_percent l a' ds' b' ->
  a = a' /\ ds = ds' /\ b = b'.
Proof.
  intros (El & Hne & Hd & Hleft) (El' & Hne' & Hd' & Hleft').
  assert (Ea : a = a').
  { rewrite El in El'. apply app_eq_app in El'. destruct El' as (u & [(E1 & E2)|(E1 & E2)]).
    - destruct u as [|x u]; [rewrite app_nil_r in E1; exact E1|].
      exfalso. apply (Hleft a' (x :: u) E1); [discriminate|].
      rewrite <- E2. exists ds', b'. auto.
    - destruct u as [|x u]; [rewrite app_nil_r in E1; auto|].
      exfalso. apply (Hleft' a (x :: u) E1); [discriminate|].
      rewrite <- E2. exists ds, b. auto. }
  subst a'. rewrite El in El'. apply app_inv_head in El'.
  destruct (@digits_split _ _ _ _ Hd Hd' El') as (-> & ->). auto.
Qed.

Lemma no_percent_first l a ds b : no_percent l -> first_percent l a ds b -> False.
Proof.
  intros Hn (El & Hne & Hd & _). apply (Hn a _ El). exists ds, b. auto.
Qed.

(** What the parser reads as the confidence of a line. *)
Lemma confidence_of_none l : no_percent l -> confidence_of l = Number.half.
Proof.
  intros Hn. unfold confidence_of.
  destruct (percent_cases l) as [(_ & ->)|(a & ds & b & m & Hf & _)]; [reflexivity|].
  destruct (no_percent_first Hn Hf).
Qed.

Lemma confidence_of_first l a ds b :
  first_percent l a ds b ->
  confidence_of l = Number.div (Number.parseInt10 ds) Number.hundred.
Proof.
  intros Hf. unfold confidence_of.
  destruct (percent_cases l) as [(Hn & _)|(a' & ds' & b' & m & Hf' & -> & ->)].
  - destruct (no_percent_first Hn Hf).
  - destruct (first_percent_unique Hf Hf') as (_ & -> & _). reflexivity.
Qed.

Lemma confidence_of_signed l : Number.signed false (confidence_of l).
Proof.
  unfold confidence_of. destruct (exec pctRe l) as [m|]; [|exact eq_refl].
  destruct (group 1 m) as [ds|]; [|exact eq_refl].
  apply NumberFacts.percent_signed.
Qed.

(** C2, as stated, fails: the parser divides whatever number stands before
    the percent sign by 100 and does not clamp it, so [150%] gives 1.5. *)
Lemma confidence_above_one :
  ~ (forall sys rs r,
        In (sys, rs) (p_systems (parseCodeResults over_unit)) -> In r rs ->
        Number.leb Number.zero (confidence r) = true
        /\ Number.leb (confidence r) Number.one = true).
Proof.
  intros H.
  pose (r := mkCodeResult (of_string "4548-4") (of_string "Hemoglobin A1c")
                          (Number.percent 150) (of_string "LOINC") None None).
  destruct (H (of_string "LOINC") [r] r) as [_ Hle].
  - vm_compute. left. reflexivity.
  - left. reflexivity.
  - vm_compute in Hle. discriminate Hle.
Qed.

(** C2, amended.  The confidence of every parsed result is a Number that is
    not NaN and not negative.  The result was built from a line [l] under
    the header of its system, whose code and display it carries.  When [l]
    holds no percentage, the confidence is the default 0.5.  When the first
    percentage of [l] is [ds%], the confidence is the quotient by 100 of the
    Number [parseInt] reads from [ds]; for the integer P that [ds] writes,
    the quotient is at most 1 when P is at most 100, and above 1 when P is
    above 100 (and at most 1000): nothing clamps it. *)
Theorem parse_confidence (s sys : jstring) (rs : list CodeResult) (r : CodeResult) :
  In (sys, rs) (p_systems (parseCodeResults s)) -> In r rs ->
  Number.leb Number.zero (confidence r) = true
  /\ exists l, under_header (split_lines s) sys l
       /\ from_line sys l r
       /\ (no_percent l \/ exists a ds b, first_percent l a ds b)
       /\ (no_percent l -> confidence r = Number.half)
       /\ (forall a ds b, first_percent l a ds b ->
             confidence r = Number.div (Number.parseInt10 ds) Number.hundred
             /\ ((decimal ds <= 100)%N ->
                 Number.leb (confidence r) Number.one = true)
             /\ ((100 < decimal ds <= 1000)%N ->
                 Number.leb (confidence r) Number.one = false)).
Proof.
  intros Hin Hr.
  destruct (parse_listed _ _ _ _ Hin Hr) as (l & Hu & Hfrom).
  pose proof Hfrom as (_ & _ & _ & Hconf).
  split.
  { rewrite Hconf. apply NumberFacts.signed_leb_zero, confidence_of_signed. }
  exists l. split; [exact Hu|]. split; [exact Hfrom|]. split.
  { destruct (percent_cases l) as [(Hn & _)|(a & ds & b & m & Hf & _)];
      [left; exact Hn|right; exists a, ds, b; exact Hf]. }
  split.
  { intros Hn. rewrite Hconf. apply confidence_of_none, Hn. }
  intros a ds b Hf.
  assert (E : confidence r = Number.percent (decimal ds))
    by (rewrite Hconf; apply (confidence_of_first Hf)).
  split; [exact E|]. split; intros Hp; rewrite E.
  - rewrite NumberFacts.percent_le_one by lia. apply N.leb_le. exact Hp.
  - rewrite NumberFacts.percent_le_one by lia. apply N.leb_gt. lia.
Qed.

Lemma parse_confidence_witness :
  let r := mkCodeResult (of_string "4548-4") (of_string "Hemoglobin A1c")
                        (Number.percent 150) (of_string "LOINC") None None in
  Number.leb Number.zero (confidence r) = true
  /\ exists l, under_header (split_lines sample) (of_string "LOINC") l
       /\ from_line (of_string "LOINC") l r
       /\ (no_percent l \/ exists a ds b, first_percent l a ds b)
       /\ (no_percent l -> confidence r = Number.half)
       /\ (forall a ds b, first_percent l a ds b ->
             confidence r = Number.div (Number.parseInt10 ds) Number.hundred
             /\ ((decimal ds <= 100)%N ->
                 Number.leb (confidence r) Number.one = true)
             /\ ((100 < decimal ds <= 1000)%N ->
                 Number.leb (confidence r) Number.one = false)).
Proof.
  intro r.
  apply (@parse_confidence sample (of_string "LOINC") [r] r).
  - vm_compute. right. left. reflexivity.
  - left. reflexivity.
Defined.

(** *** The detector and the parser *)

Lemma strip_systemRe : strip systemRe = Seq Eps hasRe.
Proof. reflexivity. Qed.

Lemma header_line_detected s h sys :
  In h (split_lines s) -> systemMatch h = Some sys -> hasCodeResults s = true.
Proof.
  intros Hin Hm. unfold systemMatch, exec in Hm.
  destruct (search_from systemRe 0 h) as [m|] eqn:E; [|discriminate].
  apply search_from_sound in E. destruct E as (a & b & -> & Hs).
  apply split_lines_infix in Hin. destruct Hin as (pre & post & ->).
  destruct (sem_strip Hs eq_refl (length pre) post []) as (d' & Hs').
  rewrite strip_systemRe in Hs'. simpl in Hs'.
  apply sem_seq_inv in Hs'. destruct Hs' as (s0 & H0 & Hs').
  apply sem_eps_inv in H0. subst s0.
  unfold hasCodeResults, test, exec.
  replace (pre ++ (a ++ b) ++ post) with ((pre ++ a) ++ (b ++ post))
    by (rewrite <- !app_assoc; reflexivity).
  replace (length a + length pre) with (0 + length (pre ++ a)) in Hs'
    by (rewrite length_app; lia).
  destruct (search_from_complete (pre ++ a) 0 Hs') as (m' & ->). reflexivity.
Qed.

(** C10, as stated, fails: the detector has no start anchor and runs on the
    whole text, so it accepts a header that does not start its line, for
    which the parser creates no entry. *)
Lemma detector_accepts_more :
  ~ (hasCodeResults inline_header = true
     <-> p_systems (parseCodeResults inline_header) <> []).
Proof.
  intros [H _]. apply H; reflexivity.
Qed.

(** C10, amended.  Whenever the parser creates at least one system entry
    the detector accepts the text. *)
Theorem parser_implies_detector (s : jstring) :
  p_systems (parseCodeResults s) <> [] -> hasCodeResults s = true.
Proof.
  intros Hne.
  destruct (p_systems (parseCodeResults s)) as [|[sys rs] ps] eqn:E; [congruence|].
  destruct (@parse_keys s sys rs) as (h & Hh & Hm); [rewrite E; left; reflexivity|].
  eapply header_line_detected; eauto.
Qed.

Lemma parser_implies_detector_witness :
  p_systems (parseCodeResults sample) <> [] /\ hasCodeResults sample = true.
Proof.
  assert (H : p_systems (parseCodeResults sample) <> []).
  { vm_compute. discriminate. }
  split; [exact H|apply (parser_implies_detector sample H)].
Defined.
End ParserFacts.

(** ** The bundle store *)

Module BundleFacts.
Import JS BundleStore.

Lemma jeqb_iff a b : jeqb a b = true <-> a = b.
Proof. unfold jeqb. destruct (jstring_eq_dec a b); split; congruence. Qed.

Lemma matches_iff c sy i : matches c sy i = true <-> key i = (c, sy).
Proof.
  unfold matches, key. rewrite andb_true_iff, !jeqb_iff.
  split; [intros [-> ->]; reflexivity|intros E; inversion E; auto].
Qed.

Lemma existsb_matches c sy l :
  existsb (matches c sy) l = true <-> In (c, sy) (List.map key l).
Proof.
  rewrite existsb_exists, in_map_iff. split.
  - intros (i & Hi & Hm). exists i. split; [apply matches_iff; exact Hm|exact Hi].
  - intros (i & Hk & Hi). exists i. split; [exact Hi|apply matches_iff; exact Hk].
Qed.

Lemma NoDup_map_filter A B (f : A -> B) (p : A -> bool) l :
  NoDup (List.map f l) -> NoDup (List.map f (filter p l)).
Proof.
  induction l as [|x l IH]; simpl; intros H; [constructor|].
  inversion H as [|? ? Hx Hl]; subst. destruct (p x); simpl; [|auto].
  constructor; [|auto]. intros Hin. apply Hx.
  apply in_map_iff in Hin. destruct Hin as (y & E & Hy).
  apply filter_In in Hy. apply in_map_iff. exists y. tauto.
Qed.

Lemma addItem_unique item st : unique st -> unique (addItem item st).
Proof.
  unfold unique, addItem. intros H.
  destruct (existsb _ _) eqn:E; [exact H|]. simpl.
  rewrite map_app. simpl.
  apply NoDup_app; [exact H|repeat constructor; intros []|].
  intros k Hk [<-|[]]. apply existsb_matches in Hk. congruence.
Qed.

Lemma removeItem_unique c sy st : unique st -> unique (removeItem c sy st).
Proof. unfold unique, removeItem. simpl. apply NoDup_map_filter. Qed.

Lemma clear_unique st : unique (clear st).
Proof. unfold unique. simpl. constructor. Qed.

Lemma apply_unique st a : unique st -> unique (apply st a).
Proof.
  destruct a; simpl; intros H.
  - apply addItem_unique, H.
  - apply removeItem_unique, H.
  - apply clear_unique.
  - exact H.
  - exact H.
Qed.

Lemma fold_unique acts : forall st, unique st -> unique (fold_left apply acts st).
Proof.
  induction acts as [|a acts IH]; intros st H; simpl; [exact H|].
  apply IH, apply_unique, H.
Qed.

Lemma addItem_present item st :
  hasItem (code item) (system item) st = true -> addItem item st = st.
Proof. unfold hasItem, addItem. intros ->. reflexivity. Qed.

Lemma hasItem_after_add item st :
  hasItem (code item) (system item) (addItem item st) = true.
Proof.
  unfold hasItem, addItem.
  destruct (existsb _ (items st)) eqn:E; [exact E|]. simpl.
  rewrite existsb_app. simpl.
  assert (Hm : matches (code item) (system item) item = true)
    by (apply matches_iff; reflexivity).
  rewrite Hm. apply orb_true_iff. right. reflexivity.
Qed.

(** C8.  In every state the store reaches from its initial state, no two
    items share their (code, system) pair; [addItem] of an item whose pair
    is present returns the state as it is, so adding the same item twice is
    adding it once; [addItem], [removeItem] and [clear] keep the pairs
    distinct; and [hasItem] answers true exactly when an item with that code
    and system is in the list. *)
Theorem bundle_unique_keys (acts : list action) (item : BundleItem) (c sy : jstring) :
  let st := run acts in
  unique st
  /\ (hasItem (code item) (system item) st = true -> addItem item st = st)
  /\ addItem item (addItem item st) = addItem item st
  /\ unique (addItem item st)
  /\ unique (removeItem c sy st)
  /\ unique (clear st)
  /\ (hasItem c sy st = true <->
      exists i, In i (items st) /\ code i = c /\ system i = sy).
Proof.
  intros st.
  assert (Hu : unique st).
  { apply fold_unique. unfold unique. simpl. constructor. }
  split; [exact Hu|].
  split; [apply addItem_present|].
  split; [apply addItem_present, hasItem_after_add|].
  split; [apply addItem_unique, Hu|].
  split; [apply removeItem_unique, Hu|].
  split; [apply clear_unique|].
  unfold hasItem. rewrite existsb_exists. split.
  - intros (i & Hi & Hm). apply matches_iff in Hm. inversion Hm. eauto.
  - intros (i & Hi & <- & <-). exists i. split; [exact Hi|].
    apply matches_iff. reflexivity.
Qed.

Lemma bundle_unique_keys_witness :
  let e11 := mkBundleItem (of_string "ICD-10-CM") (of_string "E11.9")
                          (of_string "Type 2 diabetes mellitus") in
  let st := run [AddItem e11; ToggleOpen; AddItem e11] in
  hasItem (code e11) (system e11) st = true /\ addItem e11 st = st.
Proof.
  intros e11 st.
  assert (H : hasItem (code e11) (system e11) st = true) by reflexivity.
  split; [exact H|].
  exact (proj1 (proj2 (bundle_unique_keys
                         [AddItem e11; ToggleOpen; AddItem e11] e11 [] [])) H).
Defined.

End BundleFacts.

(** ** The chat history store *)

Module ChatHistoryFacts.
Import JS ChatHistory.

Lemma jeqb_refl a : jeqb a a = true.
Proof. unfold jeqb. destruct (jstring_eq_dec a a); congruence. Qed.

Lemma jeqb_neq a b : a <> b -> jeqb a b = false.
Proof. unfold jeqb. destruct (jstring_eq_dec a b); congruence. Qed.

Lemma jeqb_eq a b : jeqb a b = true -> a = b.
Proof. unfold jeqb. destruct (jstring_eq_dec a b); congruence. Qed.

Lemma is_id_iff i o : is_id i o = true <-> o = Some i.
Proof.
  destruct o as [j|]; simpl; [|split; discriminate].
  split; [intros H; apply jeqb_eq in H; congruence|].
  intros E. inversion E. apply jeqb_refl.
Qed.

Lemma deleteThread_live i st : liveThreadId st = Some i -> deleteThread i st = st.
Proof.
  intros H. unfold deleteThread.
  destruct (is_id i (liveThreadId st)) eqn:E; [reflexivity|].
  apply is_id_iff in H. congruence.
Qed.

Lemma deleteThread_other i st :
  liveThreadId st <> Some i ->
  threads (deleteThread i st) = filter (fun t => negb (jeqb (id t) i)) (threads st)
  /\ liveThreadId (deleteThread i st) = liveThreadId st
  /\ isOpen (deleteThread i st) = isOpen st.
Proof.
  intros H. unfold deleteThread.
  destruct (is_id i (liveThreadId st)) eqn:E; [|simpl; auto].
  apply is_id_iff in E. contradiction.
Qed.

Lemma kept_iff i t : negb (jeqb (id t) i) = true <-> id t <> i.
Proof.
  rewrite negb_true_iff. split.
  - intros H E. rewrite E, jeqb_refl in H. discriminate.
  - apply jeqb_neq.
Qed.

Lemma createThread_live_exists new_id now st : live_exists (createThread new_id now st).
Proof.
  eexists new_id, _. simpl. split; [reflexivity|]. split; [left; reflexivity|reflexivity].
Qed.

Lemma deleteThread_live_exists i st : live_exists st -> live_exists (deleteThread i st).
Proof.
  intros (l & t & Hl & Ht & Hid).
  destruct (jstring_eq_dec l i) as [->|Hne].
  - rewrite deleteThread_live by exact Hl. exists i, t. auto.
  - destruct (@deleteThread_other i st) as (Eth & Elive & _); [congruence|].
    exists l, t. rewrite Elive, Eth. split; [exact Hl|]. split; [|exact Hid].
    apply filter_In. split; [exact Ht|]. apply kept_iff. congruence.
Qed.

Lemma apply_live_exists st a : live_exists st -> live_exists (apply st a).
Proof.
  destruct a; simpl; intros H.
  - apply createThread_live_exists.
  - apply deleteThread_live_exists, H.
Qed.

Lemma apply_live_ok st a : live_ok st -> live_ok (apply st a).
Proof.
  intros [Hn|He]; [|right; apply apply_live_exists, He].
  destruct a; simpl.
  - right. apply createThread_live_exists.
  - left. destruct (@deleteThread_other i st) as (_ & -> & _); [congruence|exact Hn].
Qed.

Lemma run_live_exists acts : forall st, live_exists st -> live_exists (run acts st).
Proof.
  induction acts as [|a acts IH]; intros st H; simpl; [exact H|].
  apply IH, apply_live_exists, H.
Qed.

Lemma run_live_ok acts : forall st, live_ok st -> live_ok (run acts st).
Proof.
  induction acts as [|a acts IH]; intros st H; simpl; [exact H|].
  apply IH, apply_live_ok, H.
Qed.

Lemma run_created acts : forall st,
  existsb is_create acts = true -> live_exists (run acts st).
Proof.
  induction acts as [|a acts IH]; intros st H; simpl in *; [discriminate|].
  destruct a as [new_id now|i]; simpl in *.
  - apply run_live_exists, createThread_live_exists.
  - apply IH, H.
Qed.

(** C9, as stated, fails in its last part: the store starts with
    [liveThreadId = null], and deleting a thread leaves it so; no thread
    exists that it could refer to. *)
Lemma live_thread_may_be_null :
  ~ live_exists (run [DeleteThread (of_string "thread_1")] initial).
Proof.
  intros (l & t & Hl & _). vm_compute in Hl. discriminate.
Qed.

(** C9, amended.  [deleteThread] of the live thread returns the state as it
    is; of any other identifier it removes the threads with that identifier
    and no other, keeps every remaining thread as it was, and leaves
    [liveThreadId] alone.  Hence [liveThreadId], once it is null or names an
    existing thread (as in the initial store), stays so along any sequence
    of [createThread] and [deleteThread], and it names an existing thread
    after any sequence in which a thread was created. *)
Theorem deleteThread_protects_live (st : ChatHistoryState) (i : jstring) (acts : list action) :
  (liveThreadId st = Some i -> deleteThread i st = st)
  /\ (liveThreadId st <> Some i ->
      threads (deleteThread i st) = filter (fun t => negb (jeqb (id t) i)) (threads st)
      /\ (forall t, In t (threads (deleteThread i st)) <-> In t (threads st) /\ id t <> i)
      /\ liveThreadId (deleteThread i st) = liveThreadId st)
  /\ (live_ok st -> live_ok (run acts st))
  /\ live_ok (run acts initial)
  /\ (existsb is_create acts = true -> live_exists (run acts st)).
Proof.
  split; [apply deleteThread_live|].
  split.
  { intros H. destruct (@deleteThread_other i st H) as (Eth & Elive & _).
    split; [exact Eth|]. split; [|exact Elive].
    intros t. rewrite Eth, filter_In, kept_iff. tauto. }
  split; [apply run_live_ok|].
  split; [apply run_live_ok; left; reflexivity|].
  apply run_created.
Qed.

Lemma deleteThread_protects_live_witness :
  let st := run [CreateThread (of_string "thread_1") (of_string "2025-12-18T14:30:00.000Z");
                 CreateThread (of_string "thread_2") (of_string "2025-12-18T14:31:00.000Z")]
                initial in
  liveThreadId st = Some (of_string "thread_2")
  /\ deleteThread (of_string "thread_2") st = st.
Proof.
  intros st.
  assert (H : liveThreadId st = Some (of_string "thread_2")) by reflexivity.
  split; [exact H|].
  exact (proj1 (deleteThread_protects_live st (of_string "thread_2") []) H).
Defined.

End ChatHistoryFacts.

(** ** The confidence scorer *)

Module ScoringFacts.
Import JS Scoring.

Local Open Scope Q_scope.

Section Scorer.

Variable jaccard_similarity : jstring -> jstring -> Q.
Variable embedding_similarity : jstring -> jstring -> Q.

Local Abbreviation confidence := (compute_confidence jaccard_similarity embedding_similarity).

Lemma of_N_nonneg n : 0 <= of_N n.
Proof.
  unfold of_N. change 0 with (inject_Z 0). rewrite <- Zle_Qle. lia.
Qed.

Lemma of_N_le a b : (a <= b)%N -> of_N a <= of_N b.
Proof. unfold of_N. intros H. rewrite <- Zle_Qle. lia. Qed.

Lemma rank_decay_antitone a b : (a <= b)%N -> rank_decay b <= rank_decay a.
Proof.
  intros H. unfold rank_decay.
  pose proof (of_N_nonneg a) as Ha. pose proof (of_N_le H) as Hab.
  apply Qle_shift_div_l; [lra|].
  unfold Qdiv. rewrite Qmult_1_l, Qmult_comm.
  apply Qle_shift_div_r; lra.
Qed.

Lemma compute_confidence_unfold query r :
  confidence query r ==
    jaccard_similarity query (display r) * (30 # 100)
    + rank_decay (get_rank r) * (20 # 100)
    + Qmin (len (code r) / 10) 1 * (20 # 100)
    + embedding_similarity query (display r) * (30 # 100).
Proof. unfold compute_confidence, scores, rank_decay. simpl. ring. Qed.

(** C5.  The score is the weighted sum of the four factors, lexical overlap
    0.30, rank decay [1/(1+rank*0.1)] 0.20, code specificity capped at 1
    0.20 and semantic similarity 0.30, and the four weights add up to 1. *)
Theorem compute_confidence_weighted_sum (query : jstring) (r : result) :
  confidence query r == spec_score jaccard_similarity embedding_similarity query r
  /\ weights jaccard_similarity embedding_similarity query r
     = [30 # 100; 20 # 100; 20 # 100; 30 # 100]
  /\ fold_left Qplus (weights jaccard_similarity embedding_similarity query r) 0 == 1.
Proof.
  split; [|split].
  - rewrite compute_confidence_unfold.
    unfold spec_score, lexical_overlap, semantic_similarity, code_specificity. ring.
  - reflexivity.
  - reflexivity.
Qed.

(** C6.  Of two results that differ in their backend rank only, the one
    with the smaller rank scores at least as high. *)
Theorem compute_confidence_rank_antitone (query : jstring) (r r' : result) :
  display r = display r' -> code r = code r' ->
  (get_rank r <= get_rank r')%N ->
  confidence query r' <= confidence query r.
Proof.
  intros Hd Hc Hr. rewrite !compute_confidence_unfold, Hd, Hc.
  pose proof (rank_decay_antitone Hr). lra.
Qed.

End Scorer.

Lemma compute_confidence_rank_antitone_witness :
  let jac := fun _ _ : jstring => 1 # 2 in
  let emb := fun _ _ : jstring => 3 # 4 in
  let first := mkResult (of_string "metformin 500 MG Oral Tablet") (of_string "861004") None in
  let third := mkResult (of_string "metformin 500 MG Oral Tablet") (of_string "861004") (Some 2%N) in
  (get_rank first <= get_rank third)%N
  /\ compute_confidence jac emb (of_string "metformin 500 mg") third
     <= compute_confidence jac emb (of_string "metformin 500 mg") first.
Proof.
  intros jac emb first third.
  assert (H : (get_rank first <= get_rank third)%N) by (vm_compute; discriminate).
  split; [exact H|].
  exact (@compute_confidence_rank_antitone jac emb (of_string "metformin 500 mg")
           first third eq_refl eq_refl H).
Defined.

End ScoringFacts.

(** ** The consolidator *)

Module ConsolidatorFacts.
Import JS Consolidator.

Local Unset Implicit Arguments.

(** *** Three-way comparisons *)

Section ComparisonFacts.

Context {A : Type} (cmp : A -> A -> comparison) `{!Comparison cmp}.

Lemma cmp_refl x : cmp x x = Eq.
Proof.
  pose proof (cmp_sym (cmp := cmp) x x) as H. destruct (cmp x x); simpl in H; congruence.
Qed.

Lemma cmp_eq_r x y z : cmp y z = Eq -> cmp x y = cmp x z.
Proof.
  intros H. rewrite (cmp_sym (cmp := cmp) y x), (cmp_sym (cmp := cmp) z x). f_equal.
  symmetry. apply cmp_eq_l. rewrite (cmp_sym (cmp := cmp) y z), H. reflexivity.
Qed.

Lemma cmp_le_trans x y z : cmp x y <> Gt -> cmp y z <> Gt -> cmp x z <> Gt.
Proof.
  intros Hxy Hyz.
  destruct (cmp x y) eqn:Exy; [| |congruence].
  - rewrite (cmp_eq_l _ _ z Exy). exact Hyz.
  - destruct (cmp y z) eqn:Eyz; [| |congruence].
    + rewrite <- (cmp_eq_r x _ _ Eyz), Exy. discriminate.
    + rewrite (cmp_lt_trans _ _ _ Exy Eyz). discriminate.
Qed.

Lemma cmp_total x y : cmp x y <> Gt \/ cmp y x <> Gt.
Proof.
  rewrite (cmp_sym (cmp := cmp) x y). destruct (cmp x y); simpl;
    [left|left|right]; discriminate.
Qed.

Lemma cmp_le_antisym x y : cmp x y <> Gt -> cmp y x <> Gt -> cmp x y = Eq.
Proof.
  rewrite (cmp_sym (cmp := cmp) x y). destruct (cmp x y); simpl; congruence.
Qed.

End ComparisonFacts.

Lemma N_Comparison : Comparison N.compare.
Proof.
  constructor.
  - intros x y. apply N.compare_antisym.
  - intros x y z H. apply N.compare_eq_iff in H. subst. reflexivity.
  - intros x y z. rewrite !N.compare_lt_iff. apply N.lt_trans.
Qed.

Lemma nat_Comparison : Comparison Nat.compare.
Proof.
  constructor.
  - intros x y. apply Nat.compare_antisym.
  - intros x y z H. apply Nat.compare_eq_iff in H. subst. reflexivity.
  - intros x y z. rewrite !Nat.compare_lt_iff. apply Nat.lt_trans.
Qed.

Lemma Qc_Comparison : Comparison Qccompare.
Proof.
  constructor.
  - intros x y. unfold Qccompare. symmetry. apply Qcompare_antisym.
  - intros x y z H. apply Qceq_alt in H. subst. reflexivity.
  - intros x y z. rewrite <- !Qclt_alt. apply Qclt_trans.
Qed.

Lemma on_Comparison {A B} (f : A -> B) (cmp : B -> B -> comparison) :
  Comparison cmp -> Comparison (fun x y => cmp (f x) (f y)).
Proof.
  intros C. constructor.
  - intros x y. apply (cmp_sym (cmp := cmp)).
  - intros x y z. apply (cmp_eq_l (cmp := cmp)).
  - intros x y z. apply (cmp_lt_trans (cmp := cmp)).
Qed.

Lemma flip_Comparison {A} (cmp : A -> A -> comparison) :
  Comparison cmp -> Comparison (fun x y => cmp y x).
Proof.
  intros C. constructor.
  - intros x y. apply (cmp_sym (cmp := cmp)).
  - intros x y z H. apply (cmp_eq_r cmp).
    rewrite (cmp_sym (cmp := cmp) y x), H. reflexivity.
  - intros x y z H1 H2. exact (cmp_lt_trans (cmp := cmp) _ _ _ H2 H1).
Qed.

Lemma lex_Comparison {A} (c1 c2 : A -> A -> comparison) :
  Comparison c1 -> Comparison c2 ->
  Comparison (fun x y => lex (c1 x y) (c2 x y)).
Proof.
  intros C1 C2. constructor.
  - intros x y. rewrite (cmp_sym (cmp := c1) x y), (cmp_sym (cmp := c2) x y).
    destruct (c1 x y); reflexivity.
  - intros x y z H.
    destruct (c1 x y) eqn:E1; simpl in H; try discriminate.
    rewrite (cmp_eq_l (cmp := c1) _ _ z E1), (cmp_eq_l (cmp := c2) _ _ z H).
    reflexivity.
  - intros x y z Hxy Hyz.
    destruct (c1 x y) eqn:Exy; simpl in Hxy; try discriminate.
    + rewrite (cmp_eq_l (cmp := c1) _ _ z Exy).
      destruct (c1 y z) eqn:Eyz; simpl in *; try discriminate; [|reflexivity].
      exact (cmp_lt_trans (cmp := c2) _ _ _ Hxy Hyz).
    + destruct (c1 y z) eqn:Eyz; simpl in Hyz; try discriminate.
      * rewrite <- (cmp_eq_r c1 x _ _ Eyz), Exy. reflexivity.
      * rewrite (cmp_lt_trans (cmp := c1) _ _ _ Exy Eyz). reflexivity.
Qed.

Lemma compare_string_eq a : forall b, compare_string a b = Eq -> a = b.
Proof.
  induction a as [|x a IH]; intros [|y b] H; simpl in H; try discriminate; auto.
  destruct (N.compare x y) eqn:E; simpl in H; try discriminate.
  apply N.compare_eq_iff in E. f_equal; auto.
Qed.

Lemma string_Comparison : Comparison compare_string.
Proof.
  constructor.
  - intros a. induction a as [|x a IH]; intros [|y b]; simpl; auto.
    rewrite IH, (N.compare_antisym x y). destruct (N.compare x y); reflexivity.
  - intros a b c H. apply compare_string_eq in H. subst. reflexivity.
  - intros a. induction a as [|x a IH]; intros [|y b] [|z c] Hab Hbc;
      simpl in *; try discriminate; auto.
    destruct (N.compare x y) eqn:Exy; simpl in Hab; try discriminate.
    + apply N.compare_eq_iff in Exy. subst y.
      destruct (N.compare x z); simpl in *; try discriminate; eauto.
    + destruct (N.compare y z) eqn:Eyz; simpl in Hbc; try discriminate.
      * apply N.compare_eq_iff in Eyz. subst z. rewrite Exy. reflexivity.
      * rewrite (@cmp_lt_trans _ N.compare N_Comparison _ _ _ Exy Eyz). reflexivity.
Qed.

Lemma rank_Comparison : Comparison rank_compare.
Proof.
  unfold rank_compare, compare_confidence, compare_system, compare_code.
  apply lex_Comparison.
  - apply (flip_Comparison (fun a b => Qccompare (confidence a) (confidence b))).
    apply (on_Comparison confidence Qccompare). exact Qc_Comparison.
  - apply lex_Comparison.
    + apply (on_Comparison (fun a => priority (system a)) Nat.compare).
      exact nat_Comparison.
    + apply (on_Comparison code compare_string). exact string_Comparison.
Qed.

(** *** The ranking order is a total preorder on results, and a total order
    on results that its keys tell apart *)

Lemma priority_inj s t : priority s = priority t -> s = t.
Proof. destruct s, t; simpl; intros H; try discriminate; reflexivity. Qed.

Lemma rank_compare_eq a b :
  rank_compare a b = Eq ->
  system a = system b /\ code a = code b /\ confidence a = confidence b.
Proof.
  unfold rank_compare, compare_confidence, compare_system, compare_code. intros H.
  destruct (Qccompare (confidence b) (confidence a)) eqn:E1; simpl in H; try discriminate.
  destruct (Nat.compare (priority (system a)) (priority (system b))) eqn:E2;
    simpl in H; try discriminate.
  apply Qceq_alt in E1. apply Nat.compare_eq_iff, priority_inj in E2.
  apply compare_string_eq in H. auto.
Qed.

Lemma told_apart_incl l l' :
  (forall x, In x l' -> In x l) -> told_apart l -> told_apart l'.
Proof. intros Hin H a b Ha Hb. apply H; auto. Qed.

Lemma ranks_before_iff a b : ranks_before a b = true <-> rank_compare a b <> Gt.
Proof.
  unfold ranks_before. destruct (rank_compare a b); split; congruence.
Qed.

Lemma ranks_before_total a b : ranks_before a b = true \/ ranks_before b a = true.
Proof. rewrite !ranks_before_iff. apply (@cmp_total _ rank_compare rank_Comparison). Qed.

Lemma ranks_before_trans a b c :
  ranks_before a b = true -> ranks_before b c = true -> ranks_before a c = true.
Proof. rewrite !ranks_before_iff. apply (@cmp_le_trans _ rank_compare rank_Comparison). Qed.

Lemma ranks_before_antisym l a b :
  told_apart l -> In a l -> In b l ->
  ranks_before a b = true -> ranks_before b a = true -> a = b.
Proof.
  rewrite !ranks_before_iff. intros Hl Ha Hb H1 H2.
  destruct (rank_compare_eq a b) as (Hs & Hc & Hq).
  - exact (@cmp_le_antisym _ rank_compare rank_Comparison _ _ H1 H2).
  - apply Hl; assumption.
Qed.

Lemma ranks_before_refl a : ranks_before a a = true.
Proof. destruct (ranks_before_total a a); assumption. Qed.

(** *** Sorting into ranking order *)

Lemma insert_perm x l : Permutation (insert x l) (x :: l).
Proof.
  induction l as [|y t IH]; simpl; [reflexivity|].
  destruct (ranks_before x y); [reflexivity|].
  rewrite IH. apply perm_swap.
Qed.

Lemma insert_ranked x l : ranked l -> ranked (insert x l).
Proof.
  induction 1 as [|y t Hy Ht IH]; simpl.
  - constructor; constructor.
  - destruct (ranks_before x y) eqn:E.
    + constructor; [|constructor; assumption].
      constructor; [exact E|].
      eapply Forall_impl; [|exact Hy]. intros z. apply ranks_before_trans, E.
    + constructor; [|exact IH].
      apply (Permutation_Forall (Permutation_sym (insert_perm x t))).
      constructor; [|exact Hy].
      destruct (ranks_before_total x y); congruence.
Qed.

Lemma rank_sort_perm l : Permutation (rank_sort l) l.
Proof.
  induction l as [|x l IH]; simpl; [reflexivity|].
  rewrite insert_perm, IH. reflexivity.
Qed.

Lemma rank_sort_ranked l : ranked (rank_sort l).
Proof.
  induction l as [|x l IH]; simpl; [constructor|apply insert_ranked, IH].
Qed.

Lemma ranked_head_first x l y : ranked (x :: l) -> In y (x :: l) -> ranks_before x y = true.
Proof.
  intros H [<-|Hin]; [apply ranks_before_refl|].
  inversion H as [|? ? Hall _]; subst.
  rewrite Forall_forall in Hall. auto.
Qed.

(** A set of results that the keys tell apart has one ranking. *)
Lemma ranked_unique l : forall l',
  told_apart l -> ranked l -> ranked l' -> Permutation l l' -> l = l'.
Proof.
  induction l as [|x t IH]; intros l' Ha Hl Hl' Hp.
  - apply Permutation_nil in Hp. congruence.
  - destruct l' as [|y t'].
    + apply Permutation_sym, Permutation_nil in Hp. discriminate.
    + assert (Hy : In y (x :: t))
        by (apply (Permutation_in _ (Permutation_sym Hp)); left; reflexivity).
      assert (x = y).
      { apply (ranks_before_antisym (x :: t)); [exact Ha|left; reflexivity|exact Hy| |].
        - apply (ranked_head_first _ _ _ Hl). exact Hy.
        - apply (ranked_head_first _ _ _ Hl').
          apply (Permutation_in _ Hp). left. reflexivity. }
      subst y. f_equal. apply IH.
      * apply (told_apart_incl (x :: t)); [intros z Hz; right; exact Hz|exact Ha].
      * inversion Hl; assumption.
      * inversion Hl'; assumption.
      * eapply Permutation_cons_inv. exact Hp.
Qed.

Lemma rank_sort_permutation l l' :
  told_apart l -> Permutation l l' -> rank_sort l = rank_sort l'.
Proof.
  intros Ha Hp. apply ranked_unique; try apply rank_sort_ranked.
  - apply (told_apart_incl l); [|exact Ha].
    intros x. apply Permutation_in, rank_sort_perm.
  - rewrite !rank_sort_perm. exact Hp.
Qed.

(** *** Exact duplicates *)

Lemma same_key_refl x : same_key x x = true.
Proof.
  unfold same_key, system_eqb, jeqb. rewrite Nat.eqb_refl.
  destruct (jstring_eq_dec (code x) (code x)); [reflexivity|congruence].
Qed.

Lemma exact_dedup_incl l x : In x (exact_dedup l) -> In x l.
Proof.
  induction l as [|y t IH]; simpl; [auto|].
  intros [E|H]; [auto|]. apply filter_In in H. right. apply IH, H.
Qed.

Lemma ranked_filter f l : ranked l -> ranked (filter f l).
Proof.
  induction 1 as [|x l Hx Hl IH]; simpl; [constructor|].
  destruct (f x); [|exact IH]. constructor; [|exact IH].
  apply Forall_forall. intros y Hy. apply filter_In in Hy.
  rewrite Forall_forall in Hx. apply Hx, Hy.
Qed.

Lemma exact_dedup_ranked l : ranked l -> ranked (exact_dedup l).
Proof.
  induction 1 as [|x l Hx Hl IH]; simpl; constructor.
  - apply Forall_forall. intros y Hy. apply filter_In in Hy.
    rewrite Forall_forall in Hx. apply Hx, exact_dedup_incl, Hy.
  - apply ranked_filter, IH.
Qed.

Lemma exact_dedup_NoDup l : NoDup (exact_dedup l).
Proof.
  induction l as [|x l IH]; simpl; constructor.
  - intros H. apply filter_In in H. destruct H as (_ & H).
    rewrite same_key_refl in H. discriminate.
  - apply NoDup_filter, IH.
Qed.

(** On a ranked list, a result kept by exact dedup ranks before all others
    with its (system, code) pair. *)
Lemma exact_dedup_first l : ranked l -> forall x,
  In x (exact_dedup l) ->
  In x l /\ (forall y, In y l -> same_key y x = true -> ranks_before x y = true).
Proof.
  induction 1 as [|z t Hz Ht IH]; intros x; simpl; [tauto|].
  rewrite Forall_forall in Hz. rewrite filter_In.
  intros [<-|(Hx & Hk)].
  - split; [auto|]. intros y [<-|Hy] _; [apply ranks_before_refl|auto].
  - destruct (IH x Hx) as (Hin & Hbest).
    split; [auto|]. intros y [<-|Hy] Hyx; [|auto].
    rewrite Hyx in Hk. discriminate.
Qed.

(** When the keys tell the results apart, that is a description of the kept
    results which only looks at which results are in the list. *)
Lemma exact_dedup_spec l : ranked l -> told_apart l -> forall x,
  In x (exact_dedup l) <->
  In x l /\ (forall y, In y l -> same_key y x = true -> ranks_before x y = true).
Proof.
  intros Hr Ha x. split; [apply exact_dedup_first, Hr|].
  revert Ha x. induction Hr as [|z t Hz Ht IH]; intros Ha x; simpl; [tauto|].
  rewrite Forall_forall in Hz. rewrite filter_In.
  assert (Ha' : told_apart t)
    by (apply (told_apart_incl (z :: t)); [intros w Hw; right; exact Hw|exact Ha]).
  intros ([<-|Hx] & Hbest); [auto|].
  destruct (same_key z x) eqn:Hk.
  - left. apply (ranks_before_antisym (z :: t));
      [exact Ha|left; reflexivity|right; exact Hx|auto|].
    apply Hbest; [left; reflexivity|exact Hk].
  - right. split; [|reflexivity]. apply IH; [exact Ha'|].
    split; [exact Hx|]. intros y Hy. apply Hbest. right. exact Hy.
Qed.

(** The survivors of exact dedup then depend on the set of results only. *)
Lemma exact_dedup_same_set l l' :
  told_apart l ->
  (forall x, In x l <-> In x l') ->
  exact_dedup (rank_sort l) = exact_dedup (rank_sort l').
Proof.
  intros Ha Hset.
  assert (Hin : forall m x, In x (rank_sort m) <-> In x m).
  { intros m x. split; apply Permutation_in;
      [apply rank_sort_perm|apply Permutation_sym, rank_sort_perm]. }
  assert (Hs : forall x, In x (rank_sort l) <-> In x (rank_sort l')).
  { intros x. rewrite !Hin. apply Hset. }
  assert (Hal : told_apart (rank_sort l))
    by (apply (told_apart_incl l); [intros x; apply Hin|exact Ha]).
  assert (Hal' : told_apart (rank_sort l'))
    by (apply (told_apart_incl (rank_sort l)); [intros x; apply Hs|exact Hal]).
  apply ranked_unique; try (apply exact_dedup_ranked, rank_sort_ranked).
  - apply (told_apart_incl (rank_sort l)); [intros x; apply exact_dedup_incl|exact Hal].
  - apply NoDup_Permutation; try apply exact_dedup_NoDup.
    intros x. rewrite !exact_dedup_spec by (try apply rank_sort_ranked; assumption).
    split; intros (Hx & Hbest);
      (split; [apply Hs, Hx|intros y Hy; apply Hbest, Hs, Hy]).
Qed.




(** In particular the order in which results arrive does not matter. *)
Lemma consolidate_permutation similarity top_n results results' :
  told_apart results ->
  Permutation results results' ->
  consolidate similarity top_n results = consolidate similarity top_n results'.
Proof.
  intros Ha Hp. unfold consolidate.
  rewrite (rank_sort_permutation _ _ Ha Hp). reflexivity.
Qed.

(** *** Nothing is invented on the way *)

Lemma grow_incl similarity fuel : forall comp pool comp' pool',
  grow similarity fuel comp pool = (comp', pool') ->
  (forall x, In x comp' -> In x comp \/ In x pool)
  /\ (forall x, In x pool' -> In x pool).
Proof.
  induction fuel as [|fuel IH]; intros comp pool comp' pool' H; simpl in H.
  - inversion H; subst. auto.
  - destruct (partition _ pool) as [new others] eqn:Ep.
    pose proof (elements_in_partition _ _ Ep) as Hin.
    destruct new as [|y new'].
    + inversion H; subst. auto.
    + destruct (IH _ _ _ _ H) as (Hc & Hp). split.
      * intros x Hx. destruct (Hc x Hx) as [Hx'|Hx'].
        -- apply in_app_or in Hx'. destruct Hx' as [?|?]; [auto|].
           right. apply Hin. auto.
        -- right. apply Hin. auto.
      * intros x Hx. apply Hin. right. apply Hp, Hx.
Qed.

Lemma clusters_incl similarity fuel : forall nodes c,
  In c (clusters similarity fuel nodes) ->
  In (representative c) nodes /\ (forall m, In m (members c) -> In m nodes).
Proof.
  induction fuel as [|fuel IH]; intros nodes c H; simpl in H; [destruct H|].
  destruct nodes as [|x t]; [destruct H|].
  destruct (grow similarity (length t) [x] t) as [comp others] eqn:Eg.
  destruct (grow_incl _ _ _ _ _ _ Eg) as (Hc & Hp).
  destruct H as [<-|H]; simpl.
  - split; [auto|]. intros m Hm.
    assert (Hm' : In m comp) by (destruct comp; [destruct Hm|right; exact Hm]).
    destruct (Hc m Hm') as [[<-|[]]|?]; auto.
  - destruct (IH _ _ H) as (Hr & Hm). split.
    + right. apply Hp, Hr.
    + intros m Hin. right. apply Hp, Hm, Hin.
Qed.

Lemma cap_incl top_n l : forall kept r,
  In r (fold_left (cap_step top_n) l kept) -> In r kept \/ In r l.
Proof.
  induction l as [|y t IH]; intros kept r H; simpl in H; [auto|].
  destruct (IH _ _ H) as [Hk|Ht]; [|right; right; exact Ht].
  unfold cap_step in Hk. destruct (Nat.ltb _ top_n); [|left; exact Hk].
  apply in_app_or in Hk. destruct Hk as [Hk|[<-|[]]].
  - left. exact Hk.
  - right. left. reflexivity.
Qed.

(** Every consolidated result, and every related code it lists, is the
    (system, code) pair of a scored result that was given. *)
Lemma consolidate_traces_back similarity top_n results c :
  In c (consolidate similarity top_n results) ->
  (exists r, In r results /\ system r = c_system c /\ code r = c_code c
             /\ display r = c_display c /\ confidence r = c_confidence c)
  /\ (forall s k, In (s, k) (relatedCodes c) ->
        exists r, In r results /\ system r = s /\ code r = k).
Proof.
  unfold consolidate, cap_per_system. intros H.
  apply cap_incl in H. destruct H as [[]|H].
  apply in_map_iff in H. destruct H as (cl & <- & Hcl).
  apply clusters_incl in Hcl. destruct Hcl as (Hrep & Hmem).
  assert (Hsrc : forall x,
             In x (filter reportable (exact_dedup (rank_sort results))) ->
             In x results).
  { intros x Hx. apply filter_In in Hx. destruct Hx as (Hx & _).
    apply exact_dedup_incl in Hx.
    exact (Permutation_in _ (rank_sort_perm results) Hx). }
  split.
  - exists (representative cl). simpl. auto.
  - simpl. intros s k Hin. apply in_map_iff in Hin.
    destruct Hin as (m & E & Hm). inversion E; subst.
    exists m. split; [|auto].
    apply Hsrc, Hmem. exact (Permutation_in _ (rank_sort_perm _) Hm).
Qed.

(** *** The output is in ranking order *)

Lemma confidence_of_ranks_before x y :
  ranks_before x y = true -> (confidence y <= confidence x)%Qc.
Proof.
  rewrite ranks_before_iff. unfold rank_compare, compare_confidence. intros H.
  apply Qcle_alt. intros E. apply H.
  change (Qccompare (confidence y) (confidence x) = Gt) in E. rewrite E. reflexivity.
Qed.

(** Exact dedup keeps the maximum confidence seen for a (system, code) pair. *)
Lemma exact_dedup_max_confidence l x y :
  In x (exact_dedup (rank_sort l)) -> In y l -> same_key y x = true ->
  (confidence y <= confidence x)%Qc.
Proof.
  intros Hx Hy Hk. apply confidence_of_ranks_before.
  apply (exact_dedup_first _ (rank_sort_ranked l)) in Hx. destruct Hx as (_ & Hbest).
  apply Hbest; [|exact Hk].
  exact (Permutation_in _ (Permutation_sym (rank_sort_perm l)) Hy).
Qed.

Lemma ranked_remove a y b : ranked (a ++ y :: b) -> ranked (a ++ b).
Proof.
  induction a as [|x a IH]; simpl; intros H; inversion H as [|? ? Hx Hl]; subst.
  - assumption.
  - constructor; [|apply IH, Hl].
    apply Forall_app in Hx. destruct Hx as (Ha & Hb).
    apply Forall_app. split; [exact Ha|]. inversion Hb; assumption.
Qed.

Lemma grow_ranked similarity fuel : forall comp pool comp' pool',
  grow similarity fuel comp pool = (comp', pool') -> ranked pool -> ranked pool'.
Proof.
  induction fuel as [|fuel IH]; intros comp pool comp' pool' H Hr; simpl in H.
  - inversion H; subst. exact Hr.
  - rewrite partition_as_filter in H.
    destruct (filter _ pool) as [|y new'] eqn:Ef.
    + inversion H; subst. exact Hr.
    + apply (IH _ _ _ _ H). apply ranked_filter, Hr.
Qed.

Lemma clusters_ranked similarity fuel : forall nodes,
  ranked nodes -> ranked (List.map representative (clusters similarity fuel nodes)).
Proof.
  induction fuel as [|fuel IH]; intros nodes Hr; simpl; [constructor|].
  destruct nodes as [|x t]; [constructor|].
  destruct (grow similarity (length t) [x] t) as [comp others] eqn:Eg.
  inversion Hr as [|? ? Hx Ht]; subst. simpl.
  pose proof (grow_incl _ _ _ _ _ _ Eg) as (_ & Hp).
  constructor.
  - apply Forall_forall. intros y Hy. apply in_map_iff in Hy.
    destruct Hy as (c & <- & Hc). apply clusters_incl in Hc.
    destruct Hc as (Hc & _).
    rewrite Forall_forall in Hx. apply Hx, Hp, Hc.
  - apply IH. exact (grow_ranked _ _ _ _ _ _ Eg Ht).
Qed.

Lemma cap_ranked top_n l : forall kept,
  ranked (List.map as_scored (kept ++ l)) ->
  ranked (List.map as_scored (fold_left (cap_step top_n) l kept)).
Proof.
  induction l as [|y t IH]; intros kept H; simpl.
  - rewrite app_nil_r in H. exact H.
  - apply IH. unfold cap_step. destruct (Nat.ltb _ top_n).
    + rewrite <- app_assoc. exact H.
    + rewrite map_app in *. simpl in H. eapply ranked_remove. exact H.
Qed.

Lemma as_scored_to_consolidated cl : as_scored (to_consolidated cl) = representative cl.
Proof. destruct cl as [[s c d q] m]. reflexivity. Qed.

(** The consolidated list is sorted by confidence descending, ties broken
    by system priority and then by code. *)
Lemma consolidate_ranked similarity top_n results :
  ranked (List.map as_scored (consolidate similarity top_n results)).
Proof.
  unfold consolidate, cap_per_system. apply cap_ranked. simpl.
  rewrite map_map.
  rewrite (map_ext _ representative as_scored_to_consolidated).
  apply clusters_ranked, ranked_filter, exact_dedup_ranked, rank_sort_ranked.
Qed.

(** Nothing below 0.3 is reported. *)
Lemma consolidate_reportable similarity top_n results c :
  In c (consolidate similarity top_n results) ->
  (REPORT_THRESHOLD <= c_confidence c)%Qc.
Proof.
  unfold consolidate, cap_per_system. intros H.
  apply cap_incl in H. destruct H as [[]|H].
  apply in_map_iff in H. destruct H as (cl & <- & Hcl).
  apply clusters_incl in Hcl. destruct Hcl as (Hrep & _).
  apply filter_In in Hrep. destruct Hrep as (_ & Hr).
  unfold reportable, Qcleb in Hr. simpl.
  apply Qcle_alt. intros E.
  change (Qccompare REPORT_THRESHOLD (confidence (representative cl)) = Gt) in E.
  rewrite E in Hr. discriminate.
Qed.

(** The consolidator on the sample results: the drug is reported once, at
    its maximum confidence and with the lab code as a related code; the
    result below 0.3 is not reported. *)
Example consolidate_sample :
  List.map (fun c => (c_system c, c_code c, tier c, relatedCodes c))
           (consolidate sample_similarity TOP_N sample_results)
  = [ (Medication, of_string "861004", high, [(Lab, of_string "4548-4")]);
      (Diagnosis, of_string "E11.9", medium, []) ].
Proof. vm_compute. reflexivity. Qed.
End ConsolidatorFacts.

(** ** The orchestrator and the input area *)

Module OrchestratorFacts.
Import JS Consolidator Orchestrator.

Section Run.

Variable classify : jstring -> IntentScore.
Variable plan : IntentScore -> option Strategy -> nat -> list SearchTask.
Variable search : SearchTask -> nat -> Response.
Variable score : jstring -> RawResult -> Qc.
Variable reflect : list RawResult -> nat -> nat -> Reflection.
Variable similarity : jstring -> jstring -> option Qc.
Variable summarize : list ConsolidatedResult -> list jstring -> jstring.

Local Abbreviation step' := (step classify plan search score reflect similarity summarize).
Local Abbreviation steps' := (steps classify plan search score reflect similarity summarize).
Local Abbreviation runSearch' :=
  (runSearch classify plan search score reflect similarity summarize).

(** *** What a task costs *)

Lemma budget_left_iff st :
  budget_left st = true <-> iteration st < MAX_ITERATIONS /\ calls st < MAX_CALLS.
Proof.
  unfold budget_left. rewrite andb_true_iff, !Nat.ltb_lt. reflexivity.
Qed.

(** A task costs at least one call and at most one more than its retries. *)
Lemma call_backend_cost retries : forall task made,
  S made <= fst (call_backend search retries task made) <= S retries + made.
Proof.
  induction retries as [|retries IH]; intros task made; cbn [call_backend];
    (destruct (search task made) as [found|f]; [cbn [fst]; lia|]);
    (destruct (transient f); [|cbn [fst]; lia]).
  - cbn [fst]. lia.
  - specialize (IH task (S made)). lia.
Qed.

(** It costs one call when no failure is transient. *)
Lemma call_backend_once retries task made :
  never_transient search ->
  fst (call_backend search retries task made) = S made.
Proof.
  intros Hn. destruct retries; cbn [call_backend];
    (destruct (search task made) as [found|f] eqn:Es; [reflexivity|]);
    rewrite (Hn _ _ _ Es); reflexivity.
Qed.

Section Attempts.

(** A bound on the attempts the gateway makes for one task. *)
Variable k : nat.
Hypothesis k_positive : 1 <= k.
Hypothesis k_attempts : forall task made,
  fst (call_backend search MAX_RETRIES task made) <= k + made.

Lemma execute_cost batch : forall made,
  fst (execute search batch made) <= k * length batch + made.
Proof.
  induction batch as [|task batch IH]; intros made; cbn [execute].
  - cbn [fst length]. lia.
  - pose proof (k_attempts task made) as H1.
    destruct (call_backend search MAX_RETRIES task made) as [made1 o].
    cbn [fst] in H1. specialize (IH made1).
    destruct (execute search batch made1) as [made2 os]. cbn [fst length] in *. nia.
Qed.

Lemma step_calls_within st : calls_within k st -> calls_within k (step' st).
Proof.
  intros (Hp & Hc). unfold step, calls_within, planned_within in *.
  destruct (phase st) eqn:E.
  - cbn [phase calls tasks]. split; [discriminate|exact Hc].
  - destruct (budget_left st) eqn:Hb; cbn [phase calls tasks].
    + split; [|exact Hc]. intros _. rewrite length_firstn.
      apply budget_left_iff in Hb. lia.
    + split; [discriminate|exact Hc].
  - pose proof (execute_cost (tasks st) (calls st)) as Hm.
    destruct (execute search (tasks st) (calls st)) as [made outcomes].
    cbn [fst phase calls tasks] in *. split; [discriminate|].
    specialize (Hp eq_refl). unfold MAX_CALLS in *. nia.
  - destruct (stop _ || negb (budget_left st)); cbn [phase calls tasks];
      (split; [discriminate|exact Hc]).
  - cbn [phase calls tasks]. split; [discriminate|exact Hc].
  - cbn [phase calls tasks]. split; [discriminate|exact Hc].
  - rewrite E. split; [intros F; discriminate F|exact Hc].
Qed.

Lemma steps_calls_within n : forall st,
  calls_within k st -> calls_within k (steps' n st).
Proof.
  induction n as [|n IH]; intros st H; simpl; [exact H|].
  apply IH, step_calls_within, H.
Qed.

Lemma start_calls_within q : calls_within k (start q).
Proof.
  unfold calls_within, planned_within, start. cbn [phase calls tasks].
  split; [discriminate|lia].
Qed.

End Attempts.

(** *** Iterations, and the end of a run *)

Lemma step_within_iterations st : within_iterations st -> within_iterations (step' st).
Proof.
  intros (Hi & He). unfold step, within_iterations.
  destruct (phase st) eqn:Hp.
  - simpl. repeat split; auto. discriminate.
  - destruct (budget_left st) eqn:Hb; simpl.
    + apply budget_left_iff in Hb. repeat split; auto. intros _. tauto.
    + repeat split; auto. discriminate.
  - destruct (execute search (tasks st) (calls st)) as [made outcomes]. simpl in *.
    specialize (He eq_refl). repeat split; try lia. discriminate.
  - destruct (stop _ || negb (budget_left st)); simpl; repeat split; auto; discriminate.
  - simpl. repeat split; auto. discriminate.
  - simpl. repeat split; auto. discriminate.
  - rewrite Hp. auto.
Qed.

Lemma steps_within_iterations n : forall st,
  within_iterations st -> within_iterations (steps' n st).
Proof.
  induction n as [|n IH]; intros st H; simpl; [exact H|].
  apply IH, step_within_iterations, H.
Qed.

Lemma start_within_iterations q : within_iterations (start q).
Proof.
  unfold within_iterations, start, MAX_ITERATIONS. simpl.
  repeat split; try lia.
Qed.

(** Every transition brings DONE nearer. *)
Lemma step_distance st :
  within_iterations st -> phase st <> DONE -> distance (step' st) < distance st.
Proof.
  intros (Hi & He) Hnd. unfold step, distance.
  destruct (phase st) eqn:Hp; try congruence.
  - cbn [phase iteration]. lia.
  - destruct (budget_left st) eqn:Hb; cbn [phase iteration]; [|lia].
    apply budget_left_iff in Hb. lia.
  - specialize (He eq_refl).
    destruct (execute search (tasks st) (calls st)) as [made outcomes].
    cbn [phase iteration]. lia.
  - destruct (stop _) eqn:Hs; cbn [orb phase iteration]; [lia|].
    destruct (budget_left st) eqn:Hb; cbn [negb phase iteration]; [|lia].
    apply budget_left_iff in Hb. lia.
  - cbn [phase iteration]. lia.
  - cbn [phase iteration]. lia.
Qed.

Lemma distance_done st : distance st = 0 -> phase st = DONE.
Proof. unfold distance. destruct (phase st); auto; lia. Qed.

Lemma steps_done n : forall st,
  within_iterations st -> distance st <= n -> phase (steps' n st) = DONE.
Proof.
  induction n as [|n IH]; intros st Hb Hd; simpl.
  - apply distance_done. lia.
  - destruct (phase st) eqn:Hp;
      try (apply IH; [apply step_within_iterations, Hb|];
           assert (Hlt : distance (step' st) < distance st)
             by (apply step_distance; [exact Hb|congruence]); lia).
    assert (Hfix : step' st = st) by (unfold step; rewrite Hp; reflexivity).
    rewrite Hfix. apply IH; [exact Hb|]. unfold distance. rewrite Hp. lia.
Qed.

(** A run is the machine after some number of transitions. *)
Lemma runSearch_steps q :
  truthy q = true -> runSearch' q = steps' MAX_TRANSITIONS (start q).
Proof. intros H. unfold runSearch. rewrite H. reflexivity. Qed.

(** What the gateway reports as found was returned by a backend call. *)
Lemma call_backend_found retries : forall task made found,
  snd (call_backend search retries task made) = Completed found ->
  exists made', search task made' = Success found.
Proof.
  induction retries as [|retries IH]; intros task made found;
    cbn [call_backend];
    (destruct (search task made) as [found0|f] eqn:Es;
     [cbn [snd]; intros E; inversion E; subst; eauto|]);
    (destruct (transient f); [|cbn [snd]; discriminate]).
  - cbn [snd]. discriminate.
  - apply IH.
Qed.

Lemma execute_found batch : forall made r,
  In r (flat_map found_by (snd (execute search batch made))) ->
  returned_by_backend search r.
Proof.
  induction batch as [|task batch IH]; intros made r; cbn [execute].
  - cbn. intros [].
  - pose proof (call_backend_found MAX_RETRIES task made) as Hf.
    destruct (call_backend search MAX_RETRIES task made) as [made1 o].
    specialize (IH made1 r).
    destruct (execute search batch made1) as [made2 os].
    cbn [snd flat_map] in *. intros H. apply in_app_or in H.
    destruct H as [H|H]; [|auto].
    destruct o as [found|f]; cbn [found_by] in H; try destruct H.
    destruct (Hf found eq_refl) as (made' & Hs).
    exists task, made', found. auto.
Qed.

Lemma step_traced st : traced search st -> traced search (step' st).
Proof.
  intros (Hraw & Hres). unfold step, traced.
  destruct (phase st) eqn:Hp.
  - cbn [raw results]. auto.
  - destruct (budget_left st); cbn [raw results]; auto.
  - pose proof (execute_found (tasks st) (calls st)) as Hf.
    destruct (execute search (tasks st) (calls st)) as [made outcomes].
    cbn [snd raw results] in *. split.
    + intros r Hr. apply in_app_or in Hr. destruct Hr; auto.
    + intros c Hc. destruct (Hres c Hc) as (r & Hr & E).
      exists r. split; [apply in_or_app; auto|exact E].
  - destruct (stop _ || negb (budget_left st)); cbn [raw results]; auto.
  - cbn [raw results]. split; [exact Hraw|].
    intros c Hc.
    apply ConsolidatorFacts.consolidate_traces_back in Hc.
    destruct Hc as ((sr & Hsr & Es & Ec & _) & _).
    apply in_map_iff in Hsr. destruct Hsr as (r & <- & Hr).
    exists r. auto.
  - cbn [raw results]. auto.
  - auto.
Qed.

Lemma steps_traced n : forall st, traced search st -> traced search (steps' n st).
Proof.
  induction n as [|n IH]; intros st H; simpl; [exact H|].
  apply IH, step_traced, H.
Qed.

(** No fabricated codes, for the run as a whole: every consolidated result
    a run ends with has the system and the code of a raw result that some
    backend call returned. *)
Lemma run_no_fabricated_codes q c :
  In c (results (runSearch' q)) ->
  exists r, returned_by_backend search r
            /\ raw_system r = c_system c /\ raw_code r = c_code c.
Proof.
  unfold runSearch. destruct (truthy q); [|intros []].
  assert (Ht : traced search (steps' MAX_TRANSITIONS (start q))).
  { apply steps_traced. split; intros ? []. }
  destruct Ht as (Hraw & Hres). intros Hc.
  destruct (Hres c Hc) as (r & Hr & E). exists r. auto.
Qed.



(** C3.  Submitting an input whose trimmed form is empty does nothing: no
    message is handed to [sendMessage] and the input is left as it is; and
    the query [handleSubmit] would have sent, the trimmed input, is one the
    orchestrator rejects before CLASSIFY, with no backend call, an empty
    result list and the fixed summary. *)
Theorem empty_query_rejected (c : InputArea.component) :
  trim (InputArea.input c) = [] ->
  InputArea.handleSubmit c = c
  /\ InputArea.sent (InputArea.handleSubmit c) = InputArea.sent c
  /\ InputArea.input (InputArea.handleSubmit c) = InputArea.input c
  /\ calls (runSearch' (trim (InputArea.input c))) = 0
  /\ results (runSearch' (trim (InputArea.input c))) = []
  /\ summary (runSearch' (trim (InputArea.input c))) = NO_QUERY_PROVIDED
  /\ raw (runSearch' (trim (InputArea.input c))) = [].
Proof.
  intros H.
  assert (Hs : InputArea.handleSubmit c = c).
  { unfold InputArea.handleSubmit. rewrite H. reflexivity. }
  rewrite Hs, H. unfold runSearch. simpl. repeat split; reflexivity.
Qed.

End Run.


(** The bounds are reached: with backends that answer, three iterations
    of five, five and two calls; with backends that are unavailable, five
    tasks of three attempts each in the first iteration, and twelve tasks of
    three attempts each when the planner uses the whole budget. *)
Example demo_run_answering :
  let st := demo_run five_tasks answering in
  (phase st, calls st, iteration st, length (raw st)) = (DONE, 12, 3, 12).
Proof. vm_compute. reflexivity. Qed.

Example demo_run_unavailable :
  let st := demo_run five_tasks unavailable in
  (phase st, calls st, iteration st, length (raw st)) = (DONE, 15, 1, 0).
Proof. vm_compute. reflexivity. Qed.

Example demo_run_whole_budget :
  let st := demo_run twelve_tasks unavailable in
  (phase st, calls st, iteration st, length (raw st)) = (DONE, 36, 1, 0).
Proof. vm_compute. reflexivity. Qed.


Lemma empty_query_rejected_witness :
  let blank := InputArea.mkComponent (of_string "   ") false [] in
  let run := runSearch (fun _ _ => 0%Q) (fun _ _ _ => [])
                       (fun _ _ => Success []) (fun _ _ => Q2Qc 0)
                       (fun _ _ _ => mkReflection true None)
                       (fun _ _ => None) (fun _ _ => []) in
  trim (InputArea.input blank) = []
  /\ InputArea.handleSubmit blank = blank
  /\ calls (run (trim (InputArea.input blank))) = 0
  /\ results (run (trim (InputArea.input blank))) = []
  /\ summary (run (trim (InputArea.input blank))) = NO_QUERY_PROVIDED.
Proof.
  intros blank run.
  assert (H : trim (InputArea.input blank) = []) by reflexivity.
  destruct (@empty_query_rejected
              (fun _ _ => 0%Q) (fun _ _ _ => [])
              (fun _ _ => Success []) (fun _ _ => Q2Qc 0)
              (fun _ _ _ => mkReflection true None)
              (fun _ _ => None) (fun _ _ => []) blank H)
    as (H1 & _ & _ & H4 & H5 & H6 & _).
  repeat split; assumption.
Defined.
End OrchestratorFacts.

(** ** Strings *)

Module JSFacts.
Import JS JSMore.

Lemma drop_space_head_ok s : head_ok (drop_space s).
Proof.
  induction s as [|c t IH]; simpl; [exact I|].
  destruct (is_space c) eqn:E; [exact IH|exact E].
Qed.

Lemma drop_space_split s :
  exists p, s = p ++ drop_space s /\ Forall (fun c => is_space c = true) p.
Proof.
  induction s as [|c t IH]; simpl.
  - exists []. auto.
  - destruct (is_space c) eqn:E.
    + destruct IH as (p & Ep & Hp). exists (c :: p). simpl.
      split; [congruence|constructor; assumption].
    + exists []. auto.
Qed.

Lemma drop_space_id s : head_ok s -> drop_space s = s.
Proof. destruct s as [|c t]; simpl; [auto|]. intros ->. reflexivity. Qed.

Lemma head_ok_prefix u w : head_ok (u ++ w) -> head_ok u.
Proof. destruct u; simpl; auto. Qed.

(** [trim] cuts white space off both ends and nothing else. *)
Lemma trim_split s :
  exists p q, s = p ++ trim s ++ q
              /\ Forall (fun c => is_space c = true) p
              /\ Forall (fun c => is_space c = true) q.
Proof.
  unfold trim.
  destruct (drop_space_split s) as (p & Ep & Hp).
  destruct (drop_space_split (rev (drop_space s))) as (q & Eq & Hq).
  exists p, (rev q). repeat split; [|exact Hp|apply Forall_rev, Hq].
  rewrite <- rev_app_distr, <- Eq, rev_involutive. exact Ep.
Qed.

Lemma trim_trimmed s : trimmed (trim s).
Proof.
  unfold trimmed, trim. rewrite rev_involutive. split.
  - destruct (drop_space_split (rev (drop_space s))) as (q & Eq & _).
    pose proof (drop_space_head_ok s) as Hu.
    rewrite <- (rev_involutive (drop_space s)), Eq, rev_app_distr in Hu.
    exact (head_ok_prefix _ _ Hu).
  - apply drop_space_head_ok.
Qed.

Lemma trim_id s : trimmed s -> trim s = s.
Proof.
  intros (Hh & Hl). unfold trim.
  rewrite (drop_space_id _ Hh), (drop_space_id _ Hl). apply rev_involutive.
Qed.

Lemma trim_idempotent s : trim (trim s) = trim s.
Proof. apply trim_id, trim_trimmed. Qed.

Lemma trim_nil : trim [] = [].
Proof. reflexivity. Qed.

Lemma truthy_iff s : truthy s = true <-> s <> [].
Proof. destruct s; simpl; split; congruence. Qed.

Lemma startsWith_iff p : forall s, startsWith s p = true <-> exists t, s = p ++ t.
Proof.
  induction p as [|x p IH]; intros s; simpl.
  - split; [intros _; exists s; reflexivity|destruct s; reflexivity].
  - destruct s as [|c s]; simpl.
    + split; [discriminate|intros (t & E); discriminate].
    + rewrite andb_true_iff, N.eqb_eq, IH. split.
      * intros (-> & t & ->). exists t. reflexivity.
      * intros (t & E). inversion E; subst. split; [reflexivity|exists t; reflexivity].
Qed.

Lemma includes_iff p : forall s, includes s p = true <-> exists a b, s = a ++ p ++ b.
Proof.
  induction s as [|c s IH]; cbn [includes].
  - rewrite orb_false_r, startsWith_iff. split.
    + intros (t & E). exists [], t. exact E.
    + intros (a & b & E). destruct a; [exists b; exact E|discriminate].
  - rewrite orb_true_iff, IH, startsWith_iff. split.
    + intros [(t & E)|(a & b & E)].
      * exists [], t. exact E.
      * exists (c :: a), b. rewrite E. reflexivity.
    + intros (a & b & E). destruct a as [|x a]; simpl in E.
      * left. exists b. exact E.
      * right. inversion E; subst. exists a, b. reflexivity.
Qed.

Lemma join_snoc sep l x :
  join sep (l ++ [x]) = match l with [] => x | _ :: _ => join sep l ++ sep ++ x end.
Proof.
  induction l as [|y t IH]; simpl; [reflexivity|].
  destruct t as [|z t']; simpl in *; [reflexivity|].
  rewrite IH, <- !app_assoc. reflexivity.
Qed.

Lemma join_nonempty sep l :
  l <> [] -> Forall (fun x => x <> []) l -> join sep l <> [].
Proof.
  destruct l as [|x t]; [congruence|]. intros _ H.
  inversion H as [|? ? Hx _]; subst. simpl.
  destruct t; [exact Hx|]. destruct x; [congruence|discriminate].
Qed.

Lemma jeqb_same a : jeqb a a = true.
Proof. unfold jeqb. destruct (jstring_eq_dec a a); congruence. Qed.

Lemma jeqb_eq_iff a b : jeqb a b = true <-> a = b.
Proof. unfold jeqb. destruct (jstring_eq_dec a b); split; congruence. Qed.

Lemma jeqb_diff a b : a <> b -> jeqb a b = false.
Proof. unfold jeqb. destruct (jstring_eq_dec a b); congruence. Qed.

End JSFacts.

(** ** Maps in insertion order *)

Module MapFacts.
Import JS JSFacts Parser.

Lemma map_get_set_same V k (v : V) m : map_get k (map_set k v m) = Some v.
Proof.
  induction m as [|[k0 v0] m IH]; simpl.
  - rewrite jeqb_same. reflexivity.
  - destruct (jeqb k0 k) eqn:E; simpl; rewrite E; [reflexivity|exact IH].
Qed.

Lemma map_get_set_other V k k' (v : V) m :
  k' <> k -> map_get k (map_set k' v m) = map_get k m.
Proof.
  intros Hne. induction m as [|[k0 v0] m IH]; simpl.
  - rewrite (jeqb_diff Hne). reflexivity.
  - destruct (jeqb k0 k') eqn:E; simpl.
    + apply jeqb_eq_iff in E. subst k0. rewrite (jeqb_diff Hne). reflexivity.
    + destruct (jeqb k0 k); [reflexivity|exact IH].
Qed.

End MapFacts.

(** ** The result card: what else the parser guarantees *)

Module ResultCardFacts.
Import JS JSMore Regex RegexFacts Parser ParserFacts ResultCard JSFacts.

(** *** The keys of the returned map *)

Lemma map_set_keys V (k : jstring) (v : V) m :
  List.map fst (map_set k v m)
  = if existsb (fun k' => jeqb k' k) (List.map fst m)
    then List.map fst m else List.map fst m ++ [k].
Proof.
  induction m as [|[k' v'] m IH]; simpl; [reflexivity|].
  destruct (jeqb k' k) eqn:E; simpl; [reflexivity|].
  rewrite IH. destruct (existsb _ _); reflexivity.
Qed.

Lemma map_push_keys k a m : List.map fst (map_push k a m) = List.map fst m.
Proof.
  induction m as [|[k' v'] m IH]; simpl; [reflexivity|].
  destruct (jeqb k' k); simpl; [reflexivity|]. rewrite IH. reflexivity.
Qed.

Lemma add_summary_systems st line : systems (add_summary st line) = systems st.
Proof. apply add_summary_frame. Qed.

Lemma step_keys st line :
  List.map fst (systems (step st line))
  = match systemMatch line with
    | Some n => List.map fst (map_set n [] (systems st))
    | None => List.map fst (systems st)
    end.
Proof.
  unfold step. destruct (systemMatch line); [reflexivity|].
  assert (Hr : List.map fst (systems (result_line st line)) = List.map fst (systems st)).
  { unfold result_line. destruct (_ && _); [|rewrite add_summary_systems; reflexivity].
    destruct (codeMatch line); [|rewrite add_summary_systems; reflexivity].
    destruct (displayMatch line); [|rewrite add_summary_systems; reflexivity].
    simpl. apply map_push_keys. }
  destruct (parentMatch line) as [[pc pd]|]; [|exact Hr].
  destruct (lastResult st); [reflexivity|exact Hr].
Qed.

Lemma header_names_snoc ls line :
  header_names (ls ++ [line])
  = header_names ls ++ match systemMatch line with Some n => [n] | None => [] end.
Proof. unfold header_names. rewrite flat_map_app. simpl. rewrite app_nil_r. reflexivity. Qed.

Lemma existsb_jeqb k ks : existsb (fun k' => jeqb k' k) ks = true <-> In k ks.
Proof.
  rewrite existsb_exists. split.
  - intros (k' & Hin & E). apply jeqb_true in E. subst. exact Hin.
  - intros H. exists k. split; [exact H|]. unfold jeqb.
    destruct (jstring_eq_dec k k); congruence.
Qed.

Lemma keys_run lines : forall ls st,
  NoDup (List.map fst (systems st)) ->
  (forall k, In k (List.map fst (systems st)) <-> In k (header_names ls)) ->
  NoDup (List.map fst (systems (run lines st)))
  /\ (forall k, In k (List.map fst (systems (run lines st)))
                <-> In k (header_names (ls ++ lines))).
Proof.
  induction lines as [|line lines IH]; intros ls st Hnd Hk; simpl.
  - rewrite app_nil_r. auto.
  - replace (ls ++ line :: lines) with ((ls ++ [line]) ++ lines)
      by (rewrite <- app_assoc; reflexivity).
    apply IH; rewrite step_keys; try intros k; rewrite ?header_names_snoc;
      destruct (systemMatch line) as [n|]; rewrite ?app_nil_r; auto;
      rewrite map_set_keys;
      destruct (existsb (fun k' => jeqb k' n) (List.map fst (systems st))) eqn:E.
    + exact Hnd.
    + apply NoDup_app; [exact Hnd|repeat constructor; intros []|].
      intros x Hx [<-|[]]. apply existsb_jeqb in Hx. congruence.
    + apply existsb_jeqb in E. rewrite in_app_iff, Hk. simpl.
      split; [auto|]. intros [H|[<-|[]]]; [exact H|]. apply Hk, E.
    + rewrite !in_app_iff, Hk. reflexivity.
Qed.

Lemma header_names_in k ls :
  In k (header_names ls) <-> exists h, In h ls /\ systemMatch h = Some k.
Proof.
  unfold header_names. rewrite in_flat_map. split.
  - intros (h & Hh & Hin). exists h. split; [exact Hh|].
    destruct (systemMatch h); [destruct Hin as [<-|[]]; reflexivity|destruct Hin].
  - intros (h & Hh & E). exists h. split; [exact Hh|]. rewrite E. left. reflexivity.
Qed.

Lemma p_systems_keys s :
  List.map fst (p_systems (parseCodeResults s))
  = List.map fst (systems (run (split_lines s) init)).
Proof. unfold parseCodeResults. simpl. rewrite map_map. reflexivity. Qed.

(** X1.  The returned map has one entry for each distinct header name of
    the text and no other: its keys are pairwise distinct, a name is a key
    exactly when some line is a header with that name, and the map is empty
    exactly when no line is a header. *)
Theorem parse_systems_keys (s : jstring) :
  NoDup (List.map fst (p_systems (parseCodeResults s)))
  /\ (forall k, In k (List.map fst (p_systems (parseCodeResults s)))
                <-> exists h, In h (split_lines s) /\ systemMatch h = Some k)
  /\ (p_systems (parseCodeResults s) = []
      <-> Forall no_header (split_lines s)).
Proof.
  rewrite p_systems_keys.
  destruct (@keys_run (split_lines s) [] init) as (Hnd & Hk);
    [constructor|simpl; tauto|]. simpl in Hk.
  assert (Hkeys : forall k,
             In k (List.map fst (systems (run (split_lines s) init)))
             <-> exists h, In h (split_lines s) /\ systemMatch h = Some k).
  { intros k. rewrite Hk. apply header_names_in. }
  split; [exact Hnd|]. split; [exact Hkeys|].
  unfold parseCodeResults. simpl. split.
  - intros E. apply Forall_forall. intros h Hh. unfold no_header.
    destruct (systemMatch h) as [k|] eqn:Em; [|reflexivity].
    assert (Hin : In k (List.map fst (systems (run (split_lines s) init))))
      by (apply Hkeys; eauto).
    apply map_eq_nil in E. rewrite E in Hin. destruct Hin.
  - intros Hall.
    destruct (systems (run (split_lines s) init)) as [|[k v] m] eqn:E; [reflexivity|].
    destruct (proj1 (Hkeys k)) as (h & Hh & Em); [left; reflexivity|].
    rewrite Forall_forall in Hall. specialize (Hall h Hh).
    unfold no_header in Hall. congruence.
Qed.


(** *** The display text of a result *)

Lemma displayMatch_starred l d :
  displayMatch l = Some d ->
  infix ([42; 42] ++ d ++ [42; 42])%N l /\ d <> []
  /\ Forall (fun x => is_line_terminator x = false) d.
Proof.
  unfold displayMatch, exec. intros H.
  destruct (search_from displayRe 0 l) as [m|] eqn:E; [|discriminate].
  apply search_from_sound in E. destruct E as (a & b & -> & Hs).
  unfold displayRe in Hs. cbn [rseq fold_right] in Hs.
  split_seq Hs s1 H1. split_seq Hs s2 H2. split_seq Hs s3 H3. end_seq Hs s3.
  apply sem_rlit_inv in H1. destruct H1 as (E1 & C1).
  apply sem_group_inv in H2. destruct H2 as (s2' & H2 & E2 & _ & C2).
  apply sem_rplus_inv in H2. destruct H2 as (x & w & Hx & Hw & E2' & _).
  apply sem_rlit_inv in H3. destruct H3 as (E3 & C3).
  simpl in E1. change (of_string "**") with [42%N; 42%N] in *.
  unfold group in H. rewrite C3, C2 in H. simpl in H.
  rewrite E2', consumed_app in H. inversion H; subst d; clear H.
  assert (Hdot : forall y, is_dot y = true -> is_line_terminator y = false).
  { intros y. unfold is_dot. apply negb_true_iff. }
  split; [|split].
  - exists a, (rest m).
    rewrite E1, E2', <- E2, E3. simpl. rewrite <- !app_assoc. reflexivity.
  - discriminate.
  - constructor; [apply Hdot, Hx|].
    eapply Forall_impl; [|exact Hw]. exact Hdot.
Qed.

(** X2.  The display text of every returned result is copied from the text:
    it stands between two pairs of asterisks on the line of the result, a
    line below the header of its system; it is not empty and holds no line
    terminator. *)
Theorem parse_display_verbatim (s sys : jstring) (rs : list CodeResult) (r : CodeResult) :
  In (sys, rs) (p_systems (parseCodeResults s)) -> In r rs ->
  display r <> []
  /\ Forall (fun x => is_line_terminator x = false) (display r)
  /\ infix ([42; 42] ++ display r ++ [42; 42])%N s
  /\ exists l, under_header (split_lines s) sys l
               /\ codeMatch l = Some (code r)
               /\ infix ([42; 42] ++ display r ++ [42; 42])%N l.
Proof.
  intros Hin Hr.
  destruct (parse_listed _ _ _ _ Hin Hr) as (l & Hu & _ & Hcode & Hdisp & _).
  destruct (displayMatch_starred _ Hdisp) as (Hi & Hne & Hlt).
  assert (Hl : In l (split_lines s)).
  { destruct Hu as (pre & h & mid & post & E & _). rewrite E.
    apply in_or_app. right. right. apply in_or_app. right. left. reflexivity. }
  repeat split; auto.
  - eapply infix_trans; [exact Hi|apply split_lines_infix; exact Hl].
  - exists l. auto.
Qed.

Lemma parse_display_verbatim_witness :
  let r := mkCodeResult (of_string "4548-4") (of_string "Hemoglobin A1c")
                        (Number.percent 150) (of_string "LOINC") None None in
  display r <> []
  /\ Forall (fun x => is_line_terminator x = false) (display r)
  /\ infix ([42; 42] ++ display r ++ [42; 42])%N sample
  /\ exists l, under_header (split_lines sample) (of_string "LOINC") l
               /\ codeMatch l = Some (code r)
               /\ infix ([42; 42] ++ display r ++ [42; 42])%N l.
Proof.
  intro r.
  apply (@parse_display_verbatim sample (of_string "LOINC") [r] r).
  - vm_compute. right. left. reflexivity.
  - left. reflexivity.
Defined.

(** *** The percentage shown for a parsed result *)

(** Past 2^53 the bar does not show the digits of the line: for
    [9007199254740993%] it shows 9007199254740992. *)
Example confidence_bar_rounds :
  pct (confidence_of (of_string "- 9007199254740993%"))
  = Number.of_Z 9007199254740992.
Proof. vm_compute. reflexivity. Qed.

(** X3.  The confidence bar shows the percentage that was written on the
    line of the result, [Math.round(confidence * 100)] undoing the division
    by 100 of the parser in the arithmetic of Numbers: for a result built
    from a line whose first percentage is [ds%], with [ds] writing an
    integer P up to 1000, the bar shows P; for a result whose line holds no
    percentage it shows 50. *)
Theorem confidence_bar_round_trip (s sys : jstring) (rs : list CodeResult) (r : CodeResult) :
  In (sys, rs) (p_systems (parseCodeResults s)) -> In r rs ->
  exists l, under_header (split_lines s) sys l
    /\ from_line sys l r
    /\ (no_percent l \/ exists a ds b, first_percent l a ds b)
    /\ (no_percent l -> pct (confidence r) = Number.of_Z 50)
    /\ (forall a ds b, first_percent l a ds b -> (decimal ds <= 1000)%N ->
          pct (confidence r) = Number.of_Z (Z.of_N (decimal ds))).
Proof.
  intros Hin Hr.
  destruct (parse_listed _ _ _ _ Hin Hr) as (l & Hu & Hfrom).
  pose proof Hfrom as (_ & _ & _ & Hconf).
  exists l. split; [exact Hu|]. split; [exact Hfrom|]. split.
  { destruct (ParserFacts.percent_cases l) as [(Hn & _)|(a & ds & b & m & Hf & _)];
      [left; exact Hn|right; exists a, ds, b; exact Hf]. }
  split.
  - intros Hn. rewrite Hconf, (ParserFacts.confidence_of_none Hn).
    vm_compute. reflexivity.
  - intros a ds b Hf Hp. rewrite Hconf, (ParserFacts.confidence_of_first Hf).
    apply (NumberFacts.percent_round Hp).
Qed.

Lemma confidence_bar_round_trip_witness :
  let r' := mkCodeResult (of_string "E11.9") (of_string "Type 2 diabetes mellitus")
                        (Number.percent 92) (of_string "ICD-10-CM")
                        (Some (of_string "E11")) (Some (of_string "Type 2 diabetes")) in
  let e10 := mkCodeResult (of_string "E10") (of_string "Type 1 diabetes")
                        Number.half (of_string "ICD-10-CM") None None in
  exists l, under_header (split_lines sample) (of_string "ICD-10-CM") l
    /\ from_line (of_string "ICD-10-CM") l r'
    /\ (no_percent l \/ exists a ds b, first_percent l a ds b)
    /\ (no_percent l -> pct (confidence r') = Number.of_Z 50)
    /\ (forall a ds b, first_percent l a ds b -> (decimal ds <= 1000)%N ->
          pct (confidence r') = Number.of_Z (Z.of_N (decimal ds))).
Proof.
  intros r' e10.
  apply (@confidence_bar_round_trip sample (of_string "ICD-10-CM") [r'; e10] r').
  - vm_compute. left. reflexivity.
  - left. reflexivity.
Defined.

(** *** The summary *)

Lemma summary_line_nonempty line : summary_line line = true -> line <> [].
Proof.
  unfold summary_line. intros H E. subst. discriminate.
Qed.

Lemma step_before_headers sm line :
  no_header line ->
  step (before_headers sm) line
  = before_headers (if summary_line line
                    then sm ++ (if truthy sm then [10%N] else []) ++ line
                    else sm).
Proof.
  intros Hn. unfold step. rewrite Hn.
  assert (Hr : result_line (before_headers sm) line
               = add_summary (before_headers sm) line) by reflexivity.
  assert (Ha : add_summary (before_headers sm) line
               = before_headers (if summary_line line
                                 then sm ++ (if truthy sm then [10%N] else []) ++ line
                                 else sm)).
  { unfold add_summary, summary_line. simpl.
    destruct (truthy (trim line) && _ && _); reflexivity. }
  destruct (parentMatch line) as [[pc pd]|]; simpl; rewrite Hr; exact Ha.
Qed.

Lemma run_before_headers lines : forall done,
  Forall no_header lines ->
  run lines (before_headers (join [10%N] (filter summary_line done)))
  = before_headers (join [10%N] (filter summary_line (done ++ lines))).
Proof.
  induction lines as [|line lines IH]; intros done Hall; simpl.
  - rewrite app_nil_r. reflexivity.
  - inversion Hall as [|? ? Hl Hls]; subst.
    rewrite (step_before_headers _ Hl).
    replace (done ++ line :: lines) with ((done ++ [line]) ++ lines)
      by (rewrite <- app_assoc; reflexivity).
    rewrite <- (IH (done ++ [line]) Hls). f_equal. f_equal.
    rewrite filter_app. simpl.
    destruct (summary_line line) eqn:Ek; [|rewrite app_nil_r; reflexivity].
    rewrite join_snoc.
    destruct (filter summary_line done) as [|x t] eqn:Ef; [reflexivity|].
    assert (Hne : join [10%N] (x :: t) <> []).
    { apply join_nonempty; [discriminate|]. rewrite <- Ef.
      apply Forall_forall. intros y Hy. apply filter_In in Hy.
      apply summary_line_nonempty, Hy. }
    apply truthy_iff in Hne. rewrite Hne. reflexivity.
Qed.

Lemma step_in_results st line :
  inResults st = true ->
  inResults (step st line) = true /\ summary (step st line) = summary st.
Proof.
  intros Hi. unfold step.
  destruct (systemMatch line); [simpl; auto|].
  assert (Ha : inResults (add_summary st line) = true
               /\ summary (add_summary st line) = summary st).
  { unfold add_summary. rewrite Hi. simpl. auto. }
  assert (Hr : inResults (result_line st line) = true
               /\ summary (result_line st line) = summary st).
  { unfold result_line. destruct (_ && _); [|exact Ha].
    destruct (codeMatch line); [|exact Ha].
    destruct (displayMatch line); [|exact Ha]. simpl. auto. }
  destruct (parentMatch line) as [[pc pd]|]; [|exact Hr].
  destruct (lastResult st); [simpl; auto|exact Hr].
Qed.

Lemma run_in_results lines : forall st,
  inResults st = true -> summary (run lines st) = summary st.
Proof.
  induction lines as [|line lines IH]; intros st Hi; simpl; [reflexivity|].
  destruct (step_in_results st line Hi) as (Hi' & Hs).
  rewrite (IH _ Hi'). exact Hs.
Qed.

(** X4.  The summary is made of the lines before the first header, and of
    nothing after it: it is the lines of that part that are not blank and
    start neither with [---] nor with [*Searched:], joined by line feeds. *)
Theorem parse_summary (s : jstring) (pre rest : list jstring) :
  split_lines s = pre ++ rest ->
  Forall no_header pre ->
  match rest with [] => True | h :: _ => systemMatch h <> None end ->
  p_summary (parseCodeResults s) = join [10%N] (filter summary_line pre).
Proof.
  intros Es Hpre Hrest. unfold parseCodeResults. simpl. rewrite Es.
  unfold run. rewrite fold_left_app. fold (run pre init).
  change init with (before_headers (join [10%N] (filter summary_line []))).
  rewrite (run_before_headers [] Hpre). simpl.
  destruct rest as [|h rest]; [reflexivity|]. simpl.
  fold (run rest (step (before_headers (join [10%N] (filter summary_line pre))) h)).
  rewrite run_in_results.
  - unfold step. destruct (systemMatch h); [reflexivity|congruence].
  - unfold step. destruct (systemMatch h); [reflexivity|congruence].
Qed.

Lemma parse_summary_witness :
  p_summary (parseCodeResults sample) = of_string "Found codes for diabetes.".
Proof.
  rewrite (@parse_summary sample
             [of_string "Found codes for diabetes."; of_string "---"]
             (skipn 2 (split_lines sample))).
  - vm_compute. reflexivity.
  - vm_compute. reflexivity.
  - repeat constructor; vm_compute; reflexivity.
  - vm_compute. discriminate.
Defined.

(** *** The hierarchy fields *)

Lemma parent_from_more ls line r : parent_from ls r -> parent_from (ls ++ [line]) r.
Proof.
  intros [H|(l & pc & pd & Hl & H)]; [left; exact H|].
  right. exists l, pc, pd. split; [apply in_or_app; auto|exact H].
Qed.

Lemma parent_step ls line st :
  (forall a r, nth_error (heap st) a = Some r -> parent_from ls r) ->
  forall a r, nth_error (heap (step st line)) a = Some r ->
              parent_from (ls ++ [line]) r.
Proof.
  intros Hinv.
  assert (Hsame : forall a r, nth_error (heap st) a = Some r ->
                              parent_from (ls ++ [line]) r).
  { intros a r H. apply parent_from_more. eapply Hinv, H. }
  assert (Ha : forall a r, nth_error (heap (add_summary st line)) a = Some r ->
                           parent_from (ls ++ [line]) r).
  { destruct (add_summary_frame st line) as (-> & _). exact Hsame. }
  assert (Hr : forall a r, nth_error (heap (result_line st line)) a = Some r ->
                           parent_from (ls ++ [line]) r).
  { unfold result_line. destruct (_ && _); [|exact Ha].
    destruct (codeMatch line); [|exact Ha].
    destruct (displayMatch line); [|exact Ha]. simpl. intros a r H.
    destruct (Nat.lt_ge_cases a (length (heap st))) as [Hlt|Hge].
    - rewrite nth_error_app1 in H by exact Hlt. eapply Hsame, H.
    - rewrite nth_error_app2 in H by exact Hge.
      destruct (a - length (heap st)) as [|n]; simpl in H.
      + inversion H; subst. left. auto.
      + destruct n; discriminate. }
  unfold step. destruct (systemMatch line); [exact Hsame|].
  destruct (parentMatch line) as [[pc pd]|] eqn:Ep; [|exact Hr].
  destruct (lastResult st) as [b|]; [|exact Hr].
  simpl. intros a r H. rewrite heap_update_nth in H.
  destruct (Nat.eqb a b); [|eapply Hsame, H].
  destruct (nth_error (heap st) a) as [r0|]; [|discriminate].
  simpl in H. inversion H; subst.
  right. exists line, pc, pd. simpl.
  split; [apply in_or_app; simpl; auto|auto].
Qed.

Lemma parent_run lines : forall ls st,
  (forall a r, nth_error (heap st) a = Some r -> parent_from ls r) ->
  forall a r, nth_error (heap (run lines st)) a = Some r ->
              parent_from (ls ++ lines) r.
Proof.
  induction lines as [|line lines IH]; intros ls st Hinv; simpl.
  - rewrite app_nil_r. exact Hinv.
  - replace (ls ++ line :: lines) with ((ls ++ [line]) ++ lines)
      by (rewrite <- app_assoc; reflexivity).
    apply IH. apply parent_step. exact Hinv.
Qed.

Lemma parentMatch_quoted l pc pd :
  parentMatch l = Some (pc, pd) ->
  infix (of_string "Parent:") l /\ infix (quoted pc) l /\ pc <> [] /\ pd <> [].
Proof.
  unfold parentMatch, exec. intros H.
  destruct (search_from parentRe 0 l) as [m|] eqn:E; [|discriminate].
  apply search_from_sound in E. destruct E as (a & b & -> & Hs).
  unfold parentRe in Hs. cbn [rseq fold_right] in Hs.
  split_seq Hs s1 H1. split_seq Hs s2 H2. split_seq Hs s3 H3.
  split_seq Hs s4 H4. split_seq Hs s5 H5. split_seq Hs s6 H6.
  split_seq Hs s7 H7. split_seq Hs s8 H8. split_seq Hs s9 H9.
  split_seq Hs s10 H10. split_seq Hs s11 H11. split_seq Hs s12 H12.
  split_seq Hs s13 H13. split_seq Hs s14 H14. end_seq Hs s14.
  apply sem_consumes in H1. destruct H1 as (w1 & E1 & _).
  apply sem_consumes in H2. destruct H2 as (w2 & E2 & _).
  apply sem_consumes in H3. destruct H3 as (w3 & E3 & _).
  apply sem_consumes in H4. destruct H4 as (w4 & E4 & _).
  apply sem_consumes in H5. destruct H5 as (w5 & E5 & _).
  apply sem_consumes in H6. destruct H6 as (w6 & E6 & _).
  apply sem_rlit_inv in H7. destruct H7 as (E7 & _).
  apply sem_consumes in H8. destruct H8 as (w8 & E8 & _).
  apply sem_rlit_inv in H9. destruct H9 as (E9 & _).
  apply sem_group_inv in H10. destruct H10 as (g1 & H10 & E10 & _ & C10).
  apply sem_rplus_inv in H10. destruct H10 as (x & w & _ & _ & E10' & _).
  apply sem_rlit_inv in H11. destruct H11 as (E11 & C11).
  apply sem_star_inv in H12. destruct H12 as (w12 & _ & E12 & _ & C12).
  apply sem_group_inv in H13. destruct H13 as (g2 & H13 & E13 & _ & C13).
  apply sem_rplus_inv in H13. destruct H13 as (y & v & _ & _ & E13' & C13').
  inversion H14; subst.
  change (of_string "`") with [96%N] in *.
  unfold group in H. rewrite C13 in H. simpl in H.
  rewrite C13', C12, C11, C10 in H. simpl in H.
  rewrite E10', E13', !consumed_app in H. inversion H; subst pc pd; clear H.
  simpl in E1.
  repeat split; try discriminate.
  - exists (a ++ w1 ++ w2 ++ w3 ++ w4 ++ w5 ++ w6), (rest s7).
    rewrite E1, E2, E3, E4, E5, E6, E7, <- !app_assoc. reflexivity.
  - exists (a ++ w1 ++ w2 ++ w3 ++ w4 ++ w5 ++ w6 ++ of_string "Parent:" ++ w8),
           (rest s11).
    unfold quoted.
    rewrite E1, E2, E3, E4, E5, E6, E7, E8, E9, E10', <- E10, E11.
    simpl. rewrite <- !app_assoc. reflexivity.
Qed.

(** X5.  The two hierarchy fields of a returned result are either both
    absent, or both taken from one hierarchy line of the text: the parent
    code stands between backticks on that line, after [Parent:], and the
    parent display is the rest of the line with white space cut off both
    ends. *)
Theorem parse_parent (s sys : jstring) (rs : list CodeResult) (r : CodeResult) :
  In (sys, rs) (p_systems (parseCodeResults s)) -> In r rs ->
  (parentCode r = None /\ parentDisplay r = None)
  \/ exists l pc pd,
       In l (split_lines s) /\ parentMatch l = Some (pc, pd)
       /\ parentCode r = Some pc /\ parentDisplay r = Some (trim pd)
       /\ infix (of_string "Parent:") l /\ infix (quoted pc) l /\ pc <> []
       /\ trimmed (trim pd).
Proof.
  unfold parseCodeResults. simpl. intros Hin Hr.
  apply in_map_iff in Hin. destruct Hin as ([k refs] & E & Hin).
  simpl in E. inversion E; subst; clear E.
  unfold deref in Hr. apply in_flat_map in Hr. destruct Hr as (a & Ha & Hr).
  destruct (nth_error (heap (run (split_lines s) init)) a) as [r'|] eqn:En;
    [|destruct Hr].
  destruct Hr as [<-|[]].
  assert (Hp : parent_from ([] ++ split_lines s) r').
  { eapply (@parent_run (split_lines s) [] init); [|exact En].
    intros b x Hb. destruct b; discriminate. }
  simpl in Hp. destruct Hp as [Hn|(l & pc & pd & Hl & Hm & Hc & Hd)]; [left; exact Hn|].
  right. exists l, pc, pd.
  destruct (parentMatch_quoted _ Hm) as (Hi1 & Hi2 & Hne & _).
  repeat split; auto; apply trim_trimmed.
Qed.

Lemma parse_parent_witness :
  let r := mkCodeResult (of_string "E11.9") (of_string "Type 2 diabetes mellitus")
                        (Number.percent 92) (of_string "ICD-10-CM")
                        (Some (of_string "E11")) (Some (of_string "Type 2 diabetes")) in
  let e10 := mkCodeResult (of_string "E10") (of_string "Type 1 diabetes")
                        Number.half (of_string "ICD-10-CM") None None in
  (parentCode r = None /\ parentDisplay r = None)
  \/ exists l pc pd,
       In l (split_lines sample) /\ parentMatch l = Some (pc, pd)
       /\ parentCode r = Some pc /\ parentDisplay r = Some (trim pd)
       /\ infix (of_string "Parent:") l /\ infix (quoted pc) l /\ pc <> []
       /\ trimmed (trim pd).
Proof.
  intros r e10.
  apply (@parse_parent sample (of_string "ICD-10-CM") [r; e10] r).
  - vm_compute. left. reflexivity.
  - left. reflexivity.
Defined.
End ResultCardFacts.

(** ** The message views *)

Module MessageViewFacts.
Import JS JSMore Regex RegexFacts Parser ParserFacts JSFacts MessageView.

Lemma find_from_sound r : forall w p i m,
  find_from r p w = Some (i, m) ->
  exists a b, w = a ++ b /\ i = p + length a /\ sem r (MState i b []) m.
Proof.
  induction w as [|x w IH]; intros p i m H; simpl in H.
  - destruct (rmatch r (MState p [] []) Some) eqn:E; [|discriminate].
    inversion H; subst. destruct (rmatch_sound _ _ _ E) as (st' & Hs & Hk).
    inversion Hk; subst. exists [], []. simpl. rewrite Nat.add_0_r. auto.
  - destruct (rmatch r (MState p (x :: w) []) Some) eqn:E.
    + inversion H; subst. destruct (rmatch_sound _ _ _ E) as (st' & Hs & Hk).
      inversion Hk; subst. exists [], (x :: w). simpl. rewrite Nat.add_0_r. auto.
    + destruct (IH _ _ _ H) as (a & b & -> & -> & Hs).
      exists (x :: a), b. simpl. rewrite Nat.add_succ_r. auto.
Qed.

Lemma find_from_complete r w p m :
  sem r (MState p w []) m -> exists i m', find_from r p w = Some (i, m').
Proof.
  intros Hs. destruct (rmatch_complete Hs Some eq_refl) as (m' & Hm').
  exists p, m'. destruct w; simpl; rewrite Hm'; reflexivity.
Qed.

(** [match[0]] is the text of a run of the pattern inside the string. *)
Lemma match0_sound r s t :
  match0 r s = Some t ->
  exists a m, s = a ++ t ++ rest m /\ sem r (MState (length a) (t ++ rest m) []) m.
Proof.
  unfold match0. intros H.
  destruct (find_from r 0 s) as [[i m]|] eqn:E; [|discriminate].
  apply find_from_sound in E. destruct E as (a & b & -> & -> & Hs).
  destruct (sem_consumes Hs) as (w & Ew & Pw). simpl in Ew, Pw.
  inversion H; subst t; clear H.
  exists a, m. rewrite Pw. simpl.
  replace (length a + length w - length a) with (length w) by lia.
  rewrite skipn_app, skipn_all, Nat.sub_diag. simpl.
  rewrite Ew, firstn_app, firstn_all, Nat.sub_diag. simpl. rewrite app_nil_r.
  split; [reflexivity|]. rewrite <- Ew. exact Hs.
Qed.

Lemma sem_lit_intro l : forall p t c,
  sem (fold_right (fun c r => Seq (Chr (is_char c)) r) Eps l)
      (MState p (l ++ t) c) (MState (p + length l) t c).
Proof.
  induction l as [|x l IH]; intros p t c; simpl.
  - rewrite Nat.add_0_r. constructor.
  - eapply sem_seq.
    + apply sem_chr. unfold is_char. apply N.eqb_refl.
    + rewrite Nat.add_succ_r. apply (IH (S p)).
Qed.

Lemma sem_rlit_intro s p t c :
  sem (rlit s) (MState p (of_string s ++ t) c) (MState (p + length (of_string s)) t c).
Proof. apply sem_lit_intro. Qed.

Lemma sem_bol_inv st st' : sem Bol st st' -> st' = st /\ pos st = 0.
Proof. inversion 1; subst; auto. Qed.

Lemma sem_ropt_inv a st st' :
  sem (ropt a) st st' -> sem a st st' \/ st' = st.
Proof.
  unfold ropt. inversion 1; subst; [left; assumption|right].
  apply sem_eps_inv. assumption.
Qed.

(** X6. [extractResultCount] returns the start of the content and nothing
    else: when it returns a label, the label is the word Found, a non-empty
    run of decimal digits and the word result, with or without its plural s,
    and the content starts with it.  It returns [null] only for a content
    that does not start that way. *)
Theorem extractResultCount_prefix (content : jstring) :
  match extractResultCount content with
  | Some t =>
      exists ds s tail,
        ds <> [] /\ Forall (fun c => is_digit c = true) ds
        /\ (s = [] \/ s = of_string "s")
        /\ t = of_string "Found " ++ ds ++ of_string " result" ++ s
        /\ content = t ++ tail
  | None =>
      forall ds tail,
        ds <> [] -> Forall (fun c => is_digit c = true) ds ->
        content <> of_string "Found " ++ ds ++ of_string " result" ++ tail
  end.
Proof.
  unfold extractResultCount.
  destruct (match0 foundRe content) as [t|] eqn:E.
  - apply match0_sound in E. destruct E as (a & m & Ec & Hs).
    unfold foundRe in Hs. cbn [rseq fold_right] in Hs.
    split_seq Hs s1 H1. split_seq Hs s2 H2. split_seq Hs s3 H3.
    split_seq Hs s4 H4. split_seq Hs s5 H5. end_seq Hs s5.
    apply sem_bol_inv in H1. destruct H1 as (-> & Hp). simpl in Hp.
    destruct a; [|discriminate]. simpl in Ec. clear Hp.
    apply sem_rlit_inv in H2. destruct H2 as (E2 & _). simpl in E2.
    apply sem_group_inv in H3. destruct H3 as (s3' & H3 & E3 & _ & _).
    apply sem_rplus_inv in H3. destruct H3 as (x & w & Hx & Hw & E3' & _).
    apply sem_rlit_inv in H4. destruct H4 as (E4 & _).
    assert (Hds : Forall (fun c => is_digit c = true) (x :: w))
      by (constructor; assumption).
    assert (Et : forall s, rest s4 = s ++ rest m ->
              t = of_string "Found " ++ (x :: w) ++ of_string " result" ++ s).
    { intros s Es. apply (app_inv_tail (rest m)).
      rewrite E2, E3', <- E3, E4, Es. rewrite <- !app_assoc. reflexivity. }
    apply sem_ropt_inv in H5. destruct H5 as [H5|H5].
    + apply sem_rlit_inv in H5. destruct H5 as (E5 & _).
      exists (x :: w), (of_string "s"), (rest m).
      repeat split; [discriminate|exact Hds|right; reflexivity|exact (Et _ E5)|exact Ec].
    + exists (x :: w), [], (rest m).
      repeat split; [discriminate|exact Hds|left; reflexivity| |exact Ec].
      apply Et. rewrite H5. reflexivity.
  - intros ds tail Hne Hds Ec.
    destruct ds as [|x w]; [congruence|]. inversion Hds as [|? ? Hx Hw]; subst.
    assert (Hs : exists m, sem foundRe
                   (MState 0 (of_string "Found "
                                ++ (x :: w ++ (of_string " result" ++ tail))) []) m).
    { eexists. unfold foundRe. cbn [rseq fold_right].
      eapply sem_seq; [apply sem_bol; reflexivity|].
      eapply sem_seq; [apply sem_rlit_intro|].
      eapply sem_seq.
      { apply sem_group. unfold rplus.
        eapply sem_seq; [apply sem_chr; exact Hx|apply sem_star; exact Hw]. }
      cbn [pos rest caps].
      eapply sem_seq; [apply sem_rlit_intro|].
      eapply sem_seq; [apply sem_alt_r; apply sem_eps|apply sem_eps]. }
    destruct Hs as (m & Hs).
    destruct (find_from_complete Hs) as (i & m' & Hf).
    unfold match0 in E.
    replace (of_string "Found " ++ (x :: w) ++ of_string " result" ++ tail)
      with (of_string "Found " ++ (x :: w ++ (of_string " result" ++ tail))) in E
      by reflexivity.
    rewrite Hf in E. discriminate.
Qed.

(** X7. The live view and the history view of a message choose the same
    branch, except for a thinking block that also holds a results header:
    the live view shows its result cards, the history view folds it away. *)
Theorem views_agree (isUser : bool) (content : jstring) :
  (message_view isUser content = historical_view isUser content
   /\ (isUser = true \/ isThinkingBlock content = false
       \/ hasCodeResults content = false))
  \/ (isUser = false /\ isThinkingBlock content = true
      /\ hasCodeResults content = true
      /\ message_view isUser content = ResultsView
      /\ historical_view isUser content = ThinkingView).
Proof.
  unfold message_view, historical_view.
  destruct isUser; simpl; [left; auto|].
  destruct (isThinkingBlock content), (hasCodeResults content); simpl; auto 10.
Qed.

End MessageViewFacts.

(** ** The steps of a conversation *)

Module StepsFacts.
Import JS JSMore JSFacts Steps.

(** Induction on a step and, with it, on the steps nested in it. *)
Lemma IStep_nested_ind (P : IStep -> Prop) :
  (forall i n t o, P (Step i n t o None)) ->
  (forall i n t o l, Forall P l -> P (Step i n t o (Some l))) ->
  forall s, P s.
Proof.
  intros Hn Hs. fix IH 1. intros [i n t o [l|]]; [apply Hs|apply Hn].
  induction l as [|x l IHl]; constructor; [apply IH|exact IHl].
Qed.

Lemma flat_map_filter_nodes l :
  Forall (fun s => flatten_step s = filter has_output (nodes s)) l ->
  flat_map flatten_step l = filter has_output (flat_map nodes l).
Proof.
  induction 1 as [|s l Hs _ IH]; simpl; [reflexivity|].
  rewrite filter_app, Hs, IH. reflexivity.
Qed.

Lemma flatten_step_nodes s : flatten_step s = filter has_output (nodes s).
Proof.
  induction s as [i n t o|i n t o l IH] using IStep_nested_ind.
  - cbn [flatten_step nodes filter]. rewrite app_nil_r.
    destruct (has_output _); reflexivity.
  - cbn [flatten_step nodes filter].
    assert (E : (if Nat.ltb 0 (length l) then flat_map flatten_step l else [])
                = filter has_output (flat_map nodes l)).
    { destruct l as [|x l']; [reflexivity|].
      change (Nat.ltb 0 (length (x :: l'))) with true. cbv iota.
      apply flat_map_filter_nodes. exact IH. }
    rewrite E. destruct (has_output _); reflexivity.
Qed.

(** X8. [flattenSteps] returns the steps of the forest that have a
    non-blank output, each one as often as it occurs, a step before the
    steps nested in it: no such step is lost at any depth, and no step
    without output is kept. *)
Theorem flattenSteps_nodes (steps : list IStep) :
  flattenSteps steps = filter has_output (flat_map nodes steps).
Proof.
  unfold flattenSteps. apply flat_map_filter_nodes.
  apply Forall_forall. intros s _. apply flatten_step_nodes.
Qed.

Lemma has_output_content m : has_output m = true -> content_of m <> [].
Proof.
  unfold has_output, content_of. destruct (step_output m) as [o|]; [|discriminate].
  rewrite andb_true_iff. intros (_ & H). apply truthy_iff. exact H.
Qed.

End StepsFacts.

(** ** The history sync *)

Module SyncFacts.
Import JS JSMore JSFacts MapFacts Parser Steps StepsFacts Sync.

Local Unset Implicit Arguments.

Lemma sync_role_content s role : sync_role s = Some role -> content_of s <> [].
Proof.
  unfold sync_role. intros H.
  destruct (jeqb (step_type s) (of_string "user_message") && truthy (content_of s))
    eqn:Hu.
  - apply andb_prop in Hu. apply truthy_iff. tauto.
  - destruct (isWelcomeMessage (content_of s)); [discriminate|].
    destruct (Nat.ltb 20 (length (content_of s))) eqn:Hl; [|discriminate].
    apply Nat.ltb_lt in Hl. intros E. rewrite E in Hl. simpl in Hl. lia.
Qed.

(** One iteration either passes over the step or marks it as processed and,
    unless it is the welcome message, stores it under the live thread. *)
Lemma sync_step_cases live r a s :
  (settled live r s /\ sync_step live (r, a) s = (r, a))
  \/ (exists r' a',
        sync_step live (r, a) s = (r', a')
        /\ processed r (step_id s) = false
        /\ assignable live r s
        /\ processedIds r' = processedIds r ++ [step_id s]
        /\ isSwitching r' = isSwitching r
        /\ prevThreadId r' = prevThreadId r
        /\ ((messageThreadMap r' = messageThreadMap r /\ a' = a)
            \/ (exists role,
                  sync_role s = Some role
                  /\ messageThreadMap r'
                     = map_set (step_id s) live (messageThreadMap r)
                  /\ a' = a ++ [AddMessage live role (content_of s)]))).
Proof.
  unfold sync_step, settled, assignable.
  destruct (processed r (step_id s)) eqn:Hp; [left; auto|].
  destruct (map_get (step_id s) (messageThreadMap r)) as [t|] eqn:Hg.
  - destruct (truthy t && negb (jeqb t live)) eqn:Ht.
    + left. split; [|reflexivity]. right. left. exists t.
      apply andb_prop in Ht. destruct Ht as (Ht1 & Ht2).
      apply negb_true_iff in Ht2. auto.
    + assert (Ha : forall t0, Some t = Some t0 -> t0 = [] \/ t0 = live).
      { intros t0 E. inversion E; subst t0.
        apply andb_false_iff in Ht. destruct Ht as [Ht|Ht].
        - left. destruct t; [reflexivity|discriminate].
        - right. apply negb_false_iff in Ht. apply jeqb_eq_iff. exact Ht. }
      unfold sync_role.
      destruct (jeqb (step_type s) (of_string "user_message")
                && truthy (content_of s)) eqn:Hu.
      * right. do 2 eexists. split; [reflexivity|]. simpl.
        repeat split; auto. right. eauto.
      * destruct (isWelcomeMessage (content_of s)) eqn:Hw.
        -- right. do 2 eexists. split; [reflexivity|]. simpl.
           repeat split; auto.
        -- destruct (Nat.ltb 20 (length (content_of s))) eqn:Hl.
           ++ right. do 2 eexists. split; [reflexivity|]. simpl.
              repeat split; auto. right. eauto.
           ++ left. auto.
  - assert (Ha : forall t0, @None jstring = Some t0 -> t0 = [] \/ t0 = live)
      by discriminate.
    unfold sync_role.
    destruct (jeqb (step_type s) (of_string "user_message")
              && truthy (content_of s)) eqn:Hu.
    + right. do 2 eexists. split; [reflexivity|]. simpl.
      repeat split; auto. right. eauto.
    + destruct (isWelcomeMessage (content_of s)) eqn:Hw.
      * right. do 2 eexists. split; [reflexivity|]. simpl.
        repeat split; auto.
      * destruct (Nat.ltb 20 (length (content_of s))) eqn:Hl.
        -- right. do 2 eexists. split; [reflexivity|]. simpl.
           repeat split; auto. right. eauto.
        -- left. auto.
Qed.

Lemma settled_skip live r a s :
  settled live r s -> sync_step live (r, a) s = (r, a).
Proof.
  unfold settled, sync_step. intros [Hp|[(t & Hg & Ht & Hl)|(Hn & Hw)]].
  - rewrite Hp. reflexivity.
  - destruct (processed r (step_id s)); [reflexivity|].
    rewrite Hg, Ht, Hl. reflexivity.
  - destruct (processed r (step_id s)); [reflexivity|].
    destruct (match map_get (step_id s) (messageThreadMap r) with
              | Some t => truthy t && negb (jeqb t live)
              | None => false
              end); [reflexivity|].
    unfold sync_role in Hn. rewrite Hw in *.
    destruct (jeqb (step_type s) (of_string "user_message")
              && truthy (content_of s)); [discriminate|].
    destruct (Nat.ltb 20 (length (content_of s))); [discriminate|reflexivity].
Qed.

Lemma processed_step live r a s r' a' id :
  sync_step live (r, a) s = (r', a') ->
  processed r id = true ->
  processed r' id = true
  /\ map_get id (messageThreadMap r') = map_get id (messageThreadMap r).
Proof.
  intros E Hp.
  destruct (sync_step_cases live r a s)
    as [(_ & E0)|(r1 & a1 & E1 & Hf & _ & Hids & _ & _ & Ho)].
  - rewrite E0 in E. inversion E; subst. auto.
  - rewrite E1 in E. inversion E; subst r1 a1. split.
    + unfold processed in *. rewrite Hids, existsb_app, Hp. reflexivity.
    + destruct Ho as [(Et & _)|(role & _ & Et & _)]; rewrite Et; [reflexivity|].
      apply map_get_set_other. intros Heq. subst id. congruence.
Qed.

Lemma step_processed live r a s r' a' :
  sync_step live (r, a) s = (r', a') ->
  r' = r \/ processed r' (step_id s) = true.
Proof.
  intros E.
  destruct (sync_step_cases live r a s)
    as [(_ & E0)|(r1 & a1 & E1 & _ & _ & Hids & _)].
  - rewrite E0 in E. inversion E; subst. auto.
  - rewrite E1 in E. inversion E; subst r1 a1. right.
    unfold processed. rewrite Hids, existsb_app. simpl.
    rewrite jeqb_same. apply orb_true_r.
Qed.

Lemma fresh_step live r a s r' a' id :
  sync_step live (r, a) s = (r', a') ->
  processed r' id = false ->
  processed r id = false
  /\ map_get id (messageThreadMap r') = map_get id (messageThreadMap r).
Proof.
  intros E Hp. split.
  - destruct (processed r id) eqn:Hr; [|reflexivity].
    destruct (processed_step _ _ _ _ _ _ _ E Hr). congruence.
  - destruct (step_processed _ _ _ _ _ _ E) as [->|Hs]; [reflexivity|].
    destruct (sync_step_cases live r a s)
      as [(_ & E0)|(r1 & a1 & E1 & _ & _ & _ & _ & _ & Ho)].
    + rewrite E0 in E. inversion E; subst. reflexivity.
    + rewrite E1 in E. inversion E; subst r1 a1.
      destruct Ho as [(Et & _)|(role & _ & Et & _)]; rewrite Et; [reflexivity|].
      apply map_get_set_other. intros Heq. subst id. congruence.
Qed.

Lemma flags_step live r a s r' a' :
  sync_step live (r, a) s = (r', a') ->
  isSwitching r' = isSwitching r /\ prevThreadId r' = prevThreadId r.
Proof.
  intros E.
  destruct (sync_step_cases live r a s)
    as [(_ & E0)|(r1 & a1 & E1 & _ & _ & _ & Hsw & Hpv & _)].
  - rewrite E0 in E. inversion E; subst. auto.
  - rewrite E1 in E. inversion E; subst r1 a1. auto.
Qed.

Lemma settled_step live r a s r' a' s0 :
  sync_step live (r, a) s = (r', a') -> settled live r s0 -> settled live r' s0.
Proof.
  intros E [Hp|[(t & Hg & Ht & Hl)|H3]].
  - left. exact (proj1 (processed_step _ _ _ _ _ _ _ E Hp)).
  - destruct (processed r' (step_id s0)) eqn:Hp'; [left; exact Hp'|].
    right. left. exists t.
    destruct (fresh_step _ _ _ _ _ _ _ E Hp') as (_ & Em). rewrite Em. auto.
  - right. right. exact H3.
Qed.

Lemma step_settles live r a s r' a' :
  sync_step live (r, a) s = (r', a') -> settled live r' s.
Proof.
  intros E. destruct (step_processed _ _ _ _ _ _ E) as [->|Hp]; [|left; exact Hp].
  destruct (sync_step_cases live r a s)
    as [(Hs & _)|(r1 & a1 & E1 & Hf & _ & Hids & _)]; [exact Hs|].
  rewrite E1 in E. inversion E; subst r1 a1. left.
  unfold processed. rewrite Hids, existsb_app. simpl.
  rewrite jeqb_same. apply orb_true_r.
Qed.

(** The loop as a whole. *)
Lemma sync_fold live : forall steps r a r' a',
  fold_left (sync_step live) steps (r, a) = (r', a') ->
  isSwitching r' = isSwitching r
  /\ prevThreadId r' = prevThreadId r
  /\ (forall id, processed r id = true ->
        processed r' id = true
        /\ map_get id (messageThreadMap r') = map_get id (messageThreadMap r))
  /\ (forall id, processed r' id = false ->
        processed r id = false
        /\ map_get id (messageThreadMap r') = map_get id (messageThreadMap r))
  /\ (forall s0, settled live r s0 -> settled live r' s0)
  /\ Forall (settled live r') steps
  /\ exists new, a' = a ++ new /\ Forall (synced_by live r r' steps) new.
Proof.
  induction steps as [|s steps IH]; intros r a r' a' E; cbn [fold_left] in E.
  - inversion E; subst. repeat split; auto.
    exists []. rewrite app_nil_r. auto.
  - destruct (sync_step live (r, a) s) as [r1 a1] eqn:E1.
    destruct (IH _ _ _ _ E)
      as (Hsw & Hpv & Hmono & Hfresh & Hset & Hall & new & Ea & Hnew).
    destruct (flags_step _ _ _ _ _ _ E1) as (Hsw1 & Hpv1).
    assert (Hmono' : forall id, processed r id = true ->
              processed r' id = true
              /\ map_get id (messageThreadMap r') = map_get id (messageThreadMap r)).
    { intros id Hp. destruct (processed_step _ _ _ _ _ _ _ E1 Hp) as (Hp1 & Em1).
      destruct (Hmono _ Hp1) as (Hp2 & Em2). split; congruence. }
    assert (Hfresh' : forall id, processed r' id = false ->
              processed r id = false
              /\ map_get id (messageThreadMap r') = map_get id (messageThreadMap r)).
    { intros id Hp. destruct (Hfresh _ Hp) as (Hp1 & Em1).
      destruct (fresh_step _ _ _ _ _ _ _ E1 Hp1) as (Hp2 & Em2). split; congruence. }
    split; [congruence|]. split; [congruence|].
    split; [exact Hmono'|]. split; [exact Hfresh'|].
    split; [intros s0 H0; apply Hset; exact (settled_step _ _ _ _ _ _ _ E1 H0)|].
    split; [constructor; [apply Hset; exact (step_settles _ _ _ _ _ _ E1)|exact Hall]|].
    assert (Hlift : Forall (synced_by live r r' (s :: steps)) new).
    { eapply Forall_impl; [|exact Hnew].
      intros act (s' & role & Hin & Eact & Hr & Hp & Has & Hp' & Hg).
      destruct (fresh_step _ _ _ _ _ _ _ E1 Hp) as (Hp0 & Em).
      exists s', role. repeat split; auto.
      - right. exact Hin.
      - intros t Ht. apply Has. rewrite Em. exact Ht. }
    destruct (sync_step_cases live r a s)
      as [(_ & E0)|(r2 & a2 & E2 & Hf & Has & Hids & _ & _ & Ho)].
    + rewrite E0 in E1. inversion E1; subst r1 a1. exists new. auto.
    + rewrite E2 in E1. inversion E1; subst r2 a2.
      destruct Ho as [(_ & Ea1)|(role & Hr & Et & Ea1)].
      * subst a1. exists new. auto.
      * subst a1. exists (AddMessage live role (content_of s) :: new).
        split; [rewrite Ea, <- app_assoc; reflexivity|].
        constructor; [|exact Hlift].
        assert (Hp1 : processed r1 (step_id s) = true).
        { unfold processed. rewrite Hids, existsb_app. simpl.
          rewrite jeqb_same. apply orb_true_r. }
        destruct (Hmono _ Hp1) as (Hp2 & Em2).
        exists s, role. repeat split; auto.
        -- left. reflexivity.
        -- rewrite Em2, Et. apply map_get_set_same.
Qed.

Lemma fold_settled live steps : forall r a,
  Forall (settled live r) steps ->
  fold_left (sync_step live) steps (r, a) = (r, a).
Proof.
  induction steps as [|s steps IH]; intros r a H; cbn [fold_left]; [reflexivity|].
  inversion H as [|? ? Hs Hrest]; subst.
  rewrite (settled_skip _ _ a _ Hs). apply IH. exact Hrest.
Qed.

Lemma switched_same r live : prevThreadId r = live -> switched r live = false.
Proof.
  unfold switched. intros ->. destruct live as [l|]; [|reflexivity].
  rewrite jeqb_same. reflexivity.
Qed.

Lemma switched_false r t :
  switched r (Some t) = false -> prevThreadId r = None \/ prevThreadId r = Some t.
Proof.
  unfold switched. destruct (prevThreadId r) as [p|]; [|auto].
  intros H. apply negb_false_iff, jeqb_eq_iff in H. subst. auto.
Qed.

(** X9. Every call of [addMessage] the effect makes stores, under the live
    thread, the trimmed non-empty output of one of the flattened steps: the
    step was not processed before the run and is processed after it, it was
    not assigned to another thread, and the map now remembers the live
    thread for it.  Calls are made only outside a thread switch. *)
Theorem sync_calls (r : refs) (i : inputs)
        (t : jstring) (role : ChatHistory.Role) (c : jstring) :
  In (AddMessage t role c) (snd (effect r i)) ->
  liveThreadId i = Some t /\ t <> [] /\ isSwitching r = false
  /\ (prevThreadId r = None \/ prevThreadId r = Some t)
  /\ exists s,
       In s (flattenSteps (messages i))
       /\ c = content_of s /\ c <> []
       /\ sync_role s = Some role
       /\ processed r (step_id s) = false
       /\ assignable t r s
       /\ processed (fst (effect r i)) (step_id s) = true
       /\ map_get (step_id s) (messageThreadMap (fst (effect r i))) = Some t.
Proof.
  unfold effect.
  destruct (switched r (liveThreadId i)) eqn:Hsw.
  { simpl. intros [H|[]]. discriminate. }
  cbn [isSwitching].
  destruct (isSwitching r) eqn:Hpause.
  { simpl. intros []. }
  destruct (liveThreadId i) as [live|] eqn:Hlive.
  2:{ destruct (Nat.eqb (threads_length i) 0); simpl.
      - intros [H|[]]. discriminate.
      - intros []. }
  destruct (truthy live) eqn:Ht.
  2:{ destruct (Nat.eqb (threads_length i) 0); simpl.
      - intros [H|[]]. discriminate.
      - intros []. }
  set (r1 := mkRefs (processedIds r) (messageThreadMap r) false (Some live)).
  destruct (fold_left (sync_step live) (flattenSteps (messages i)) (r1, []))
    as [r' a'] eqn:E.
  cbn [fst snd]. intros Hin.
  destruct (sync_fold _ _ _ _ _ _ E) as (_ & _ & _ & _ & _ & _ & new & Ea & Hnew).
  simpl in Ea. subst a'.
  rewrite Forall_forall in Hnew.
  destruct (Hnew _ Hin) as (s & role' & Hs & Eact & Hr & Hp & Has & Hp' & Hg).
  inversion Eact; subst t role' c.
  split; [reflexivity|]. split; [apply truthy_iff; exact Ht|].
  split; [reflexivity|]. split; [exact (switched_false _ _ Hsw)|].
  exists s. repeat split; auto.
  exact (sync_role_content _ _ Hr).
Qed.

Lemma sync_calls_witness :
  let s := Step (of_string "m1") (of_string "User") (of_string "user_message")
                (Some (of_string " chest pain ")) None in
  let i := mkInputs [s] (Some (of_string "t1")) 1 in
  In (AddMessage (of_string "t1") ChatHistory.user (of_string "chest pain"))
     (snd (effect initial i))
  /\ processed (fst (effect initial i)) (of_string "m1") = true.
Proof.
  intros s i.
  assert (H : In (AddMessage (of_string "t1") ChatHistory.user
                             (of_string "chest pain"))
                 (snd (effect initial i))) by (vm_compute; auto).
  split; [exact H|].
  destruct (sync_calls initial i _ _ _ H)
    as (_ & _ & _ & _ & s' & Hin & _ & _ & _ & _ & _ & Hp & _).
  destruct Hin as [<-|[]]. exact Hp.
Defined.

(** What a run of the effect leaves behind: the refs remember the live
    thread, and either syncing is paused, or there is no live thread, or
    every flattened step is settled. *)
Lemma effect_post r i :
  prevThreadId (fst (effect r i)) = liveThreadId i
  /\ (isSwitching (fst (effect r i)) = true
      \/ match liveThreadId i with
         | Some live =>
             truthy live = false
             \/ Forall (settled live (fst (effect r i))) (flattenSteps (messages i))
         | None => True
         end).
Proof.
  unfold effect.
  destruct (switched r (liveThreadId i)); [simpl; auto|].
  cbn [isSwitching].
  destruct (isSwitching r) eqn:Hpause; [simpl; auto|].
  destruct (liveThreadId i) as [live|] eqn:Hlive.
  2:{ destruct (Nat.eqb (threads_length i) 0); simpl; auto. }
  destruct (truthy live) eqn:Ht.
  2:{ destruct (Nat.eqb (threads_length i) 0); simpl; auto. }
  destruct (fold_left (sync_step live) (flattenSteps (messages i))
              (mkRefs (processedIds r) (messageThreadMap r) false (Some live), []))
    as [r' a'] eqn:E.
  cbn [fst].
  destruct (sync_fold _ _ _ _ _ _ E) as (_ & Hpv & _ & _ & _ & Hall & _).
  simpl in Hpv. auto.
Qed.

(** From such refs the effect does nothing but, without a live thread,
    ask for one. *)
Lemma effect_quiet r0 i n :
  prevThreadId r0 = liveThreadId i ->
  (isSwitching r0 = true
   \/ match liveThreadId i with
      | Some live =>
          truthy live = false \/ Forall (settled live r0) (flattenSteps (messages i))
      | None => True
      end) ->
  exists acts,
    effect r0 (mkInputs (messages i) (liveThreadId i) n) = (r0, acts)
    /\ (acts = [] \/ acts = [CreateThread]).
Proof.
  intros Hpv H.
  assert (Hrefs : mkRefs (processedIds r0) (messageThreadMap r0) (isSwitching r0)
                         (liveThreadId i) = r0).
  { destruct r0 as [ids tm sw pv]. simpl in *. subst pv. reflexivity. }
  unfold effect. cbn [liveThreadId messages threads_length].
  rewrite (switched_same _ _ Hpv), Hrefs.
  destruct (isSwitching r0); [eauto|].
  destruct H as [H|H]; [discriminate|].
  destruct (liveThreadId i) as [live|].
  - destruct (truthy live) eqn:Ht.
    + destruct H as [H|H]; [discriminate|].
      rewrite (fold_settled _ _ _ _ H). eauto.
    + destruct (Nat.eqb n 0); eauto.
  - destruct (Nat.eqb n 0); eauto.
Qed.

(** X10. Running the effect again with the same messages and the same live
    thread changes nothing and adds no message, whatever the refs were
    before the first run: no step is stored twice by a repeated run. *)
Theorem sync_rerun (r : refs) (i : inputs) (n : nat) :
  fst (effect (fst (effect r i)) (mkInputs (messages i) (liveThreadId i) n))
  = fst (effect r i)
  /\ forall t role c,
       ~ In (AddMessage t role c)
            (snd (effect (fst (effect r i))
                         (mkInputs (messages i) (liveThreadId i) n))).
Proof.
  destruct (effect_post r i) as (Hpv & H).
  destruct (effect_quiet _ _ n Hpv H) as (acts & E & Ha).
  rewrite E. split; [reflexivity|]. intros t role c. cbn [snd].
  destruct Ha as [->| ->]; simpl; [tauto|]. intros [Hc|[]]. discriminate.
Qed.

(** X11. For a step with output, the live display and the history sync take
    the same steps, with two exceptions: an assistant message of at most 20
    characters is shown but not stored, and a user message that holds the
    welcome text is stored but not shown. *)
Theorem shown_vs_synced (m : IStep) :
  has_output m = true ->
  (shown m = true /\ sync_role m = None
   <-> step_type m = of_string "assistant_message"
       /\ isWelcomeMessage (content_of m) = false
       /\ length (content_of m) <= 20)
  /\ (shown m = false /\ sync_role m <> None
      <-> step_type m = of_string "user_message"
          /\ isWelcomeMessage (content_of m) = true).
Proof.
  intros Ho. apply has_output_content, truthy_iff in Ho.
  unfold shown, sync_role. rewrite Ho, !andb_true_r.
  destruct (jeqb (step_type m) (of_string "user_message")) eqn:Hu.
  - apply jeqb_eq_iff in Hu. rewrite Hu.
    destruct (isWelcomeMessage (content_of m)); split; split;
      try solve [intros (H1 & H2); try discriminate; try congruence];
      try solve [intros (H1 & H2 & H3); try discriminate];
      intros _; split; congruence.
  - assert (Hne : step_type m <> of_string "user_message").
    { intros E. rewrite E, jeqb_same in Hu. discriminate. }
    destruct (isWelcomeMessage (content_of m)).
    + split; split; try solve [intros (H1 & H2); congruence];
        intros (H1 & H2 & H3); discriminate.
    + destruct (jeqb (step_type m) (of_string "assistant_message")) eqn:Ha.
      * apply jeqb_eq_iff in Ha.
        destruct (Nat.ltb 20 (length (content_of m))) eqn:Hl.
        -- apply Nat.ltb_lt in Hl. split; split;
             try solve [intros (H1 & H2); congruence];
             intros (H1 & H2 & H3); lia.
        -- apply Nat.ltb_ge in Hl. split; split;
             try solve [intros (H1 & H2); congruence]; auto.
      * assert (Hna : step_type m <> of_string "assistant_message").
        { intros E. rewrite E, jeqb_same in Ha. discriminate. }
        destruct (Nat.ltb 20 (length (content_of m))) eqn:Hl.
        -- assert (Hrun : (if jeqb (step_type m) (of_string "run")
                               && Nat.ltb 50 (length (content_of m))
                           then true else true) = true)
             by (destruct (_ && _); reflexivity).
           rewrite Hrun. split; split;
             try solve [intros (H1 & H2); congruence];
             intros (H1 & H2 & H3); congruence.
        -- assert (Hrun : jeqb (step_type m) (of_string "run")
                           && Nat.ltb 50 (length (content_of m)) = false).
           { apply andb_false_iff. right. apply Nat.ltb_ge.
             apply Nat.ltb_ge in Hl. lia. }
           rewrite Hrun. split; split;
             try solve [intros (H1 & H2); congruence];
             intros (H1 & H2 & H3); congruence.
Qed.

Lemma shown_vs_synced_witness :
  let m := Step (of_string "m2") (of_string "Assistant")
                (of_string "assistant_message") (Some (of_string "No results.")) None in
  shown m = true /\ sync_role m = None.
Proof.
  intros m.
  apply (proj1 (shown_vs_synced m eq_refl)).
  split; [reflexivity|split; [reflexivity|]]. vm_compute. lia.
Defined.

End SyncFacts.

(** ** The chat history store: names, selection, messages and groups *)

Module ChatHistoryMoreFacts.
Import JS JSMore JSFacts MapFacts ChatHistory ChatHistoryMore.

Local Unset Implicit Arguments.

Lemma filter_all A (f : A -> bool) l :
  Forall (fun x => f x = true) l -> filter f l = l.
Proof.
  induction 1 as [|x l Hx _ IH]; simpl; [reflexivity|]. rewrite Hx, IH. reflexivity.
Qed.

Lemma filter_Forall A (f : A -> bool) l : Forall (fun x => f x = true) (filter f l).
Proof.
  apply Forall_forall. intros x Hx. apply filter_In in Hx. tauto.
Qed.

Lemma Forall_trim (P : N -> Prop) s : Forall P s -> Forall P (trim s).
Proof.
  intros H. destruct (trim_split s) as (p & q & E & _ & _).
  rewrite E in H. apply Forall_app in H. destruct H as (_ & H).
  apply Forall_app in H. tauto.
Qed.

Lemma Forall_firstn A (P : A -> Prop) n l : Forall P l -> Forall P (firstn n l).
Proof.
  intros H. rewrite <- (firstn_skipn n l) in H. apply Forall_app in H. tauto.
Qed.

Lemma markup_free (c : jstring) :
  Forall (fun x => negb (is_markup x) = true) (generateThreadName c).
Proof.
  unfold generateThreadName.
  assert (H : Forall (fun x => negb (is_markup x) = true)
                     (trim (filter (fun x => negb (is_markup x)) c)))
    by apply Forall_trim, filter_Forall.
  destruct (Nat.leb _ 30); [exact H|].
  apply Forall_app. split; [apply Forall_firstn; exact H|].
  repeat constructor.
Qed.

Lemma name_trimmed (c : jstring) : trimmed (generateThreadName c).
Proof.
  unfold generateThreadName.
  set (cleaned := trim (filter (fun x => negb (is_markup x)) c)).
  assert (Ht : trimmed cleaned) by apply trim_trimmed.
  destruct (Nat.leb (length cleaned) 30) eqn:El; [exact Ht|].
  apply Nat.leb_gt in El. split.
  - destruct cleaned as [|x t]; [simpl in El; lia|].
    destruct Ht as (Hh & _). exact Hh.
  - rewrite rev_app_distr. reflexivity.
Qed.

Lemma name_length (c : jstring) : length (generateThreadName c) <= 30.
Proof.
  unfold generateThreadName.
  destruct (Nat.leb _ 30) eqn:El; [apply Nat.leb_le; exact El|].
  apply Nat.leb_gt in El. rewrite length_app, length_firstn.
  change (length (of_string "...")) with 3. lia.
Qed.

Lemma drop_space_all s :
  Forall (fun c => is_space c = true) s -> drop_space s = [].
Proof.
  induction 1 as [|c t Hc _ IH]; simpl; [reflexivity|]. rewrite Hc. exact IH.
Qed.

Lemma trim_empty_iff s : trim s = [] <-> Forall (fun c => is_space c = true) s.
Proof.
  split.
  - intros E. destruct (trim_split s) as (p & q & Es & Hp & Hq).
    rewrite E in Es. rewrite Es. apply Forall_app. auto.
  - intros H. unfold trim. rewrite (drop_space_all _ H). reflexivity.
Qed.

Lemma filter_all_iff (P Q : N -> bool) s :
  Forall (fun c => Q c = true) (filter P s)
  <-> Forall (fun c => P c = false \/ Q c = true) s.
Proof.
  induction s as [|c t IH]; simpl; [split; constructor|].
  destruct (P c) eqn:E; split; intros H.
  - inversion H as [|? ? Hc Ht]; subst. constructor; [right; exact Hc|].
    apply IH. exact Ht.
  - inversion H as [|? ? Hc Ht]; subst. constructor; [|apply IH; exact Ht].
    destruct Hc as [Hc|Hc]; [congruence|exact Hc].
  - constructor; [left; exact E|]. apply IH. exact H.
  - inversion H as [|? ? Hc Ht]; subst. apply IH. exact Ht.
Qed.

(** X12. A generated thread name has at most 30 characters, holds none of
    the characters star, hash and backtick, has no white space at its ends,
    and is a fixed point: naming a thread after a generated name gives that
    name again.  The name is empty exactly when the content is made of
    those three characters and white space only. *)
Theorem generateThreadName_normal (content : jstring) :
  length (generateThreadName content) <= 30
  /\ Forall (fun c => is_markup c = false) (generateThreadName content)
  /\ trimmed (generateThreadName content)
  /\ generateThreadName (generateThreadName content) = generateThreadName content
  /\ (generateThreadName content = []
      <-> Forall (fun c => is_markup c = true \/ is_space c = true) content).
Proof.
  split; [apply name_length|]. split.
  { eapply Forall_impl; [|apply markup_free]. intros x. apply negb_true_iff. }
  split; [apply name_trimmed|]. split.
  { generalize (name_length content) (markup_free content) (name_trimmed content).
    generalize (generateThreadName content) as n. intros n Hl Hm Ht.
    unfold generateThreadName. rewrite filter_all by exact Hm.
    rewrite trim_id by exact Ht.
    apply Nat.leb_le in Hl. rewrite Hl. reflexivity. }
  assert (Hc : trim (filter (fun c => negb (is_markup c)) content) = []
               <-> Forall (fun c => is_markup c = true \/ is_space c = true) content).
  { rewrite trim_empty_iff, filter_all_iff. split; intros H;
      (eapply Forall_impl; [|exact H]); intros c [Hm|Hs]; auto.
    - left. apply negb_false_iff. exact Hm.
    - left. apply negb_false_iff. exact Hm. }
  rewrite <- Hc. unfold generateThreadName.
  destruct (Nat.leb (length (trim (filter (fun c => negb (is_markup c)) content))) 30)
    eqn:El; [reflexivity|].
  apply Nat.leb_gt in El. split; intros E.
  - apply (f_equal (@length N)) in E. rewrite length_app in E. simpl in E. lia.
  - rewrite E in El. simpl in El. lia.
Qed.

(** *** Selection *)

Lemma find_thread_some i ts th :
  find_thread i ts = Some th -> In th ts /\ id th = i.
Proof.
  unfold find_thread. intros H. apply find_some in H.
  destruct H as (Hin & E). apply jeqb_eq_iff in E. auto.
Qed.

Lemma find_thread_head i t ts : id t = i -> find_thread i (t :: ts) = Some t.
Proof. unfold find_thread. simpl. intros ->. rewrite jeqb_same. reflexivity. Qed.

Lemma find_thread_in i ts t :
  In t ts -> id t = i -> exists th, find_thread i ts = Some th.
Proof.
  unfold find_thread. intros Hin E.
  destruct (find (fun t0 => jeqb (id t0) i) ts) as [th|] eqn:F; [eauto|].
  exfalso. pose proof (find_none _ _ F _ Hin) as Hn. simpl in Hn.
  rewrite E, jeqb_same in Hn. discriminate.
Qed.

Lemma find_map_replace i u ts th :
  find_thread i ts = Some th -> id u = i ->
  find_thread i (List.map (fun t => if jeqb (id t) i then u else t) ts) = Some u.
Proof.
  unfold find_thread. intros H Hu. induction ts as [|t ts IH]; simpl in *; [discriminate|].
  destruct (jeqb (id t) i) eqn:E.
  - rewrite Hu, jeqb_same. reflexivity.
  - rewrite E. apply IH. exact H.
Qed.

(** X13. After [createThread] the new thread is the current and the live
    one, it is what the two getters return, and the sidebar does not offer a
    new chat; once a first message is stored in it, it does. *)
Theorem createThread_selected (time_of : jstring -> option Z)
        (new_id now : jstring) (st : ChatHistoryState)
        (r : Role) (c msg_id later : jstring) :
  new_id <> [] ->
  let created := mkChatThread new_id (of_string "New conversation") now now [] in
  let st1 := createThread new_id now st in
  getCurrentThread st1 = Some created
  /\ getLiveThread st1 = Some created
  /\ isViewingLive st1 = true
  /\ canCreateNewChat st1 = false
  /\ canCreateNewChat (addMessage time_of new_id r c msg_id later st1) = true.
Proof.
  intros Hne created st1. apply truthy_iff in Hne.
  assert (Hf : find_thread new_id (threads st1) = Some created)
    by (apply find_thread_head; reflexivity).
  assert (Hc : getCurrentThread st1 = Some created).
  { unfold getCurrentThread. cbn [st1 createThread currentThreadId].
    rewrite Hne. exact Hf. }
  split; [exact Hc|]. split.
  { unfold getLiveThread. cbn [st1 createThread liveThreadId]. rewrite Hne. exact Hf. }
  split; [unfold isViewingLive; simpl; apply jeqb_same|].
  split; [unfold canCreateNewChat; rewrite Hc; reflexivity|].
  unfold addMessage. rewrite Hf. cbn [messages created filter length Nat.ltb Nat.leb].
  unfold canCreateNewChat, getCurrentThread. cbn [currentThreadId st1 createThread threads].
  rewrite Hne. cbn [List.map id created]. rewrite jeqb_same.
  rewrite find_thread_head by reflexivity.
  cbn [messages]. rewrite length_app. simpl. reflexivity.
Qed.

Lemma createThread_selected_witness :
  canCreateNewChat (createThread (of_string "thread_1") (of_string "2025-01-01") initial)
  = false.
Proof.
  refine (proj1 (proj2 (proj2 (proj2
    (createThread_selected (fun _ => None) (of_string "thread_1")
       (of_string "2025-01-01") initial
       user (of_string "flu") (of_string "msg_1") (of_string "2025-01-01") _))))).
  discriminate.
Defined.

Lemma kept_thread i ts t :
  In t ts -> id t <> i -> In t (filter (fun t0 => negb (jeqb (id t0) i)) ts).
Proof.
  intros Hin Hne. apply filter_In. split; [exact Hin|].
  rewrite (jeqb_diff Hne). reflexivity.
Qed.

Lemma points_at_kept i ts o :
  points_at ts o -> is_id i o = false ->
  points_at (filter (fun t0 => negb (jeqb (id t0) i)) ts) o.
Proof.
  intros [->|(t & Hin & ->)] Hi; [left; reflexivity|].
  right. exists t. split; [|reflexivity].
  apply kept_thread; [exact Hin|]. simpl in Hi.
  intros E. rewrite E, jeqb_same in Hi. discriminate.
Qed.

(** X14. Deleting a thread that is not the live one never leaves the deleted
    identifier selected, and leaves no thread with that identifier.  When,
    moreover, the current and the live selection pointed at threads of the
    list (or at nothing) before, they still do afterwards. *)
Theorem deleteThread_selection (i : jstring) (st : ChatHistoryState) :
  is_id i (liveThreadId st) = false ->
  let st' := deleteThread i st in
  currentThreadId st' <> Some i
  /\ find_thread i (threads st') = None
  /\ (points_at (threads st) (currentThreadId st) ->
      points_at (threads st) (liveThreadId st) ->
      points_at (threads st') (currentThreadId st')
      /\ points_at (threads st') (liveThreadId st')).
Proof.
  intros Hlive. unfold deleteThread. rewrite Hlive. cbn zeta.
  cbn [currentThreadId liveThreadId threads].
  set (filtered := filter (fun t => negb (jeqb (id t) i)) (threads st)).
  assert (Hfirst : forall t, In t filtered -> id t <> i).
  { intros t Hin. apply filter_In in Hin. destruct Hin as (_ & Hn).
    apply negb_true_iff in Hn. intros E. rewrite E, jeqb_same in Hn. discriminate. }
  split; [|split].
  - destruct (is_id i (currentThreadId st)) eqn:Hi.
    + unfold live_or_first.
      assert (Hf : match filtered with t :: _ => Some (id t) | [] => None end <> Some i).
      { destruct filtered as [|t ts] eqn:Ef; [discriminate|].
        intros E. inversion E. apply (Hfirst t); [left; reflexivity|assumption]. }
      destruct (liveThreadId st) as [l|]; [|exact Hf].
      destruct (truthy l); [|exact Hf].
      intros E. inversion E; subst l. simpl in Hlive.
      rewrite jeqb_same in Hlive. discriminate.
    + intros E. rewrite E in Hi. simpl in Hi. rewrite jeqb_same in Hi. discriminate.
  - destruct (find_thread i filtered) as [th|] eqn:F; [|reflexivity].
    apply find_thread_some in F. destruct F as (Hin & E).
    destruct (Hfirst _ Hin E).
  - intros Hc Hl.
    assert (Hl' : points_at filtered (liveThreadId st))
      by (apply points_at_kept; assumption).
    split; [|exact Hl'].
    destruct (is_id i (currentThreadId st)) eqn:Hi.
    + unfold live_or_first.
      assert (Hf : points_at filtered
                     match filtered with t :: _ => Some (id t) | [] => None end).
      { destruct filtered as [|t ts]; [left; reflexivity|].
        right. exists t. split; [left|]; reflexivity. }
      destruct (liveThreadId st) as [l|]; [|exact Hf].
      destruct (truthy l); [exact Hl'|exact Hf].
    + apply points_at_kept; assumption.
Qed.

Lemma deleteThread_selection_witness :
  let a := mkChatThread (of_string "a") (of_string "A") [] [] [] in
  let b := mkChatThread (of_string "b") (of_string "B") [] [] [] in
  let st := mkState [a; b] (Some (of_string "a")) (Some (of_string "b")) false in
  let st' := deleteThread (of_string "a") st in
  currentThreadId st' <> Some (of_string "a")
  /\ find_thread (of_string "a") (threads st') = None
  /\ points_at (threads st') (currentThreadId st')
  /\ points_at (threads st') (liveThreadId st').
Proof.
  intros a b st.
  destruct (@deleteThread_selection (of_string "a") st eq_refl) as (H1 & H2 & H3).
  refine (conj H1 (conj H2 (H3 _ _))).
  - right. exists a. split; [left|]; reflexivity.
  - right. exists b. split; [right; left|]; reflexivity.
Defined.

Section Clock.

Variable time_of : jstring -> option Z.

Lemma role_eqb_same r : role_eqb r r = true.
Proof. destruct r; reflexivity. Qed.

(** X15. A message that was just stored is not stored again: when
    [addMessage] has added a message, a second call for the same thread,
    role and content less than two seconds later changes nothing. *)
Theorem addMessage_twice (threadId : jstring) (r : Role) (c : jstring)
        (id1 id2 now later : jstring) (a b : Z) (st : ChatHistoryState) :
  time_of now = Some a ->
  time_of later = Some b ->
  (b - a < 2000)%Z ->
  addMessage time_of threadId r c id1 now st <> st ->
  addMessage time_of threadId r c id2 later
             (addMessage time_of threadId r c id1 now st)
  = addMessage time_of threadId r c id1 now st.
Proof.
  intros Ha Hb Hlt Hadded. revert Hadded. unfold addMessage at 1 3 4.
  destruct (find_thread threadId (threads st)) as [th|] eqn:F; [|congruence].
  destruct (Nat.ltb 0 (length (filter _ (messages th)))); [congruence|].
  intros _. cbv zeta.
  set (u := mkChatThread (id th) _ (createdAt th) now
                         (messages th ++ [mkChatMessage id1 r c now])).
  set (st1 := mkState _ _ _ _).
  unfold addMessage. cbn [st1 threads].
  rewrite (find_map_replace threadId u (threads st) th F)
    by (apply find_thread_some in F; tauto).
  cbn [u messages]. rewrite filter_app, length_app. cbn [filter].
  unfold recent at 2. cbn [role content timestamp].
  rewrite role_eqb_same, jeqb_same, Hb, Ha.
  assert (Hr : (b - a <? 2000)%Z = true) by (apply Z.ltb_lt; exact Hlt).
  rewrite Hr. cbn [andb length].
  replace (Nat.ltb 0 _) with true; [reflexivity|].
  symmetry. apply Nat.ltb_lt. lia.
Qed.

(** X16. [addMessage] keeps the threads, in their order and under their
    identifiers, and the two selections; a thread is left as it is or has
    the identifier of the call, and then it holds the messages of the first
    thread of that identifier followed by the new message.  For an
    identifier of no thread nothing changes at all. *)
Theorem addMessage_frame (threadId : jstring) (r : Role) (c : jstring)
        (new_id now : jstring) (st : ChatHistoryState) :
  let st' := addMessage time_of threadId r c new_id now st in
  List.map id (threads st') = List.map id (threads st)
  /\ currentThreadId st' = currentThreadId st
  /\ liveThreadId st' = liveThreadId st
  /\ isOpen st' = isOpen st
  /\ Forall2 (fun t t' =>
                t' = t
                \/ (id t = threadId
                    /\ exists th, find_thread threadId (threads st) = Some th
                         /\ messages t' = messages th ++ [mkChatMessage new_id r c now]
                         /\ updatedAt t' = now /\ createdAt t' = createdAt th))
             (threads st) (threads st')
  /\ match find_thread threadId (threads st) with
     | Some _ => True
     | None => st' = st
     end.
Proof.
  assert (Hrefl : forall ts : list ChatThread,
            Forall2 (fun t t' =>
                t' = t
                \/ (id t = threadId
                    /\ exists th, find_thread threadId (threads st) = Some th
                         /\ messages t' = messages th ++ [mkChatMessage new_id r c now]
                         /\ updatedAt t' = now /\ createdAt t' = createdAt th)) ts ts).
  { induction ts; constructor; auto. }
  unfold addMessage.
  destruct (find_thread threadId (threads st)) as [th|] eqn:F.
  2:{ cbv zeta. repeat split; auto. }
  destruct (Nat.ltb 0 (length (filter _ (messages th)))).
  { cbv zeta. repeat split; auto. }
  cbv zeta. cbn [threads currentThreadId liveThreadId isOpen].
  pose proof (find_thread_some _ _ _ F) as (_ & Eid).
  split; [|repeat split; auto].
  - rewrite map_map. apply map_ext. intros t.
    destruct (jeqb (id t) threadId) eqn:E; [|reflexivity].
    apply jeqb_eq_iff in E. simpl. congruence.
  - clear Hrefl F. induction (threads st) as [|t ts IH]; simpl; constructor; [|exact IH].
    destruct (jeqb (id t) threadId) eqn:E; [|left; reflexivity].
    right. apply jeqb_eq_iff in E. split; [exact E|].
    eexists. split; [reflexivity|]. simpl. auto.
Qed.

(** *** Groups *)

Lemma group_get_set_same g v groups :
  group_get g (Parser.map_set g v groups) = v.
Proof. unfold group_get. rewrite map_get_set_same. reflexivity. Qed.

Lemma group_get_set_other g g' v groups :
  g' <> g -> group_get g (Parser.map_set g' v groups) = group_get g groups.
Proof. intros H. unfold group_get. rewrite map_get_set_other by exact H. reflexivity. Qed.

Lemma group_fold today g : forall ts groups,
  group_get g
    (fold_left (fun groups t =>
                  Parser.map_set (group_of time_of today t)
                    (group_get (group_of time_of today t) groups ++ [t]) groups)
               ts groups)
  = group_get g groups
    ++ filter (fun t => jeqb (group_of time_of today t) g) ts.
Proof.
  induction ts as [|t ts IH]; intros groups; cbn [fold_left filter].
  - rewrite app_nil_r. reflexivity.
  - rewrite IH. destruct (jeqb (group_of time_of today t) g) eqn:E.
    + apply jeqb_eq_iff in E. rewrite E, group_get_set_same, <- app_assoc.
      reflexivity.
    + rewrite group_get_set_other; [reflexivity|].
      intros E'. rewrite E', jeqb_same in E. discriminate.
Qed.

Lemma group_of_cases today t :
  In (group_of time_of today t) groupOrder.
Proof.
  unfold group_of, groupOrder.
  destruct (time_of (updatedAt t)) as [d|]; [|simpl; auto].
  destruct (today <=? d)%Z; [simpl; auto|].
  destruct (today - 24 * 60 * 60 * 1000 <=? d)%Z; [simpl; auto|].
  destruct (today - 7 * 24 * 60 * 60 * 1000 <=? d)%Z; simpl; auto.
Qed.

Lemma perm_insert A (x : A) l1 l2 l :
  Permutation (l1 ++ l2) l -> Permutation (l1 ++ x :: l2) (x :: l).
Proof.
  intros H. symmetry. etransitivity; [|apply Permutation_middle].
  apply perm_skip. symmetry. exact H.
Qed.

(** X17. [groupThreadsByTime] puts under each group the threads of that
    group, in the order of the list, and the sidebar, which walks the four
    groups in their fixed order, lists every thread exactly once. *)
Theorem groups_partition (today : Z) (ts : list ChatThread) :
  (forall g,
     group_get g (groupThreadsByTime time_of today ts)
     = filter (fun t => jeqb (group_of time_of today t) g) ts)
  /\ Permutation (sidebar_threads time_of today ts) ts.
Proof.
  assert (Hg : forall g,
     group_get g (groupThreadsByTime time_of today ts)
     = filter (fun t => jeqb (group_of time_of today t) g) ts).
  { intros g. unfold groupThreadsByTime. rewrite group_fold. reflexivity. }
  split; [exact Hg|].
  unfold sidebar_threads, groupOrder. cbn [flat_map]. rewrite !Hg, app_nil_r.
  clear Hg. induction ts as [|t ts IH]; [reflexivity|].
  cbn [filter].
  destruct (group_of_cases today t) as [E|[E|[E|[E|[]]]]]; rewrite <- E; cbn [jeqb].
  - change (jeqb (of_string "Today") (of_string "Today")) with true.
    change (jeqb (of_string "Today") (of_string "Yesterday")) with false.
    change (jeqb (of_string "Today") (of_string "Previous 7 Days")) with false.
    change (jeqb (of_string "Today") (of_string "Older")) with false.
    cbv iota. simpl app at 1. constructor. exact IH.
  - change (jeqb (of_string "Yesterday") (of_string "Today")) with false.
    change (jeqb (of_string "Yesterday") (of_string "Yesterday")) with true.
    change (jeqb (of_string "Yesterday") (of_string "Previous 7 Days")) with false.
    change (jeqb (of_string "Yesterday") (of_string "Older")) with false.
    cbv iota. apply perm_insert. exact IH.
  - change (jeqb (of_string "Previous 7 Days") (of_string "Today")) with false.
    change (jeqb (of_string "Previous 7 Days") (of_string "Yesterday")) with false.
    change (jeqb (of_string "Previous 7 Days") (of_string "Previous 7 Days")) with true.
    change (jeqb (of_string "Previous 7 Days") (of_string "Older")) with false.
    cbv iota. rewrite app_assoc. apply perm_insert.
    rewrite <- app_assoc. exact IH.
  - change (jeqb (of_string "Older") (of_string "Today")) with false.
    change (jeqb (of_string "Older") (of_string "Yesterday")) with false.
    change (jeqb (of_string "Older") (of_string "Previous 7 Days")) with false.
    change (jeqb (of_string "Older") (of_string "Older")) with true.
    cbv iota. rewrite !app_assoc. apply perm_insert.
    rewrite <- !app_assoc. exact IH.
Qed.

End Clock.

Lemma addMessage_twice_witness :
  let time_of := fun s : jstring => Some (Z.of_N (decimal s)) in
  let st := createThread (of_string "t") (of_string "1000") initial in
  let st1 := addMessage time_of (of_string "t") user (of_string "flu")
                        (of_string "m1") (of_string "1000") st in
  addMessage time_of (of_string "t") user (of_string "flu")
             (of_string "m2") (of_string "2500") st1 = st1.
Proof.
  intros time_of st st1.
  apply (@addMessage_twice time_of (of_string "t") user (of_string "flu")
           (of_string "m1") (of_string "m2") (of_string "1000") (of_string "2500")
           1000%Z 2500%Z st).
  - reflexivity.
  - reflexivity.
  - lia.
  - vm_compute. discriminate.
Defined.

(** *** The view and the live thread *)

Lemma same_id_refl o : same_id o o = true.
Proof. destruct o; simpl; [apply jeqb_same|reflexivity]. Qed.

Lemma same_id_eq a b : same_id a b = true -> a = b.
Proof.
  destruct a, b; simpl; try discriminate; [|reflexivity].
  intros H. apply jeqb_eq_iff in H. congruence.
Qed.

Lemma addMessage_selection time_of threadId r c new_id now st :
  currentThreadId (addMessage time_of threadId r c new_id now st) = currentThreadId st
  /\ liveThreadId (addMessage time_of threadId r c new_id now st) = liveThreadId st.
Proof.
  unfold addMessage. destruct (find_thread threadId (threads st)); [|auto].
  destruct (Nat.ltb 0 _); auto.
Qed.

Lemma viewing_apply time_of st a :
  currentThreadId st = liveThreadId st ->
  currentThreadId (store_apply time_of st a) = liveThreadId (store_apply time_of st a).
Proof.
  intros H. destruct a; cbn [store_apply].
  - reflexivity.
  - reflexivity.
  - unfold selectLiveThread.
    destruct (liveThreadId st) as [l|] eqn:E; [|rewrite E; exact H].
    destruct (truthy l); [reflexivity|]. rewrite E. exact H.
  - unfold deleteThread. destruct (is_id i (liveThreadId st)) eqn:E; [exact H|].
    cbn [currentThreadId liveThreadId]. rewrite H, E. reflexivity.
  - exact H.
  - destruct (addMessage_selection time_of threadId r c new_id now st) as (-> & ->).
    exact H.
  - exact H.
  - exact H.
Qed.

(** X26. In every state the store reaches from its initial state the
    current thread is the live thread: [isViewingLive] answers true, and
    [selectLiveThread] changes nothing. *)
Theorem viewing_live_invariant (time_of : jstring -> option Z)
        (acts : list store_action) :
  currentThreadId (store_run time_of acts) = liveThreadId (store_run time_of acts)
  /\ isViewingLive (store_run time_of acts) = true
  /\ selectLiveThread (store_run time_of acts) = store_run time_of acts.
Proof.
  assert (H : currentThreadId (store_run time_of acts)
              = liveThreadId (store_run time_of acts)).
  { unfold store_run.
    assert (G : forall l st, currentThreadId st = liveThreadId st ->
                  currentThreadId (fold_left (store_apply time_of) l st)
                  = liveThreadId (fold_left (store_apply time_of) l st)).
    { induction l as [|a l IH]; intros st Hst; [exact Hst|].
      apply IH, viewing_apply, Hst. }
    apply G. reflexivity. }
  split; [exact H|]. split.
  - unfold isViewingLive. rewrite H. apply same_id_refl.
  - unfold selectLiveThread. destruct (store_run time_of acts) as [ts cur live op].
    simpl in *. subst cur. destruct live as [l|]; [|reflexivity].
    destruct (truthy l); reflexivity.
Qed.

(** X27. A rename from the sidebar touches names only: the threads keep
    their order, identifiers, messages and creation times, the selections
    stay, a thread is left as it is or has the identifier of the call and
    then carries the trimmed new name, which is not empty; a blank name
    changes nothing. *)
Theorem handleSubmitRename_frame (i editName now : jstring) (st : ChatHistoryState) :
  currentThreadId (handleSubmitRename i editName now st) = currentThreadId st
  /\ liveThreadId (handleSubmitRename i editName now st) = liveThreadId st
  /\ isOpen (handleSubmitRename i editName now st) = isOpen st
  /\ Forall2 (fun t t' =>
                id t' = id t /\ messages t' = messages t
                /\ createdAt t' = createdAt t
                /\ (t' = t
                    \/ (id t = i /\ name t' = trim editName /\ name t' <> []
                        /\ trimmed (name t') /\ updatedAt t' = now)))
             (threads st) (threads (handleSubmitRename i editName now st))
  /\ ((trim editName = [] /\ handleSubmitRename i editName now st = st)
      \/ trim editName <> []).
Proof.
  unfold handleSubmitRename.
  destruct (truthy (trim editName)) eqn:Et.
  - apply truthy_iff in Et. unfold renameThread.
    cbn [currentThreadId liveThreadId isOpen threads].
    repeat split; auto.
    induction (threads st) as [|t ts IH]; simpl; constructor; [|exact IH].
    destruct (jeqb (id t) i) eqn:E; [|auto 6].
    apply jeqb_eq_iff in E. cbn [id messages createdAt name updatedAt].
    repeat split; auto. right. repeat split; auto; apply trim_trimmed.
  - repeat split; auto.
    + induction (threads st) as [|t ts IH]; constructor; auto 6.
    + left. split; [|reflexivity]. destruct (trim editName); [reflexivity|discriminate].
Qed.

Lemma or_first_idempotent o ts : or_first (or_first o ts) ts = or_first o ts.
Proof.
  unfold or_first. destruct ts as [|t ts]; [reflexivity|].
  destruct o as [x|]; simpl.
  - destruct (truthy x) eqn:E; simpl; [rewrite E; reflexivity|].
    destruct (truthy (id t)); reflexivity.
  - destruct (truthy (id t)); reflexivity.
Qed.

(** X28. [migrate] keeps the threads and is idempotent.  From version 0,
    with at least one thread, it leaves neither identifier missing: each
    one stays as it was, or it was missing or empty and now is the
    identifier of the first thread.  Without threads, and from any other
    version, the state is returned as it is. *)
Theorem migrate_fills (version : nat) (st : ChatHistoryState) :
  threads (migrate version st) = threads st
  /\ migrate version (migrate version st) = migrate version st
  /\ match version, threads st with
     | O, t :: _ =>
         liveThreadId (migrate version st) <> None
         /\ currentThreadId (migrate version st) <> None
         /\ (liveThreadId (migrate version st) = liveThreadId st
             \/ ((liveThreadId st = None \/ liveThreadId st = Some [])
                 /\ liveThreadId (migrate version st) = Some (id t)))
         /\ (currentThreadId (migrate version st) = currentThreadId st
             \/ ((currentThreadId st = None \/ currentThreadId st = Some [])
                 /\ currentThreadId (migrate version st) = Some (id t)))
     | _, _ => migrate version st = st
     end.
Proof.
  assert (Hcase : forall o t ts,
            or_first o (t :: ts) <> None
            /\ (or_first o (t :: ts) = o
                \/ ((o = None \/ o = Some []) /\ or_first o (t :: ts) = Some (id t)))).
  { intros o t ts. unfold or_first. destruct o as [x|]; simpl.
    - destruct x as [|c x]; simpl; split; try discriminate; auto.
    - split; [discriminate|auto]. }
  unfold migrate. destruct version as [|v]; cbn [Nat.eqb].
  - cbn [threads currentThreadId liveThreadId isOpen].
    split; [reflexivity|]. split.
    + rewrite !or_first_idempotent. reflexivity.
    + destruct (threads st) as [|t ts] eqn:E.
      * destruct st as [ts0 cur live op]. simpl in *. subst ts0.
        unfold or_first. reflexivity.
      * destruct (Hcase (liveThreadId st) t ts) as (H1 & H2).
        destruct (Hcase (currentThreadId st) t ts) as (H3 & H4). auto.
  - auto.
Qed.

End ChatHistoryMoreFacts.

(** ** The parser loses no result line *)

Module ParserMoreFacts.
Import JS JSMore JSFacts MapFacts Regex RegexFacts Parser ParserFacts ResultCard.
Import MessageViewFacts.

Local Unset Implicit Arguments.

(** The name a header line gives is never empty. *)
Lemma systemMatch_nonempty h k : systemMatch h = Some k -> k <> [].
Proof.
  unfold systemMatch, exec. intros H.
  destruct (search_from systemRe 0 h) as [m|] eqn:E; [|discriminate].
  apply search_from_sound in E. destruct E as (a & b & -> & Hs).
  unfold systemRe in Hs. cbn [rseq fold_right] in Hs.
  split_seq Hs s1 H1. split_seq Hs s2 H2. split_seq Hs s3 H3.
  split_seq Hs s4 H4. split_seq Hs s5 H5. split_seq Hs s6 H6.
  split_seq Hs s7 H7. split_seq Hs s8 H8. split_seq Hs s9 H9.
  split_seq Hs s10 H10. split_seq Hs s11 H11. end_seq Hs s11.
  apply sem_group_inv in H4. destruct H4 as (g & H4 & _ & _ & C4).
  apply sem_rplus_inv in H4. destruct H4 as (x & w & _ & _ & E4 & _).
  apply sem_rplus_inv in H5. destruct H5 as (? & ? & _ & _ & _ & C5).
  apply sem_rlit_inv in H6. destruct H6 as (_ & C6).
  apply sem_rplus_inv in H7. destruct H7 as (? & ? & _ & _ & _ & C7).
  apply sem_rplus_inv in H8. destruct H8 as (? & ? & _ & _ & _ & C8).
  apply sem_rlit_inv in H9. destruct H9 as (_ & C9).
  apply sem_rlit_inv in H11. destruct H11 as (_ & C11).
  assert (C10 : caps s10 = caps s9).
  { apply sem_ropt_inv in H10. destruct H10 as [H10| ->]; [|reflexivity].
    apply sem_rlit_inv in H10. tauto. }
  unfold group in H. rewrite C11, C10, C9, C8, C7, C6, C5, C4 in H.
  simpl in H. rewrite E4, consumed_app in H. inversion H. discriminate.
Qed.

Lemma map_get_in V k (v : V) m : map_get k m = Some v -> In (k, v) m.
Proof.
  induction m as [|[k0 v0] m IH]; simpl; [discriminate|].
  destruct (jeqb k0 k) eqn:E; intros H.
  - inversion H; subst. apply jeqb_eq_iff in E. subst. left. reflexivity.
  - right. apply IH. exact H.
Qed.

Lemma map_get_push k cs a m refs :
  map_get k m = Some refs ->
  map_get k (map_push cs a m) = Some (if jeqb k cs then refs ++ [a] else refs).
Proof.
  induction m as [|[k0 v0] m IH]; simpl; [discriminate|].
  destruct (jeqb k0 cs) eqn:Ec; simpl.
  - destruct (jeqb k0 k) eqn:Ek; intros H.
    + inversion H; subst. apply jeqb_eq_iff in Ec, Ek. subst.
      rewrite jeqb_same. reflexivity.
    + rewrite H. destruct (jeqb k cs) eqn:E'; [|reflexivity].
      apply jeqb_eq_iff in E', Ec. subst. rewrite jeqb_same in Ek. discriminate.
  - destruct (jeqb k0 k) eqn:Ek; intros H.
    + inversion H; subst. apply jeqb_eq_iff in Ek. subst k0. rewrite Ec. reflexivity.
    + apply IH. exact H.
Qed.

Lemma map_has_push k cs a m : map_has k m = true -> map_has k (map_push cs a m) = true.
Proof.
  unfold map_has. destruct (map_get k m) as [refs|] eqn:E; [|discriminate].
  rewrite (map_get_push _ _ _ _ _ E). reflexivity.
Qed.

Lemma holds_add_summary k c d q st line :
  holds k c d q st -> holds k c d q (add_summary st line).
Proof.
  unfold holds. destruct (add_summary_frame st line) as (-> & -> & _). auto.
Qed.

Lemma holds_result_line k c d q st line :
  holds k c d q st -> holds k c d q (result_line st line).
Proof.
  intros H. unfold result_line.
  destruct (_ && _); [|apply holds_add_summary; exact H].
  destruct (codeMatch line) as [c'|]; [|apply holds_add_summary; exact H].
  destruct (displayMatch line) as [d'|]; [|apply holds_add_summary; exact H].
  destruct H as (refs & a & r & Hg & Ha & Hn & Hr).
  exists (if jeqb k (currentSystem st) then refs ++ [length (heap st)] else refs), a, r.
  cbn [systems heap]. split; [apply map_get_push; exact Hg|].
  split; [destruct (jeqb k (currentSystem st)); [apply in_or_app; left|]; exact Ha|].
  split; [|exact Hr].
  rewrite nth_error_app1; [exact Hn|]. apply nth_error_Some. congruence.
Qed.

Lemma holds_step k c d q st line :
  holds k c d q st -> systemMatch line <> Some k -> holds k c d q (step st line).
Proof.
  intros H Hk. unfold step.
  destruct (systemMatch line) as [name|] eqn:Em.
  - destruct H as (refs & a & r & Hg & Hr). exists refs, a, r.
    cbn [systems heap]. split; [|exact Hr].
    rewrite map_get_set_other; [exact Hg|]. intros E. subst. congruence.
  - destruct (parentMatch line) as [[pc pd]|]; [|apply holds_result_line; exact H].
    destruct (lastResult st) as [a'|]; [|apply holds_result_line; exact H].
    destruct H as (refs & a & r & Hg & Ha & Hn & Hc & Hd & Hq & Hs).
    exists refs, a, (if Nat.eqb a a' then set_parent pc (trim pd) r else r).
    cbn [systems heap]. rewrite heap_update_nth, Hn.
    destruct (Nat.eqb a a'); simpl; auto 10.
Qed.

Lemma holds_run k c d q : forall post st,
  Forall (fun x => systemMatch x <> Some k) post ->
  holds k c d q st -> holds k c d q (run post st).
Proof.
  induction post as [|x post IH]; intros st Hp H; [exact H|].
  inversion Hp as [|? ? Hx Hrest]; subst.
  apply (IH (step st x) Hrest). apply holds_step; assumption.
Qed.

(** Below a header the loop stays in its system until the next header. *)
Lemma open_step k st line :
  no_header line ->
  currentSystem st = k /\ map_has k (systems st) = true ->
  currentSystem (step st line) = k /\ map_has k (systems (step st line)) = true.
Proof.
  intros Hno (Hc & Hm). unfold step. rewrite Hno.
  assert (Hr : currentSystem (result_line st line) = k
               /\ map_has k (systems (result_line st line)) = true).
  { unfold result_line.
    destruct (add_summary_frame st line) as (_ & Es & Ec).
    destruct (_ && _); [|rewrite Es, Ec; auto].
    destruct (codeMatch line); [|rewrite Es, Ec; auto].
    destruct (displayMatch line); [|rewrite Es, Ec; auto].
    cbn [currentSystem systems]. split; [exact Hc|apply map_has_push; exact Hm]. }
  destruct (parentMatch line) as [[pc pd]|]; [|exact Hr].
  destruct (lastResult st); [simpl; auto|exact Hr].
Qed.

Lemma open_run k : forall mid st,
  Forall no_header mid ->
  currentSystem st = k /\ map_has k (systems st) = true ->
  currentSystem (run mid st) = k /\ map_has k (systems (run mid st)) = true.
Proof.
  induction mid as [|x mid IH]; intros st Hp H; [exact H|].
  inversion Hp as [|? ? Hx Hrest]; subst.
  apply (IH (step st x) Hrest). apply open_step; assumption.
Qed.

Lemma run_app a b st : run (a ++ b) st = run b (run a st).
Proof. apply fold_left_app. Qed.

(** X18. No result line is lost: a line with a leading dash, a code between
    backticks and a display between double stars, standing under a header
    that is the last one of its name, and not read as a hierarchy line, has
    its result in the returned map under that header's name, with the code,
    the display and the confidence read from the line. *)
Theorem parse_complete (s k c d h l : jstring) (pre mid post : list jstring) :
  split_lines s = pre ++ h :: mid ++ l :: post ->
  systemMatch h = Some k ->
  Forall no_header mid ->
  no_header l ->
  Forall (fun x => systemMatch x <> Some k) post ->
  parentMatch l = None ->
  startsWith (trim l) (of_string "-") = true ->
  codeMatch l = Some c ->
  displayMatch l = Some d ->
  exists rs r,
    In (k, rs) (p_systems (parseCodeResults s)) /\ In r rs
    /\ code r = c /\ display r = d
    /\ confidence r = confidence_of l /\ system r = k.
Proof.
  intros Es Hh Hmid Hl Hpost Hp Hdash Hc Hd.
  unfold parseCodeResults. rewrite Es. cbn [p_systems].
  change (pre ++ h :: mid ++ l :: post) with (pre ++ [h] ++ mid ++ [l] ++ post).
  rewrite !run_app.
  set (st0 := run pre init).
  assert (H1 : currentSystem (run [h] st0) = k
               /\ map_has k (systems (run [h] st0)) = true).
  { cbn [run fold_left]. unfold step. rewrite Hh. cbn [currentSystem systems].
    split; [reflexivity|]. unfold map_has. rewrite map_get_set_same. reflexivity. }
  pose proof (open_run k mid _ Hmid H1) as (Hcur & Hhas).
  set (st2 := run mid (run [h] st0)) in *.
  assert (H3 : holds k c d (confidence_of l) (run [l] st2)).
  { cbn [run fold_left]. unfold step. rewrite Hl, Hp. unfold result_line.
    rewrite Hcur, Hhas, Hdash, Hc, Hd.
    pose proof (systemMatch_nonempty _ _ Hh) as Hne. apply truthy_iff in Hne.
    rewrite Hne. cbn [andb].
    unfold map_has in Hhas.
    destruct (map_get k (systems st2)) as [refs|] eqn:Eg; [|discriminate].
    exists (refs ++ [length (heap st2)]), (length (heap st2)),
           (mkCodeResult c d (confidence_of l) k None None).
    cbn [systems heap].
    rewrite (map_get_push _ _ _ _ _ Eg), jeqb_same.
    split; [reflexivity|]. split; [apply in_or_app; right; left; reflexivity|].
    split; [|simpl; auto].
    rewrite nth_error_app2, Nat.sub_diag by lia. reflexivity. }
  pose proof (holds_run k c d _ post _ Hpost H3) as (refs & a & r & Hg & Ha & Hn & Hr).
  exists (deref (heap (run post (run [l] st2))) refs), r.
  split; [|split; [|exact Hr]].
  - apply map_get_in in Hg.
    apply (in_map (fun kv => (fst kv, deref (heap (run post (run [l] st2))) (snd kv))))
      in Hg. exact Hg.
  - unfold deref. apply in_flat_map. exists a. split; [exact Ha|].
    rewrite Hn. left. reflexivity.
Qed.

Lemma parse_complete_witness :
  exists rs r,
    In (of_string "ICD-10-CM", rs) (p_systems (parseCodeResults sample)) /\ In r rs
    /\ code r = of_string "E10" /\ display r = of_string "Type 1 diabetes".
Proof.
  destruct (parse_complete sample (of_string "ICD-10-CM") (of_string "E10")
              (of_string "Type 1 diabetes")
              (of_string "### ICD-10-CM (2 results)")
              (of_string "- `E10` **Type 1 diabetes** (no score)")
              [of_string "Found codes for diabetes."; of_string "---"]
              [of_string "- `E11.9` **Type 2 diabetes mellitus** - 92%";
               of_string "  - > Parent: `E11` Type 2 diabetes"]
              [of_string "### LOINC (1 result)";
               of_string "- `4548-4` **Hemoglobin A1c** 150%";
               of_string "*Searched: ICD-10-CM, LOINC*"])
    as (rs & r & H1 & H2 & H3 & H4 & _).
  - vm_compute. reflexivity.
  - vm_compute. reflexivity.
  - apply Forall_cons; [vm_compute; reflexivity|].
    apply Forall_cons; [vm_compute; reflexivity|]. apply Forall_nil.
  - vm_compute. reflexivity.
  - apply Forall_cons; [vm_compute; discriminate|].
    apply Forall_cons; [vm_compute; discriminate|].
    apply Forall_cons; [vm_compute; discriminate|]. apply Forall_nil.
  - vm_compute. reflexivity.
  - vm_compute. reflexivity.
  - vm_compute. reflexivity.
  - vm_compute. reflexivity.
  - exists rs, r. exact (conj H1 (conj H2 (conj H3 H4))).
Defined.

(** *** A repeated header starts its list again *)

Lemma listed_last_more ls line k r :
  listed_last ls k r -> systemMatch line <> Some k -> listed_last (ls ++ [line]) k r.
Proof.
  intros (l & (pre & h & mid & post & -> & Hh & Hmid & Hpost) & Hf) Hk.
  exists l. split; [|exact Hf].
  exists pre, h, mid, (post ++ [line]).
  rewrite <- !app_assoc. simpl. rewrite <- !app_assoc. simpl.
  repeat split; auto. apply Forall_app. auto.
Qed.

Lemma listed_last_parent ls k pc pd r :
  listed_last ls k r -> listed_last ls k (set_parent pc pd r).
Proof. intros (l & Hu & Hf). exists l. split; [exact Hu|exact Hf]. Qed.

Lemma map_get_push_inv k cs a m refs' :
  map_get k (map_push cs a m) = Some refs' ->
  exists refs, map_get k m = Some refs
               /\ refs' = if jeqb k cs then refs ++ [a] else refs.
Proof.
  destruct (map_get k m) as [refs|] eqn:E.
  - rewrite (map_get_push _ _ _ _ _ E). intros H. inversion H. eauto.
  - intros H. exfalso. revert H E.
    induction m as [|[k0 v0] m IH]; simpl; [discriminate|].
    destruct (jeqb k0 cs); simpl; destruct (jeqb k0 k);
      intros H1 H2; try discriminate; try congruence; eauto.
Qed.

Lemma last_refs_frame ls line st st' :
  last_refs ls st -> no_header line ->
  systems st' = systems st -> heap st' = heap st ->
  last_refs (ls ++ [line]) st'.
Proof.
  intros HL Hno Es Eh k refs a Hg Ha. rewrite Es in Hg. rewrite Eh.
  destruct (HL _ _ _ Hg Ha) as (r & Hn & Hl).
  exists r. split; [exact Hn|]. apply listed_last_more; [exact Hl|].
  unfold no_header in Hno. congruence.
Qed.

Lemma last_refs_step ls line st :
  Inv ls st -> last_refs ls st -> last_refs (ls ++ [line]) (step st line).
Proof.
  intros HI HL. unfold step.
  destruct (systemMatch line) as [name|] eqn:Hsys.
  - intros k refs a Hg Ha. cbn [systems heap] in *.
    destruct (jstring_eq_dec name k) as [->|Hne].
    + rewrite map_get_set_same in Hg. inversion Hg; subst. destruct Ha.
    + rewrite map_get_set_other in Hg by exact Hne.
      destruct (HL _ _ _ Hg Ha) as (r & Hn & Hl).
      exists r. split; [exact Hn|]. apply listed_last_more; [exact Hl|].
      congruence.
  - assert (Hres : last_refs (ls ++ [line]) (result_line st line)).
    { unfold result_line.
      destruct (add_summary_frame st line) as (Eh & Es & _).
      destruct (truthy (currentSystem st)) eqn:Ht;
        [|apply (last_refs_frame ls line st); auto].
      cbn [andb].
      destruct (map_has (currentSystem st) (systems st)
                && startsWith (trim line) (of_string "-"));
        [|apply (last_refs_frame ls line st); auto].
      destruct (codeMatch line) as [c|] eqn:Hc;
        [|apply (last_refs_frame ls line st); auto].
      destruct (displayMatch line) as [d|] eqn:Hd;
        [|apply (last_refs_frame ls line st); auto].
      intros k refs' a Hg Ha. cbn [systems heap] in *.
      apply map_get_push_inv in Hg. destruct Hg as (refs & Hg & ->).
      assert (Hold : In a refs ->
                exists r, nth_error (heap st ++
                            [mkCodeResult c d (confidence_of line)
                                          (currentSystem st) None None]) a = Some r
                          /\ listed_last (ls ++ [line]) k r).
      { intros Hin. destruct (HL _ _ _ Hg Hin) as (r & Hn & Hl).
        exists r. split.
        - rewrite nth_error_app1; [exact Hn|]. apply nth_error_Some. congruence.
        - apply listed_last_more; [exact Hl|]. congruence. }
      destruct (jeqb k (currentSystem st)) eqn:Ek; [|exact (Hold Ha)].
      apply in_app_or in Ha. destruct Ha as [Ha|[<-|[]]]; [exact (Hold Ha)|].
      apply jeqb_eq_iff in Ek. subst k.
      eexists. split.
      - rewrite nth_error_app2, Nat.sub_diag by lia. reflexivity.
      - apply truthy_iff in Ht.
        destruct (inv_cur HI Ht) as (pre & h & mid & -> & Hh & Hmid).
        exists line. split.
        + exists pre, h, mid, []. rewrite <- app_assoc. simpl.
          repeat split; auto.
        + repeat split; auto. }
    destruct (parentMatch line) as [[pc pd]|]; [|exact Hres].
    destruct (lastResult st) as [a0|]; [|exact Hres].
    intros k refs a Hg Ha. cbn [systems heap] in *.
    destruct (HL _ _ _ Hg Ha) as (r & Hn & Hl).
    rewrite heap_update_nth, Hn.
    assert (Hl' : listed_last (ls ++ [line]) k r)
      by (apply listed_last_more; [exact Hl|congruence]).
    destruct (Nat.eqb a a0); simpl; eexists; split; try reflexivity.
    + apply listed_last_parent. exact Hl'.
    + exact Hl'.
Qed.

Lemma last_refs_run lines : forall ls st,
  Inv ls st -> last_refs ls st -> last_refs (ls ++ lines) (run lines st).
Proof.
  induction lines as [|line lines IH]; intros ls st HI HL; simpl.
  - rewrite app_nil_r. exact HL.
  - replace (ls ++ line :: lines) with ((ls ++ [line]) ++ lines)
      by (rewrite <- app_assoc; reflexivity).
    apply IH; [apply Inv_step; exact HI|apply last_refs_step; assumption].
Qed.

Lemma map_get_unique V k (v : V) m :
  NoDup (List.map fst m) -> In (k, v) m -> map_get k m = Some v.
Proof.
  induction m as [|[k0 v0] m IH]; simpl; intros Hnd Hin; [destruct Hin|].
  inversion Hnd as [|? ? Hk0 Hnd']; subst.
  destruct Hin as [E|Hin].
  - inversion E; subst. rewrite jeqb_same. reflexivity.
  - destruct (jeqb k0 k) eqn:Ek; [|apply IH; assumption].
    apply jeqb_eq_iff in Ek. subst k0. destruct Hk0.
    apply (in_map fst) in Hin. exact Hin.
Qed.

(** X19. Every result the map lists under a name comes from a line below
    the last header of that name: when a header name occurs again in the
    text, the results listed under its earlier occurrence are dropped. *)
Theorem parse_under_last_header (s k : jstring) (rs : list CodeResult) (r : CodeResult) :
  In (k, rs) (p_systems (parseCodeResults s)) -> In r rs ->
  exists l, under_last (split_lines s) k l /\ from_line k l r.
Proof.
  unfold parseCodeResults. cbn [p_systems]. intros Hin Hr.
  assert (HL : last_refs (split_lines s) (run (split_lines s) init)).
  { apply (last_refs_run (split_lines s) [] init Inv_init).
    intros k0 refs a Hg. discriminate Hg. }
  assert (Hnd : NoDup (List.map fst (systems (run (split_lines s) init)))).
  { apply (ResultCardFacts.keys_run (split_lines s) [] init); [constructor|].
    simpl. tauto. }
  apply in_map_iff in Hin. destruct Hin as ([k0 refs] & E & Hin).
  simpl in E. inversion E; subst; clear E.
  apply (map_get_unique _ _ _ _ Hnd) in Hin.
  unfold deref in Hr. apply in_flat_map in Hr. destruct Hr as (a & Ha & Hr).
  destruct (HL _ _ _ Hin Ha) as (r' & Hn & Hl).
  rewrite Hn in Hr. destruct Hr as [<-|[]]. exact Hl.
Qed.

Lemma parse_under_last_header_witness :
  let again := of_string
"### LOINC (1 result)
- `4548-4` **Hemoglobin A1c** 90%
### LOINC (1 result)
- `2345-7` **Glucose** 80%" in
  let r := mkCodeResult (of_string "2345-7") (of_string "Glucose") (Number.percent 80)
                        (of_string "LOINC") None None in
  exists l, under_last (split_lines again) (of_string "LOINC") l
            /\ from_line (of_string "LOINC") l r.
Proof.
  intros again r.
  apply (parse_under_last_header again (of_string "LOINC") [r] r).
  - vm_compute. left. reflexivity.
  - left. reflexivity.
Defined.

End ParserMoreFacts.

(** ** The bundle: removal, export and the add buttons *)

Module BundleMoreFacts.
Import JS JSMore JSFacts BundleStore BundleFacts BundleMore.

Local Unset Implicit Arguments.

Lemma matches_false_other c sy c' sy' i :
  (c', sy') <> (c, sy) -> matches c sy i = true -> matches c' sy' i = false.
Proof.
  intros Hne Hm. apply matches_iff in Hm.
  destruct (matches c' sy' i) eqn:E; [|reflexivity].
  apply matches_iff in E. congruence.
Qed.

Lemma hasItem_false_all c sy st :
  hasItem c sy st = false -> Forall (fun i => negb (matches c sy i) = true) (items st).
Proof.
  unfold hasItem. intros H. apply Forall_forall. intros i Hi.
  destruct (matches c sy i) eqn:E; [|reflexivity].
  assert (Ht : existsb (matches c sy) (items st) = true)
    by (apply existsb_exists; eauto).
  congruence.
Qed.

Lemma filter_keep_all A (f : A -> bool) l :
  Forall (fun x => f x = true) l -> filter f l = l.
Proof.
  induction 1 as [|x l Hx _ IH]; simpl; [reflexivity|]. rewrite Hx, IH. reflexivity.
Qed.

(** X20. [removeItem] removes its pair and nothing else: afterwards the
    pair is not in the bundle, every other pair is in it exactly when it was
    before, the sidebar stays as it was, and removing an item that was just
    added to a bundle without its pair gives the old list back. *)
Theorem removeItem_round_trip (c sy : jstring) (st : BundleState) :
  hasItem c sy (removeItem c sy st) = false
  /\ (forall c' sy', (c', sy') <> (c, sy) ->
        hasItem c' sy' (removeItem c sy st) = hasItem c' sy' st)
  /\ isOpen (removeItem c sy st) = isOpen st
  /\ (forall d, hasItem c sy st = false ->
        items (removeItem c sy (addItem (mkBundleItem sy c d) st)) = items st).
Proof.
  split; [|split; [|split; [reflexivity|]]].
  - unfold hasItem, removeItem. cbn [items].
    destruct (existsb _ _) eqn:E; [|reflexivity].
    apply existsb_exists in E. destruct E as (i & Hi & Hm).
    apply filter_In in Hi. destruct Hi as (_ & Hn). rewrite Hm in Hn. discriminate.
  - intros c' sy' Hne. unfold hasItem, removeItem. cbn [items].
    induction (items st) as [|i l IH]; [reflexivity|]. cbn [filter existsb].
    destruct (matches c sy i) eqn:E; cbn [negb existsb].
    + rewrite (matches_false_other _ _ _ _ _ Hne E). exact IH.
    + rewrite IH. reflexivity.
  - intros d Hno. unfold addItem. cbn [code system].
    unfold hasItem in Hno. rewrite Hno. unfold removeItem. cbn [items].
    rewrite filter_app. cbn [filter].
    replace (matches c sy (mkBundleItem sy c d)) with true
      by (symmetry; apply matches_iff; reflexivity).
    cbn [negb]. rewrite app_nil_r. apply filter_keep_all.
    apply hasItem_false_all. exact Hno.
Qed.

(** *** The exported text *)

Lemma split_lines_one l : no_line_feed l -> split_lines l = [l].
Proof.
  induction 1 as [|c t Hc _ IH]; [reflexivity|]. simpl.
  apply N.eqb_neq in Hc. rewrite Hc, IH. reflexivity.
Qed.

Lemma split_lines_more l rest :
  no_line_feed l -> split_lines (l ++ 10%N :: rest) = l :: split_lines rest.
Proof.
  induction 1 as [|c t Hc _ IH]; [reflexivity|]. simpl.
  apply N.eqb_neq in Hc. rewrite Hc, IH. reflexivity.
Qed.

Lemma split_join ls :
  ls <> [] -> Forall no_line_feed ls -> split_lines (join [10%N] ls) = ls.
Proof.
  induction ls as [|x ls IH]; [congruence|]. intros _ H.
  inversion H as [|? ? Hx Hls]; subst.
  destruct ls as [|y t]; [apply split_lines_one; exact Hx|].
  change (join [10%N] (x :: y :: t)) with (x ++ 10%N :: join [10%N] (y :: t)).
  rewrite (split_lines_more _ _ Hx), IH; [reflexivity|discriminate|exact Hls].
Qed.

Lemma escape_no_line_feed s : no_line_feed s -> no_line_feed (escape_quotes s).
Proof.
  unfold no_line_feed, escape_quotes. induction 1 as [|c t Hc _ IH]; [constructor|].
  simpl. destruct (c =? 34)%N eqn:E.
  - apply N.eqb_eq in E. subst. repeat constructor; try discriminate. exact IH.
  - constructor; assumption.
Qed.

Lemma csv_row_text i :
  csv_row i = system i ++ [44%N] ++ code i ++ [44%N; 34%N]
              ++ escape_quotes (display i) ++ [34%N].
Proof. reflexivity. Qed.

Lemma csv_row_no_line_feed i :
  no_line_feed (system i) -> no_line_feed (code i) -> no_line_feed (display i) ->
  no_line_feed (csv_row i).
Proof.
  intros Hs Hc Hd. rewrite csv_row_text. unfold no_line_feed in *.
  repeat (apply Forall_app; split); auto.
  - repeat constructor. discriminate.
  - repeat constructor; discriminate.
  - apply escape_no_line_feed. exact Hd.
  - repeat constructor. discriminate.
Qed.

Lemma escape_quotes_injective a : forall b,
  escape_quotes a = escape_quotes b -> a = b.
Proof.
  unfold escape_quotes.
  induction a as [|x a IH]; intros [|y b] H; simpl in H.
  - reflexivity.
  - destruct (y =? 34)%N; discriminate.
  - destruct (x =? 34)%N; discriminate.
  - destruct (x =? 34)%N eqn:Ex, (y =? 34)%N eqn:Ey; simpl in H.
    + apply N.eqb_eq in Ex, Ey. subst. inversion H as [H1]. f_equal. apply IH, H1.
    + inversion H as [[H1 H2]]. subst y. discriminate.
    + inversion H as [[H1 H2]]. subst x. discriminate.
    + inversion H as [[H1 H2]]. f_equal. apply IH, H2.
Qed.

(** X21. The export of a bundle whose fields hold no line feed is a text
    of one header line and one line for each item, in the order of the
    bundle; a line is the system, the code and the display between commas,
    the display between double quotes with its own double quotes doubled,
    which loses nothing: two displays with the same escaped text are the
    same.  The system and the code are written as they are. *)
Theorem export_csv_lines (items : list BundleItem) :
  items <> [] ->
  Forall (fun i => no_line_feed (system i) /\ no_line_feed (code i)
                   /\ no_line_feed (display i)) items ->
  exists csv,
    exportBundleToCSV items = Some csv
    /\ split_lines csv = of_string "System,Code,Display" :: List.map csv_row items
    /\ (forall i, csv_row i = system i ++ [44%N] ++ code i ++ [44%N; 34%N]
                              ++ escape_quotes (display i) ++ [34%N])
    /\ (forall a b, escape_quotes a = escape_quotes b -> a = b).
Proof.
  intros Hne Hok. unfold exportBundleToCSV.
  destruct items as [|i items]; [congruence|]. cbn [length Nat.eqb].
  eexists. split; [reflexivity|].
  split; [|split; [exact csv_row_text|exact escape_quotes_injective]].
  rewrite split_join; [reflexivity|discriminate|].
  constructor.
  - unfold no_line_feed. vm_compute. repeat constructor; discriminate.
  - apply Forall_forall. intros row Hrow. apply in_map_iff in Hrow.
    destruct Hrow as (j & <- & Hj). rewrite Forall_forall in Hok.
    destruct (Hok _ Hj) as (H1 & H2 & H3). apply csv_row_no_line_feed; assumption.
Qed.

Lemma export_csv_lines_witness :
  let item := mkBundleItem (of_string "ICD-10-CM") (of_string "E11.9")
                           (of_string "Type 2 diabetes") in
  exists csv,
    exportBundleToCSV [item] = Some csv
    /\ split_lines csv = [of_string "System,Code,Display"; csv_row item].
Proof.
  intros item.
  destruct (export_csv_lines [item]) as (csv & E & Hl & _).
  - discriminate.
  - constructor; [|constructor].
    unfold no_line_feed. vm_compute. repeat split; repeat constructor; discriminate.
  - exists csv. split; [exact E|exact Hl].
Defined.

Lemma export_empty : exportBundleToCSV [] = None.
Proof. reflexivity. Qed.

(** X22. The add button of a result card adds the result once: after a
    click the pair of the result is in the bundle, which disables the
    button, and a second click changes neither the bundle nor the toasts; a
    click on a result that is in the bundle does nothing, and a click on one
    that is not appends it and shows one toast. *)
Theorem handleAddToBundle_once (r : Parser.CodeResult) (e : card_env) :
  hasItem (Parser.code r) (Parser.system r) (bundle (handleAddToBundle r e)) = true
  /\ handleAddToBundle r (handleAddToBundle r e) = handleAddToBundle r e
  /\ ((hasItem (Parser.code r) (Parser.system r) (bundle e) = true
       /\ handleAddToBundle r e = e)
      \/ (hasItem (Parser.code r) (Parser.system r) (bundle e) = false
          /\ items (bundle (handleAddToBundle r e))
             = items (bundle e)
               ++ [mkBundleItem (Parser.system r) (Parser.code r) (Parser.display r)]
          /\ length (toasts (handleAddToBundle r e)) = S (length (toasts e)))).
Proof.
  assert (H1 : hasItem (Parser.code r) (Parser.system r)
                       (bundle (handleAddToBundle r e)) = true).
  { unfold handleAddToBundle.
    destruct (hasItem (Parser.code r) (Parser.system r) (bundle e)) eqn:E;
      cbn [negb bundle]; [exact E|].
    apply (hasItem_after_add
             (mkBundleItem (Parser.system r) (Parser.code r) (Parser.display r))). }
  split; [exact H1|]. split.
  - unfold handleAddToBundle at 1. rewrite H1. reflexivity.
  - unfold handleAddToBundle.
    destruct (hasItem (Parser.code r) (Parser.system r) (bundle e)) eqn:E;
      cbn [negb bundle toasts]; [left; auto|right].
    split; [reflexivity|]. split.
    + unfold addItem. cbn [code system]. unfold hasItem in E. rewrite E. reflexivity.
    + rewrite length_app. simpl. lia.
Qed.

End BundleMoreFacts.

(** ** The action button *)

Module ActionButtonFacts.
Import JS JSMore JSFacts BundleStore BundleFacts InputArea ActionButton.

Local Unset Implicit Arguments.

Lemma is_type_known t s :
  In (of_string s) known_types -> is_type t s = true -> is_known t = true.
Proof.
  unfold is_type, is_known. destruct t as [x|]; [|discriminate].
  intros Hin E. apply jeqb_eq_iff in E. subst x.
  apply existsb_exists. exists (of_string s). split; [exact Hin|apply jeqb_same].
Qed.

Lemma followup_query_known p :
  (is_known (p_type p) = true /\ followup_query p <> [])
  \/ (is_known (p_type p) = false /\ followup_query p = []).
Proof.
  unfold followup_query.
  destruct (is_type (p_type p) "meds_for_diagnosis") eqn:E1.
  { left. split; [|discriminate].
    apply (is_type_known _ "meds_for_diagnosis"); [simpl; auto|exact E1]. }
  destruct (is_type (p_type p) "other_strengths") eqn:E2.
  { left. split; [|discriminate].
    apply (is_type_known _ "other_strengths"); [simpl; auto|exact E2]. }
  destruct (is_type (p_type p) "diagnosis_for_drug") eqn:E3.
  { left. split; [|discriminate].
    apply (is_type_known _ "diagnosis_for_drug"); [simpl; auto|exact E3]. }
  destruct (is_type (p_type p) "loinc_unit") eqn:E4.
  { left. split; [|discriminate].
    apply (is_type_known _ "loinc_unit"); [simpl; auto 6|exact E4]. }
  destruct (is_type (p_type p) "hcpcs_diagnosis") eqn:E5.
  { left. split; [|discriminate].
    apply (is_type_known _ "hcpcs_diagnosis"); [simpl; auto 6|exact E5]. }
  right. split; [|reflexivity].
  unfold is_known. destruct (p_type p) as [x|]; [|reflexivity].
  unfold is_type in *. unfold known_types. cbn [existsb].
  rewrite E1, E2, E3, E4, E5. reflexivity.
Qed.

(** X23. A click on an action button does exactly one of three things.  An
    add-to-bundle action puts its pair in the bundle, which disables the
    button, and sends nothing.  A followup of one of the five known types
    sends one user message with a non-empty query, also when the payload
    lacks the field the query is built from, and leaves the bundle alone.
    Every other action only is logged as unhandled. *)
Theorem handleClick_cases (a : IAction) (st : client) :
  let payload := match a_payload a with Some p => p | None => empty_payload end in
  let st' := handleClick a st in
  (a_name a = of_string "add_to_bundle"
   /\ sent st' = sent st /\ unhandled st' = unhandled st
   /\ isInBundle a st' = true)
  \/ (a_name a = of_string "followup" /\ is_known (p_type payload) = true
      /\ bundle st' = bundle st /\ unhandled st' = unhandled st
      /\ followup_query payload <> []
      /\ sent st' = sent st ++ [mkUserMessage (of_string "User")
                                              (of_string "user_message")
                                              (followup_query payload)])
  \/ (a_name a <> of_string "add_to_bundle"
      /\ (a_name a <> of_string "followup" \/ is_known (p_type payload) = false)
      /\ bundle st' = bundle st /\ sent st' = sent st
      /\ unhandled st' = S (unhandled st)).
Proof.
  intros payload st'. subst st'. unfold handleClick, isInBundle. fold payload.
  destruct (jeqb (a_name a) (of_string "add_to_bundle")) eqn:Ea.
  - left. apply jeqb_eq_iff in Ea. cbn [sent unhandled bundle andb].
    repeat split; auto.
    apply (hasItem_after_add
             (mkBundleItem (or_empty (p_system payload)) (or_empty (p_code payload))
                           (or_empty (p_display payload)))).
  - right.
    assert (Hna : a_name a <> of_string "add_to_bundle").
    { intros E. rewrite E, jeqb_same in Ea. discriminate. }
    destruct (jeqb (a_name a) (of_string "followup")) eqn:Ef; cbn [andb].
    + apply jeqb_eq_iff in Ef.
      destruct (followup_query_known payload) as [(Hk & Hq)|(Hk & Hq)].
      * left. apply truthy_iff in Hq. rewrite Hq. cbn [sent unhandled bundle].
        apply truthy_iff in Hq. repeat split; auto.
      * right. rewrite Hq. cbn [truthy sent unhandled bundle]. repeat split; auto.
    + right. cbn [sent unhandled bundle]. repeat split; auto.
      left. intros E. rewrite E, jeqb_same in Ef. discriminate.
Qed.

End ActionButtonFacts.

(** ** The input area: what reaches the backend *)

Module InputEventsFacts.
Import JS JSMore JSFacts InputArea InputEvents.

Local Unset Implicit Arguments.

Lemma handleSubmit_sent st :
  Forall well_formed (sent st) -> Forall well_formed (sent (handleSubmit st)).
Proof.
  intros H. unfold handleSubmit.
  destruct (truthy (trim (input st))) eqn:Et; cbn [negb orb]; [|exact H].
  destruct (loading st); [exact H|]. cbn [sent].
  apply Forall_app. split; [exact H|]. constructor; [|constructor].
  unfold well_formed. cbn [m_name m_type m_output].
  repeat split; try apply trim_trimmed. apply truthy_iff. exact Et.
Qed.

Lemma handle_sent st e :
  Forall well_formed (sent st) -> Forall well_formed (sent (handle st e)).
Proof.
  intros H. destruct e as [s| |key shiftKey|b]; cbn [handle sent]; auto.
  - apply handleSubmit_sent, H.
  - unfold handleKeyDown. destruct (_ && _); [apply handleSubmit_sent, H|exact H].
Qed.

Lemma handleSubmit_idempotent st : handleSubmit (handleSubmit st) = handleSubmit st.
Proof.
  unfold handleSubmit at 2.
  destruct (negb (truthy (trim (input st))) || loading st) eqn:E.
  - unfold handleSubmit. rewrite E. reflexivity.
  - unfold handleSubmit. cbn [input loading]. rewrite E. reflexivity.
Qed.

Lemma handleSubmit_loading st : loading st = true -> handleSubmit st = st.
Proof. intros H. unfold handleSubmit. rewrite H, orb_true_r. reflexivity. Qed.

(** X24. Whatever is typed and whichever keys are pressed, every message
    the input area hands to [sendMessage] is a user message whose text is
    not empty and has no white space at its ends.  Submitting twice in a row
    sends once, and nothing is sent while the chat is loading. *)
Theorem input_area_sends (es : list event) (st : component) (e : event) :
  Forall well_formed (sent (run_events es))
  /\ handleSubmit (handleSubmit st) = handleSubmit st
  /\ (loading st = true -> sent (handle st e) = sent st).
Proof.
  split; [|split; [apply handleSubmit_idempotent|]].
  - unfold run_events.
    assert (H : forall es0 st0, Forall well_formed (sent st0) ->
                  Forall well_formed (sent (fold_left handle es0 st0))).
    { induction es0 as [|e0 es0 IH]; intros st0 H0; [exact H0|].
      apply IH, handle_sent, H0. }
    apply H. constructor.
  - intros Hl. destruct e as [s| |key shiftKey|b]; cbn [handle sent]; auto.
    + rewrite handleSubmit_loading by exact Hl. reflexivity.
    + unfold handleKeyDown. destruct (_ && _); [|reflexivity].
      rewrite handleSubmit_loading by exact Hl. reflexivity.
Qed.

End InputEventsFacts.

(** ** The actions under a message *)

Module MessageActionsFacts.
Import JS JSMore JSFacts BundleStore InputArea ActionButton MessageActions.

Local Unset Implicit Arguments.

(** X25. No action button under a message touches the bundle: for every
    action that [filteredActions] keeps, a click leaves the bundle as it is
    and the button is never shown as in the bundle; the click sends at most
    one message.  The bundle is filled from the result cards only. *)
Theorem shown_actions_keep_bundle (actions : list IAction) (a : IAction) (st : client) :
  In a (filteredActions actions) ->
  bundle (handleClick a st) = bundle st
  /\ isInBundle a st = false
  /\ a_name a <> of_string "add_to_bundle"
  /\ a_name a <> of_string "export_csv"
  /\ (sent (handleClick a st) = sent st
      \/ exists m, sent (handleClick a st) = sent st ++ [m]).
Proof.
  unfold filteredActions. intros Hin. apply filter_In in Hin.
  destruct Hin as (_ & Hs). unfold shown_action in Hs.
  destruct (jeqb (a_name a) (of_string "add_to_bundle")) eqn:Ea; [discriminate|].
  destruct (jeqb (a_name a) (of_string "export_csv")) eqn:Ee; [discriminate|].
  clear Hs. unfold handleClick, isInBundle. rewrite Ea. cbn [andb].
  split; [|split; [reflexivity|split; [|split]]].
  - destruct (jeqb (a_name a) (of_string "followup") && truthy _); reflexivity.
  - intros E. rewrite E, jeqb_same in Ea. discriminate.
  - intros E. rewrite E, jeqb_same in Ee. discriminate.
  - destruct (jeqb (a_name a) (of_string "followup") && truthy _); cbn [sent];
      [right; eauto|left; reflexivity].
Qed.

Lemma shown_actions_keep_bundle_witness :
  let followup := mkAction (of_string "followup")
                    (Some (mkPayload (Some (of_string "loinc_unit")) None None
                                     (Some (of_string "Glucose")) None)) in
  let add := mkAction (of_string "add_to_bundle") None in
  let st := mkClient BundleStore.initial [] 0 in
  bundle (handleClick followup st) = bundle st.
Proof.
  intros followup add st.
  refine (proj1 (shown_actions_keep_bundle [add; followup] followup st _)).
  vm_compute. left. reflexivity.
Defined.

End MessageActionsFacts.
